(** * OPIC-HITS frontier backend: score store, refresh store and engine

    A shallow embedding of
    - [crawlfrontier/contrib/backends/opic/hitsdb.py]   (module [HitsDB]),
    - [crawlfrontier/contrib/backends/opic/freqdb.py]   (module [FreqDB]),
    - [crawlfrontier/contrib/backends/opic/opichits.py] (module [OpicHits]),
    - [crawlfrontier/utils/misc.py], function [chunks]  (module [Misc]),
    followed by the properties proved about them.

    Conventions.
    - Python floats are idealised as exact rationals in canonical form
      ([Qc]), so that two equal numbers are equal terms and every definition
      still evaluates.  Rounding is outside the model, and so is the
      rounding of the amounts that [increase_h_cash] and [increase_a_cash]
      print into their SQL text.
    - A SQLite table is the list of its rows in rowid order.  A row inserted
      by [INSERT] goes to the end of the list.
    - [ORDER BY k ASC] is a stable sort of that list: rows with equal keys
      come out in rowid order, as a scan of the index on [k] yields them.
      [ORDER BY k DESC] is the backward scan of that index: falling keys,
      and rows with equal keys in falling rowid order.
    - [LIMIT n] and [xrange(n)] take a count, a natural number.
    - [increase_h_cash], [increase_a_cash] and [get_next_pages] paste page
      ids between quotes into their SQL text ([in_list_text]).  For ids
      free of the quote character ([quote_free]) the text is the list of
      these ids and [IN (...)] is membership, which is what the three
      definitions compute.  An id with a quote character ends its literal
      early: the statement is then rejected by SQLite or carries another
      condition.  Every statement about these three calls, and about the
      steps of the engine that make them, has the hypothesis that the
      pasted ids are quote-free.
    - A Python exception is [None] in the [option] monad. *)

From Stdlib Require Import Arith ZArith QArith Qcanon List String Ascii Bool Lia.
From Stdlib Require Import Permutation Sorted Lqa.
Import ListNotations.

Set Implicit Arguments.

Local Open Scope Qc_scope.
Local Open Scope list_scope.

(** ** Numbers *)

Definition half : Qc := Q2Qc (1 # 2).
Definition two : Qc := Q2Qc 2.

(** [float(n)] for a Python int [n >= 0]. *)
Definition of_nat (n : nat) : Qc := Q2Qc (inject_Z (Z.of_nat n)).

Definition Qc_eqb (x y : Qc) : bool :=
  match x ?= y with Eq => true | _ => false end.

Definition Qc_ltb (x y : Qc) : bool :=
  match x ?= y with Lt => true | _ => false end.

(** Python truthiness of a float: [0.0] is false. *)
Definition truthy (x : Qc) : bool := negb (Qc_eqb x 0).

(** [x or d] when [x] is a float or [None]. *)
Definition or_default (x : option Qc) (d : Qc) : Qc :=
  match x with
  | Some v => if truthy v then v else d
  | None => d
  end.

(** ** Page identifiers and SQL helpers *)

Abbreviation page_id := string (only parsing).

(** The quote character, which ends a string literal in SQL text. *)
Definition is_quote (a : ascii) : bool := Ascii.eqb a "'"%char.

(** The id has no quote character. *)
Definition quote_free (p : page_id) : bool :=
  negb (existsb is_quote (list_ascii_of_string p)).

(** [','.join(["'" + x + "'" for x in ids])]: the text put between the
    brackets of [IN (...)]. *)
Definition in_list_text (ids : list page_id) : string :=
  String.concat ","%string (map (fun x => ("'" ++ x ++ "'")%string) ids).

(** [page_id IN (ids)], for ids that are [quote_free]: [in_list_text] is
    then the list of the literals of [ids]. *)
Definition id_in (p : page_id) (ids : list page_id) : bool :=
  existsb (String.eqb p) ids.

Section Sql.
Variable A : Type.

(** [before y x] holds when [y] sorts strictly before [x]. *)
Variable before : A -> A -> bool.

Fixpoint insert_sorted (x : A) (l : list A) : list A :=
  match l with
  | [] => [x]
  | y :: t => if before y x then y :: insert_sorted x t else x :: y :: t
  end.

(** Stable sort: an element moves only past elements that sort strictly
    before it. *)
Definition order_by (l : list A) : list A :=
  fold_right insert_sorted [] l.

(** [LIMIT n] *)
Definition limit (n : nat) (l : list A) : list A := firstn n l.

(** [SELECT ... WHERE key = p] followed by [fetchone()] *)
Fixpoint fetchone (key : A -> page_id) (p : page_id) (l : list A) : option A :=
  match l with
  | [] => None
  | x :: t => if String.eqb (key x) p then Some x else fetchone key p t
  end.

(** [UPDATE ... SET (f) WHERE (sel)] *)
Definition update_where (sel : A -> bool) (f : A -> A) (l : list A) : list A :=
  map (fun x => if sel x then f x else x) l.

(** [DELETE FROM ... WHERE (sel)] *)
Definition delete_where (sel : A -> bool) (l : list A) : list A :=
  filter (fun x => negb (sel x)) l.
End Sql.

(** ** hitsdb.py *)

Module HitsDB.

Record HitsScore : Type := mkHitsScore {
  h_history : Qc;
  h_cash : Qc;
  h_last : Qc;
  a_history : Qc;
  a_cash : Qc;
  a_last : Qc
}.

(** A row of [page_score]: the page id and the six stored columns. *)
Abbreviation row := (page_id * HitsScore)%type (only parsing).

(** The database file: table [page_score] and the two rows of
    [global_increase] (absent in a file that was never opened). *)
Record tables : Type := mkTables {
  page_score : list row;
  global_a_cash : option Qc;
  global_h_cash : option Qc
}.

Definition new_tables : tables := mkTables [] None None.

(** The connection object: the file plus the two in-memory deltas. *)
Record SQLite : Type := mkSQLite {
  db : tables;
  _a_cash_increase : Qc;
  _h_cash_increase : Qc
}.

Definition rows (c : SQLite) : list row := page_score (db c).

Definition with_rows (c : SQLite) (l : list row) : SQLite :=
  mkSQLite (mkTables l (global_a_cash (db c)) (global_h_cash (db c)))
           (_a_cash_increase c) (_h_cash_increase c).

(** [INSERT OR IGNORE INTO global_increase VALUES (name, 0.0)] *)
Definition insert_or_ignore_global (v : option Qc) : option Qc :=
  match v with Some x => Some x | None => Some 0 end.

(** [__init__]: create what is missing, then restore both deltas.
    [fetchone()[0]] cannot fail after the two inserts. *)
Definition connect (t : tables) : SQLite :=
  let a := insert_or_ignore_global (global_a_cash t) in
  let h := insert_or_ignore_global (global_h_cash t) in
  mkSQLite (mkTables (page_score t) a h)
           (match a with Some x => x | None => 0 end)
           (match h with Some x => x | None => 0 end).

(** [UPDATE global_increase SET value=? WHERE name=...] *)
Definition save_global (v : option Qc) (x : Qc) : option Qc :=
  match v with Some _ => Some x | None => None end.

(** [close]: save both deltas; what is left is the file. *)
Definition close (c : SQLite) : tables :=
  mkTables (page_score (db c))
           (save_global (global_a_cash (db c)) (_a_cash_increase c))
           (save_global (global_h_cash (db c)) (_h_cash_increase c)).

Definition clear (c : SQLite) : SQLite := with_rows c [].

Definition contains (c : SQLite) (p : page_id) : bool :=
  match fetchone fst p (rows c) with Some _ => true | None => false end.

(** The columns written by [add] and [set]. *)
Definition stored (c : SQLite) (s : HitsScore) : HitsScore :=
  mkHitsScore (h_history s) (h_cash s - _h_cash_increase c) (h_last s)
              (a_history s) (a_cash s - _a_cash_increase c) (a_last s).

(** [INSERT OR IGNORE]: [page_id] is [UNIQUE]. *)
Definition add (c : SQLite) (p : page_id) (s : HitsScore) : SQLite :=
  if contains c p then c else with_rows c (rows c ++ [(p, stored c s)]).

Definition get (c : SQLite) (p : page_id) : option HitsScore :=
  match fetchone fst p (rows c) with
  | Some (_, s) =>
      Some (mkHitsScore (h_history s) (h_cash s + _h_cash_increase c) (h_last s)
                        (a_history s) (a_cash s + _a_cash_increase c) (a_last s))
  | None => None
  end.

Definition set (c : SQLite) (p : page_id) (s : HitsScore) : SQLite :=
  with_rows c (update_where (fun r => String.eqb (fst r) p)
                            (fun r => (fst r, stored c s)) (rows c)).

Definition delete (c : SQLite) (p : page_id) : SQLite :=
  with_rows c (delete_where (fun r => String.eqb (fst r) p) (rows c)).

(** [iteritems]: line 299 adds [_h_cash_increase] in the [a_cash] column. *)
Definition iteritems (c : SQLite) : list (page_id * HitsScore) :=
  map (fun x : row =>
         let s := snd x in
         (fst x,
          mkHitsScore (h_history s) (h_cash s + _h_cash_increase c) (h_last s)
                      (a_history s) (a_cash s + _h_cash_increase c) (a_last s)))
      (rows c).

(** [ORDER BY col DESC]: [y] sorts strictly before [x] when its key is
    greater. *)
Definition by_desc (col : HitsScore -> Qc) (y x : row) : bool :=
  Qc_ltb (col (snd x)) (col (snd y)).

(** The backward scan of the index on [col]: the rows by falling key,
    rows of equal key in falling rowid order (a stable sort of the
    reversed table). *)
Definition order_by_desc (col : HitsScore -> Qc) (t : list row) : list row :=
  order_by (by_desc col) (rev t).

Definition get_highest_h_cash (c : SQLite) (n : nat) : list (page_id * Qc) :=
  map (fun r : row => (fst r, h_cash (snd r) + _h_cash_increase c))
      (limit n (order_by_desc h_cash (rows c))).

Definition get_highest_a_cash (c : SQLite) (n : nat) : list (page_id * Qc) :=
  map (fun r : row => (fst r, a_cash (snd r) + _a_cash_increase c))
      (limit n (order_by_desc a_cash (rows c))).

Definition increase_all_cash (c : SQLite) (h a : Qc) : SQLite :=
  mkSQLite (db c) (_a_cash_increase c + a) (_h_cash_increase c + h).

(** [SET h_cash=h_cash + d] and [SET a_cash=a_cash + d] on one row. *)
Definition more_h_cash (d : Qc) (s : HitsScore) : HitsScore :=
  mkHitsScore (h_history s) (h_cash s + d) (h_last s)
              (a_history s) (a_cash s) (a_last s).

Definition more_a_cash (d : Qc) (s : HitsScore) : HitsScore :=
  mkHitsScore (h_history s) (h_cash s) (h_last s)
              (a_history s) (a_cash s + d) (a_last s).

Definition add_h_cash (d : Qc) (r : row) : row := (fst r, more_h_cash d (snd r)).

Definition add_a_cash (d : Qc) (r : row) : row := (fst r, more_a_cash d (snd r)).

(** [increase_h_cash] and [increase_a_cash]: [WHERE page_id IN (...)]
    over the pasted list [in_list_text ids], read as membership; this is
    what the statement does when every id of [ids] is [quote_free]. *)
Definition increase_h_cash (c : SQLite) (ids : list page_id) (d : Qc) : SQLite :=
  with_rows c (update_where (fun r => id_in (fst r) ids) (add_h_cash d) (rows c)).

Definition increase_a_cash (c : SQLite) (ids : list page_id) (d : Qc) : SQLite :=
  with_rows c (update_where (fun r => id_in (fst r) ids) (add_a_cash d) (rows c)).

Definition get_count (c : SQLite) : nat := List.length (rows c).

Definition sum (l : list Qc) : Qc := fold_right Qcplus 0 l.

(** [Sum(col) ... or 0.0]: the sum over no row is NULL, read as [0.0]. *)
Definition get_h_total (c : SQLite) : Qc :=
  sum (map (fun r : row => h_history (snd r)) (rows c)).

Definition get_a_total (c : SQLite) : Qc :=
  sum (map (fun r : row => a_history (snd r)) (rows c)).

End HitsDB.

(** ** freqdb.py *)

Module FreqDB.

(** A row of [page_frequency]. *)
Record entry : Type := mkEntry {
  page : page_id;
  frequency : Qc;
  score : Qc
}.

(** The connection: table [page_frequency] in rowid order. *)
Abbreviation SQLite := (list entry) (only parsing).

Definition new : SQLite := [].

Definition clear (c : SQLite) : SQLite := [].

(** [ORDER BY score ASC] *)
Definition by_score (y x : entry) : bool := Qc_ltb (score y) (score x).

Definition _get_min_score (c : SQLite) : Qc :=
  match limit 1 (order_by by_score c) with
  | e :: _ => score e
  | [] => 0
  end.

Definition contains (c : SQLite) (p : page_id) : bool :=
  match fetchone page p c with Some _ => true | None => false end.

(** [add]: nothing happens unless [page_frequency > 0]; the insert is
    [INSERT OR IGNORE] on the [UNIQUE] column [page_id]. *)
Definition add (c : SQLite) (p : page_id) (f : Qc) (fresh : bool) : SQLite :=
  if Qc_ltb 0 f then
    let score0 := _get_min_score c in
    let score1 := if fresh then score0 + 1 / f else score0 in
    if contains c p then c else c ++ [mkEntry p f score1]
  else c.

Definition delete (c : SQLite) (p : page_id) : SQLite :=
  delete_where (fun e => String.eqb (page e) p) c.

(** [set]: the right-hand sides of the [UPDATE] read the old row. *)
Definition set (c : SQLite) (p : page_id) (f : Qc) : SQLite :=
  if Qc_eqb f 0 then delete c p
  else if contains c p then
    update_where (fun e => String.eqb (page e) p)
                 (fun e => mkEntry (page e) f (score e - 1 / frequency e + 1 / f)) c
  else add c p f true.

(** The rows picked by [SELECT page_id ... ORDER BY score ASC LIMIT n]. *)
Definition next_rows (c : SQLite) (n : nat) : list entry :=
  limit n (order_by by_score c).

Definition served (e : entry) : entry :=
  mkEntry (page e) (frequency e) (score e + 1 / frequency e).

(** [get_next_pages]: the new table and the returned list.  [n] counts
    rows.  The [UPDATE] reads [WHERE page_id IN (...)] over the pasted
    list [in_list_text pages] as membership; this is what the statement
    does when every selected id is [quote_free]. *)
Definition get_next_pages (c : SQLite) (n : nat) : SQLite * list page_id :=
  let pages := map page (next_rows c n) in
  (update_where (fun e => id_in (page e) pages) served c, pages).

End FreqDB.

(** ** opichits.py *)

Module OpicHits.
Import HitsDB.

(** The read-only graph database ([graphdb] is not part of the sources
    at hand: only the three queries the engine makes are kept). *)
Record GraphDB : Type := mkGraphDB {
  inodes : list page_id;
  successors : page_id -> list page_id;
  predecessors : page_id -> list page_id
}.

(** The read-only relevance database: [get] gives a float or [None]. *)
Abbreviation RelevanceDB := (page_id -> option Qc) (only parsing).

Record OpicHits : Type := mkOpicHits {
  _scores : SQLite;
  _n_pages : nat;
  _h_total : Qc;
  _a_total : Qc;
  _to_update : list page_id;
  _closed : bool;
  _time_window : option Qc;
  _time : Qc;
  _virtual_page : HitsScore
}.

(** One entry of [mixed]: the tuple [(cash, page_id, is_hub)]. *)
Abbreviation entry := (Qc * page_id * bool)%type (only parsing).

Definition entry_page (x : entry) : page_id := snd (fst x).
Definition entry_is_hub (x : entry) : bool := snd x.

(** Python's [<] on such tuples: lexicographic, with [False < True]. *)
Definition tuple_lt (x y : entry) : bool :=
  let '(c1, p1, b1) := x in
  let '(c2, p2, b2) := y in
  Qc_ltb c1 c2
  || (Qc_eqb c1 c2
      && (String.ltb p1 p2 || (String.eqb p1 p2 && (negb b1 && b2)))).

(** [sorted(l, reverse=True)] *)
Definition sorted_reverse (l : list entry) : list entry :=
  order_by (fun y x => tuple_lt x y) l.

(** [not self._time_window]: [None], [False] and [0.0] are all false. *)
Definition no_window (e : OpicHits) : bool :=
  match _time_window e with
  | None => true
  | Some w => negb (truthy w)
  end.

Definition window (e : OpicHits) : Qc :=
  match _time_window e with Some w => w | None => 0 end.

Definition _history_interpolator (e : OpicHits) (delta history cash : Qc) : Qc :=
  let f := delta / window e in
  if Qc_ltb f 1 then history * (1 - f) + cash else cash / f.

Definition _updated_page_h (e : OpicHits) (s : HitsScore) : HitsScore :=
  let h_history_new :=
    if no_window e then h_history s + h_cash s
    else _history_interpolator e (_time e - h_last s) (h_history s) (h_cash s) in
  mkHitsScore h_history_new 0 (_time e) (a_history s) (a_cash s) (a_last s).

Definition _updated_page_a (e : OpicHits) (s : HitsScore) : HitsScore :=
  let a_history_new :=
    if no_window e then a_history s + a_cash s
    else _history_interpolator e (_time e - a_last s) (a_history s) (a_cash s) in
  mkHitsScore (h_history s) (h_cash s) (h_last s) a_history_new 0 (_time e).

Definition set_scores (e : OpicHits) (c : SQLite) : OpicHits :=
  mkOpicHits c (_n_pages e) (_h_total e) (_a_total e) (_to_update e)
             (_closed e) (_time_window e) (_time e) (_virtual_page e).

Definition set_virtual_page (e : OpicHits) (v : HitsScore) : OpicHits :=
  mkOpicHits (_scores e) (_n_pages e) (_h_total e) (_a_total e) (_to_update e)
             (_closed e) (_time_window e) (_time e) v.

Definition set_to_update (e : OpicHits) (l : list page_id) : OpicHits :=
  mkOpicHits (_scores e) (_n_pages e) (_h_total e) (_a_total e) l
             (_closed e) (_time_window e) (_time e) (_virtual_page e).

Definition mark_update (e : OpicHits) (p : page_id) : OpicHits :=
  set_to_update e (_to_update e ++ [p]).

Definition new_score (e : OpicHits) : HitsScore :=
  mkHitsScore 0 1 (_time e) 0 1 (_time e).

(** [add_page]: the new state and the returned score ([None] when the
    page was already scored). *)
Definition add_page (e : OpicHits) (p : page_id) : OpicHits * option HitsScore :=
  if negb (contains (_scores e) p) then
    (mkOpicHits (add (_scores e) p (new_score e)) (S (_n_pages e))
                (_h_total e) (_a_total e) (_to_update e) (_closed e)
                (_time_window e) (_time e) (_virtual_page e),
     Some (new_score e))
  else (e, None).

(** [_get_page_score]: a [HitsScore] object is always true, so [get] is
    asked only when [add_page] returned [None]. *)
Definition _get_page_score (e : OpicHits) (p : page_id)
  : OpicHits * option HitsScore :=
  match add_page e p with
  | (e1, Some s) => (e1, Some s)
  | (e1, None) => (e1, get (_scores e1) p)
  end.

Definition _update_virtual_page (e : OpicHits) : OpicHits :=
  if (0 <? _n_pages e)%nat then
    let v := _virtual_page e in
    let h_dist := a_cash v / of_nat (_n_pages e) in
    let a_dist := h_cash v / of_nat (_n_pages e) in
    let e1 := set_scores e (increase_all_cash (_scores e) h_dist a_dist) in
    set_virtual_page e1 (_updated_page_h e1 (_updated_page_a e1 v))
  else e.

Section Engine.
Variable graph : GraphDB.
Variable relevance : RelevanceDB.

(** [_update_page_h]; reading a field of [None] raises. *)
Definition _update_page_h (e : OpicHits) (p : page_id) : option OpicHits :=
  match _get_page_score e p with
  | (e1, Some score) =>
      let succ := successors graph p in
      let a_dist := h_cash score / (of_nat (List.length succ) + 1) in
      let scores1 := increase_a_cash (_scores e1) succ a_dist in
      let v := _virtual_page e1 in
      let v1 := mkHitsScore (h_history v) (h_cash v) (h_last v)
                            (a_history v) (a_cash v + a_dist) (a_last v) in
      let new_score := _updated_page_h e1 score in
      let scores2 := set scores1 p new_score in
      Some (mkOpicHits scores2 (_n_pages e1)
              (_h_total e1 + (h_history new_score - h_history score))
              (_a_total e1) (_to_update e1) (_closed e1) (_time_window e1)
              (_time e1 + h_cash score) v1)
  | (_, None) => None
  end.

(** The share of one predecessor, line 232. *)
Definition z_share (r : Qc) (N : nat) : Qc :=
  if (0 <? N)%nat then
    two * r / of_nat N
    * (two * of_nat N / (of_nat N + 1) * (1 - r) + (r - half))
  else 0.

(** [r = self._relevance.get(page_id) or 0.5] *)
Definition page_relevance (p : page_id) : Qc := or_default (relevance p) half.

Definition _update_page_a (e : OpicHits) (p : page_id) : option OpicHits :=
  match _get_page_score e p with
  | (e1, Some score) =>
      let pred := predecessors graph p in
      let N := List.length pred in
      let r := page_relevance p in
      let z := z_share r N in
      let scores1 := increase_h_cash (_scores e1) pred (a_cash score * z) in
      let v := _virtual_page e1 in
      let v1 := mkHitsScore (h_history v)
                            (h_cash v + a_cash score * (1 - z * of_nat N))
                            (h_last v) (a_history v) (a_cash v) (a_last v) in
      let new_score := _updated_page_a e1 score in
      let scores2 := set scores1 p new_score in
      Some (mkOpicHits scores2 (_n_pages e1) (_h_total e1)
              (_a_total e1 + (a_history new_score - a_history score))
              (_to_update e1) (_closed e1) (_time_window e1)
              (_time e1 + a_cash score) v1)
  | (_, None) => None
  end.

(** [n_updates = 20*max(1, len(self._to_update))] *)
Definition n_updates (e : OpicHits) : nat :=
  20 * Nat.max 1 (List.length (_to_update e)).

(** The list [mixed] built at the top of one iteration. *)
Definition select_batch (e : OpicHits) (k : nat) : list entry :=
  let highest_h := get_highest_h_cash (_scores e) k in
  let highest_a := get_highest_a_cash (_scores e) k in
  limit k (sorted_reverse
             (map (fun x => (snd x, fst x, true)) highest_h
              ++ map (fun x => (snd x, fst x, false)) highest_a)).

Definition update_entry (e : OpicHits) (x : entry) : option OpicHits :=
  if entry_is_hub x then _update_page_h e (entry_page x)
  else _update_page_a e (entry_page x).

(** The inner [for] loop over [mixed]. *)
Fixpoint apply_batch (e : OpicHits) (l : list entry) : option OpicHits :=
  match l with
  | [] => Some e
  | x :: t =>
      match update_entry e x with
      | Some e1 => apply_batch e1 t
      | None => None
      end
  end.

(** One pass of the outer loop: the state after it and its [mixed]. *)
Definition iteration (k : nat) (e : OpicHits) : option (OpicHits * list entry) :=
  let mixed := select_batch e k in
  match apply_batch e mixed with
  | Some e1 => Some (_update_virtual_page e1, mixed)
  | None => None
  end.

(** The outer loop; [mixed] is the Python local, unbound ([None]) until
    the first pass assigns it. *)
Fixpoint iterations (k n : nat) (e : OpicHits) (mixed : option (list entry))
  : option (OpicHits * option (list entry)) :=
  match n with
  | O => Some (e, mixed)
  | S n' =>
      match iteration k e with
      | Some (e1, m) => iterations k n' e1 (Some m)
      | None => None
      end
  end.

Definition hubs_of (mixed : list entry) : list page_id :=
  map entry_page (filter entry_is_hub mixed).

Definition auths_of (mixed : list entry) : list page_id :=
  map entry_page (filter (fun x => negb (entry_is_hub x)) mixed).

(** [update]: reading the unbound [mixed] after zero passes raises. *)
Definition update (e : OpicHits) (n_iter : nat)
  : option (OpicHits * (list page_id * list page_id)) :=
  match iterations (n_updates e) n_iter e None with
  | Some (e1, Some mixed) =>
      Some (set_to_update e1 [], (hubs_of mixed, auths_of mixed))
  | Some (_, None) => None
  | None => None
  end.

Definition _relative_score (e : OpicHits) (s : HitsScore) : Qc * Qc :=
  (if Qc_ltb 0 (_h_total e) then h_history s / _h_total e else 0,
   if Qc_ltb 0 (_a_total e) then a_history s / _a_total e else 0).

Definition get_scores (e : OpicHits) (p : page_id) : option (OpicHits * (Qc * Qc)) :=
  match _get_page_score e p with
  | (e1, Some s) => Some (e1, _relative_score e1 s)
  | (_, None) => None
  end.

(** [__init__] over a scores connection that is already open. *)
Definition init (scores : SQLite) (time_window : option Qc) : OpicHits :=
  let e0 := mkOpicHits scores (get_count scores) (get_h_total scores)
                       (get_a_total scores) [] false time_window 0
                       (mkHitsScore 0 1 0 0 1 0) in
  fold_left (fun e p => fst (add_page e p)) (inodes graph) e0.

End Engine.

(** [close]: the engine afterwards and, when the store was still open,
    the file it leaves behind. *)
Definition close (e : OpicHits) : OpicHits * option tables :=
  (mkOpicHits (_scores e) (_n_pages e) (_h_total e) (_a_total e) (_to_update e)
              true (_time_window e) (_time e) (_virtual_page e),
   if _closed e then None else Some (HitsDB.close (_scores e))).

(** [iscores]: the triples [(page_id, hub score, authority score)] the
    generator yields, in the order of [iteritems]. *)
Definition iscores (e : OpicHits) : list (page_id * Qc * Qc) :=
  map (fun x : page_id * HitsScore =>
         (fst x, fst (_relative_score e (snd x)), snd (_relative_score e (snd x))))
      (iteritems (_scores e)).

(** The properties [h_mean] and [a_mean]. *)
Definition h_mean (e : OpicHits) : Qc :=
  if (0 <? _n_pages e)%nat then _h_total e / of_nat (_n_pages e) else 1.

Definition a_mean (e : OpicHits) : Qc :=
  if (0 <? _n_pages e)%nat then _a_total e / of_nat (_n_pages e) else 1.

End OpicHits.


(** ** utils/misc.py *)

Module Misc.

(** [xrange(0, stop, step)] for a positive [step]: the multiples of
    [step] below [stop]. *)
Definition xrange (stop step : nat) : list nat :=
  map (fun k => k * step)%nat (seq 0 ((stop + step - 1) / step)).

(** The slice [l[i:j]], cut at the end of [l]. *)
Definition slice (A : Type) (l : list A) (i j : nat) : list A :=
  firstn (j - i) (skipn i l).

(** [chunks]: the list of what the generator yields.  [xrange] raises
    for the step 0 and is empty for a negative step. *)
Definition chunks (A : Type) (l : list A) (n : Z) : option (list (list A)) :=
  if (n =? 0)%Z then None
  else if (n <? 0)%Z then Some []
  else Some (map (fun i => slice l i (i + Z.to_nat n))
                 (xrange (List.length l) (Z.to_nat n))).

End Misc.

(** ** The reference store of the cash-delta equivalence

    The definitions of this module follow the wording of the specification
    ("a naive O(N) reference"), not the source: the rows hold the cash
    itself, and [increase_all_cash] touches every row. *)

Module NaiveHits.
Import HitsDB.

Abbreviation store := (list row) (only parsing).

Definition contains (t : store) (p : page_id) : bool :=
  match fetchone fst p t with Some _ => true | None => false end.

Definition add (t : store) (p : page_id) (s : HitsScore) : store :=
  if contains t p then t else t ++ [(p, s)].

Definition get (t : store) (p : page_id) : option HitsScore :=
  option_map snd (fetchone fst p t).

Definition set (t : store) (p : page_id) (s : HitsScore) : store :=
  update_where (fun r : row => String.eqb (fst r) p) (fun r => (fst r, s)) t.

Definition increase_h_cash (t : store) (ids : list page_id) (d : Qc) : store :=
  update_where (fun r : row => id_in (fst r) ids) (add_h_cash d) t.

Definition increase_a_cash (t : store) (ids : list page_id) (d : Qc) : store :=
  update_where (fun r : row => id_in (fst r) ids) (add_a_cash d) t.

Definition increase_all_cash (t : store) (h a : Qc) : store :=
  map (fun r => add_a_cash a (add_h_cash h r)) t.

Definition iteritems (t : store) : list (page_id * HitsScore) := t.

Definition get_highest_h_cash (t : store) (n : nat) : list (page_id * Qc) :=
  map (fun r : row => (fst r, h_cash (snd r)))
      (limit n (order_by_desc h_cash t)).

Definition get_highest_a_cash (t : store) (n : nat) : list (page_id * Qc) :=
  map (fun r : row => (fst r, a_cash (snd r)))
      (limit n (order_by_desc a_cash t)).

End NaiveHits.

(** The mutating calls of the score store, to speak of sequences of them. *)
Inductive hits_call : Type :=
| CallAdd (p : page_id) (s : HitsDB.HitsScore)
| CallSet (p : page_id) (s : HitsDB.HitsScore)
| CallIncreaseH (ids : list page_id) (d : Qc)
| CallIncreaseA (ids : list page_id) (d : Qc)
| CallIncreaseAll (h a : Qc).

Definition run_call (c : HitsDB.SQLite) (x : hits_call) : HitsDB.SQLite :=
  match x with
  | CallAdd p s => HitsDB.add c p s
  | CallSet p s => HitsDB.set c p s
  | CallIncreaseH ids d => HitsDB.increase_h_cash c ids d
  | CallIncreaseA ids d => HitsDB.increase_a_cash c ids d
  | CallIncreaseAll h a => HitsDB.increase_all_cash c h a
  end.

Definition run_naive (t : NaiveHits.store) (x : hits_call) : NaiveHits.store :=
  match x with
  | CallAdd p s => NaiveHits.add t p s
  | CallSet p s => NaiveHits.set t p s
  | CallIncreaseH ids d => NaiveHits.increase_h_cash t ids d
  | CallIncreaseA ids d => NaiveHits.increase_a_cash t ids d
  | CallIncreaseAll h a => NaiveHits.increase_all_cash t h a
  end.

(** What a stored row stands for: the columns with both deltas added. *)
Definition shown (c : HitsDB.SQLite) (s : HitsDB.HitsScore) : HitsDB.HitsScore :=
  HitsDB.mkHitsScore
    (HitsDB.h_history s) (HitsDB.h_cash s + HitsDB._h_cash_increase c) (HitsDB.h_last s)
    (HitsDB.a_history s) (HitsDB.a_cash s + HitsDB._a_cash_increase c) (HitsDB.a_last s).

(** The table a connection stands for. *)
Definition visible (c : HitsDB.SQLite) : NaiveHits.store :=
  map (fun r : HitsDB.row => (fst r, shown c (snd r))) (HitsDB.rows c).

(** ** Vocabulary of the refresh store's properties *)

(** [a] has a smaller rowid than [b] in table [c]. *)
Definition precedes (A : Type) (c : list A) (a b : A) : Prop :=
  exists l1 l2 l3, c = l1 ++ a :: l2 ++ b :: l3.

(** The order of [get_next_pages] on table [c]: by score, rows of equal
    score by rowid, the primary key of a table that declares none. *)
Definition earlier (c : list FreqDB.entry) (a b : FreqDB.entry) : Prop :=
  FreqDB.score a < FreqDB.score b
  \/ (FreqDB.score a = FreqDB.score b /\ precedes c a b).

(** [m] is [min(score over all rows) if any else 0]. *)
Definition is_min_score (c : list FreqDB.entry) (m : Qc) : Prop :=
  match c with
  | [] => m = 0
  | _ :: _ =>
      (exists e, In e c /\ FreqDB.score e = m)
      /\ (forall e, In e c -> m <= FreqDB.score e)
  end.

(** The calls of the refresh store, to speak of sequences of them. *)
Inductive freq_call : Type :=
| FreqAdd (p : page_id) (f : Qc) (fresh : bool)
| FreqSet (p : page_id) (f : Qc)
| FreqDelete (p : page_id)
| FreqNext (n : nat)
| FreqClear.

Definition run_freq_call (c : list FreqDB.entry) (x : freq_call) : list FreqDB.entry :=
  match x with
  | FreqAdd p f fresh => FreqDB.add c p f fresh
  | FreqSet p f => FreqDB.set c p f
  | FreqDelete p => FreqDB.delete c p
  | FreqNext n => fst (FreqDB.get_next_pages c n)
  | FreqClear => FreqDB.clear c
  end.

(** No call passes a negative frequency. *)
Definition no_negative_frequency (x : freq_call) : Prop :=
  match x with
  | FreqAdd _ f _ => 0 <= f
  | FreqSet _ f => 0 <= f
  | _ => True
  end.

(** ** Vocabulary of the engine's properties *)

Section EngineVocabulary.
Import HitsDB OpicHits.

(** Cash held by one record, over both channels. *)
Definition cash (s : HitsScore) : Qc := h_cash s + a_cash s.

(** Cash held by the scored pages, as [get] shows it. *)
Definition sum_cash (t : list row) : Qc :=
  sum (map (fun r : row => cash (snd r)) t).

Definition pages_cash (c : SQLite) : Qc := sum_cash (visible c).

(** The total T: the scored pages plus the virtual page. *)
Definition total_cash (e : OpicHits) : Qc :=
  pages_cash (_scores e) + cash (_virtual_page e).

(** [p] has a score row. *)
Definition scored (e : OpicHits) (p : page_id) : Prop :=
  In p (map fst (rows (_scores e))).

(** What the store and the constructor maintain: [page_id] is [UNIQUE]
    and [_n_pages] counts the rows. *)
Definition in_step (e : OpicHits) : Prop :=
  NoDup (map fst (rows (_scores e)))
  /\ _n_pages e = List.length (rows (_scores e)).

(** No record holds negative cash. *)
Definition cash_nonneg (e : OpicHits) : Prop :=
  (forall p s, get (_scores e) p = Some s -> 0 <= h_cash s /\ 0 <= a_cash s)
  /\ 0 <= h_cash (_virtual_page e)
  /\ 0 <= a_cash (_virtual_page e).

(** The relevance [r] of a page with [N] predecessors leaves a
    non-negative rest for the virtual page: [r] is in [0, 1], and it is 1
    or at most [(N+1)/(2(N-1))].  The last part always holds for
    [N <= 3]. *)
Definition share_cond (r : Qc) (N : nat) : Prop :=
  0 <= r /\ r <= 1 /\ (r = 1 \/ two * (of_nat N - 1) * r <= of_nat N + 1).

(** Every page meets that condition, with the relevance the authority
    update uses for it. *)
Definition shares_ok (graph : GraphDB) (relevance : RelevanceDB) : Prop :=
  forall p,
    share_cond (page_relevance relevance p) (List.length (predecessors graph p)).

(** Histories of [e'] are at least those of [e], page by page. *)
Definition histories_grow (e e' : OpicHits) : Prop :=
  forall p s,
    get (_scores e) p = Some s ->
    exists s',
      get (_scores e') p = Some s'
      /\ h_history s <= h_history s'
      /\ a_history s <= a_history s'.

(** What every step keeps, and what it adds to the histories. *)
Definition keeps (e e' : OpicHits) : Prop :=
  no_window e' = true /\ cash_nonneg e' /\ histories_grow e e'.

(** The public calls that change or read scores. *)
Inductive engine_call : Type :=
| CallAddPage (p : page_id)
| CallMarkUpdate (p : page_id)
| CallUpdate (n_iter : nat)
| CallGetScores (p : page_id).

Definition run_engine_call (graph : GraphDB) (relevance : RelevanceDB)
           (e : OpicHits) (x : engine_call) : option OpicHits :=
  match x with
  | CallAddPage p => Some (fst (add_page e p))
  | CallMarkUpdate p => Some (mark_update e p)
  | CallUpdate n => option_map fst (update graph relevance e n)
  | CallGetScores p => option_map fst (get_scores e p)
  end.

Fixpoint run_engine (graph : GraphDB) (relevance : RelevanceDB)
         (e : OpicHits) (calls : list engine_call) : option OpicHits :=
  match calls with
  | [] => Some e
  | x :: t =>
      match run_engine_call graph relevance e x with
      | Some e1 => run_engine graph relevance e1 t
      | None => None
      end
  end.

(** The state after [n] passes of the loop of [update] with batch
    size [k]. *)
Fixpoint state_after (graph : GraphDB) (relevance : RelevanceDB)
         (k n : nat) (e : OpicHits) : option OpicHits :=
  match n with
  | O => Some e
  | S n' =>
      match iteration graph relevance k e with
      | Some (e1, _) => state_after graph relevance k n' e1
      | None => None
      end
  end.

(** The connection went through [__init__]: both rows of
    [global_increase] exist. *)
Definition opened (c : SQLite) : Prop :=
  global_a_cash (db c) <> None /\ global_h_cash (db c) <> None.

(** Stop and restart: close the engine, reopen the file the score store
    left and build a new engine over it.  There is no file to reopen
    when the engine was closed before. *)
Definition restart (graph : GraphDB) (e : OpicHits) : option OpicHits :=
  match snd (OpicHits.close e) with
  | Some file => Some (init graph (connect file) (_time_window e))
  | None => None
  end.

(** The engine with its must-update list emptied. *)
Definition forget (e : OpicHits) : OpicHits := set_to_update e [].

(** The neighbours [l] of [p] are listed once each, have a score row, do
    not include [p] itself and are free of the quote character. *)
Definition neighbours_ok (e : OpicHits) (p : page_id) (l : list page_id) : Prop :=
  NoDup l
  /\ ~ In p l
  /\ (forall q, In q l -> scored e q)
  /\ (forall q, In q l -> quote_free q = true).

(** Every id the graph lists as a successor or a predecessor is free of
    the quote character. *)
Definition graph_quote_free (graph : GraphDB) : Prop :=
  forall p q,
    In q (successors graph p) \/ In q (predecessors graph p) ->
    quote_free q = true.

(** The cash of the row [_get_page_score] creates for [p]: none when [p]
    has a score row already. *)
Definition created_cash (e : OpicHits) (p : page_id) : Qc :=
  if contains (_scores e) p then 0 else two.

(** The sum of one column of the score table. *)
Definition column_sum (col : HitsScore -> Qc) (c : SQLite) : Qc :=
  sum (map (fun r : row => col (snd r)) (rows c)).

(** The running totals are the sums of the stored histories. *)
Definition totals_in_step (e : OpicHits) : Prop :=
  _h_total e = get_h_total (_scores e) /\ _a_total e = get_a_total (_scores e).

(** Every scored page has neighbours that [neighbours_ok] accepts, in
    both directions. *)
Definition links_closed (graph : GraphDB) (e : OpicHits) : Prop :=
  forall p,
    scored e p ->
    neighbours_ok e p (successors graph p)
    /\ neighbours_ok e p (predecessors graph p).

End EngineVocabulary.

(** ** Scenarios *)

Module Scenario.
Import HitsDB OpicHits.
Local Open Scope string_scope.

(** Eleven pages without links. *)
Definition eleven : list page_id :=
  ["p00"; "p01"; "p02"; "p03"; "p04"; "p05"; "p06"; "p07"; "p08"; "p09"; "p10"].

Definition no_links : GraphDB := mkGraphDB eleven (fun _ => []) (fun _ => []).

Definition no_relevance : page_id -> option Qc := fun _ => None.

Definition eleven_pages : OpicHits := init no_links (connect new_tables) None.

(** Five pages linking to each other, and a page [x] without links;
    every relevance is 11/12. *)
Definition clique : list page_id := ["a"; "b"; "c"; "d"; "e"].

Definition clique_links (p : page_id) : list page_id :=
  if String.eqb p "x" then []
  else filter (fun q => negb (String.eqb p q)) clique.

Definition clique_and_x : GraphDB :=
  mkGraphDB (clique ++ ["x"])%list clique_links clique_links.

Definition relevant : page_id -> option Qc := fun _ => Some (Q2Qc (11 # 12)).

Definition clique_engine : OpicHits :=
  init clique_and_x (connect new_tables) None.

(** One page linking to itself. *)
Definition self_loop : GraphDB :=
  mkGraphDB ["a"] (fun _ => ["a"]) (fun _ => ["a"]).

Definition self_loop_engine : OpicHits :=
  init self_loop (connect new_tables) None.

(** Page [a] with two links to [b], listed twice. *)
Definition double_link : GraphDB :=
  mkGraphDB ["a"; "b"]
            (fun p => if String.eqb p "a" then ["b"; "b"] else [])
            (fun p => if String.eqb p "b" then ["a"; "a"] else []).

Definition double_link_engine : OpicHits :=
  init double_link (connect new_tables) None.

(** An empty graph and an empty score table. *)
Definition nothing : GraphDB := mkGraphDB [] (fun _ => []) (fun _ => []).

Definition empty_engine : OpicHits := init nothing (connect new_tables) None.

(** Two pages, [a] linking to [b]. *)
Definition a_to_b : GraphDB :=
  mkGraphDB ["a"; "b"]
            (fun p => if String.eqb p "a" then ["b"] else [])
            (fun p => if String.eqb p "b" then ["a"] else []).

Definition a_to_b_engine : OpicHits := init a_to_b (connect new_tables) None.

(** A refresh table of three pages; [b] and [c] have the same score. *)
Definition three_rows : list FreqDB.entry :=
  [FreqDB.mkEntry "a" 1 (of_nat 3);
   FreqDB.mkEntry "b" two 1;
   FreqDB.mkEntry "c" (of_nat 4) 1].

(** Two rows of equal score, [b] inserted before [a]. *)
Definition b_then_a : list FreqDB.entry :=
  [FreqDB.mkEntry "b" 1 1; FreqDB.mkEntry "a" 1 1].

(** A refresh table of one page, whose id has a quote character. *)
Definition quoted_row : list FreqDB.entry :=
  FreqDB.add FreqDB.new "o'brien" 1 true.

(** The relevance database that holds 0.0 for every page. *)
Definition irrelevant : page_id -> option Qc := fun _ => Some 0.

End Scenario.
(** * Properties *)

(** ** Arithmetic on canonical rationals *)


Lemma this_plus (a b : Qc) : (this (a + b) == this a + this b)%Q.
Proof. exact (Qred_correct _). Qed.

Lemma this_mult (a b : Qc) : (this (a * b) == this a * this b)%Q.
Proof. exact (Qred_correct _). Qed.

Lemma this_opp (a : Qc) : (this (- a) == - this a)%Q.
Proof. exact (Qred_correct _). Qed.

Lemma this_minus (a b : Qc) : (this (a - b) == this a - this b)%Q.
Proof. unfold Qcminus. rewrite this_plus, this_opp. reflexivity. Qed.

Lemma this_inv (a : Qc) : (this (/ a) == / this a)%Q.
Proof. exact (Qred_correct _). Qed.

Lemma this_of_nat (n : nat) : (this (of_nat n) == inject_Z (Z.of_nat n))%Q.
Proof. exact (Qred_correct _). Qed.

(** Moves an order goal on [Qc] to [Q], where [lra] and [nra] apply. *)
Ltac to_Q :=
  unfold Qcle, Qclt in *;
  repeat (rewrite ?this_plus, ?this_mult, ?this_minus, ?this_opp in * );
  simpl in *.

Lemma Qc_eqb_eq (x y : Qc) : Qc_eqb x y = true <-> x = y.
Proof.
  unfold Qc_eqb. rewrite Qceq_alt.
  destruct (x ?= y); split; congruence.
Qed.

Lemma Qc_eqb_refl (x : Qc) : Qc_eqb x x = true.
Proof. now apply Qc_eqb_eq. Qed.

Lemma Qc_ltb_lt (x y : Qc) : Qc_ltb x y = true <-> x < y.
Proof.
  unfold Qc_ltb. rewrite Qclt_alt.
  destruct (x ?= y); split; congruence.
Qed.

Lemma Qc_ltb_ge (x y : Qc) : Qc_ltb x y = false <-> y <= x.
Proof.
  split; intro H.
  - apply Qcnot_lt_le. intro L. apply Qc_ltb_lt in L. congruence.
  - destruct (Qc_ltb x y) eqn:E; [|reflexivity].
    apply Qc_ltb_lt in E. exfalso. revert E. now apply Qcle_not_lt.
Qed.

Lemma Qc_ltb_irrefl (x : Qc) : Qc_ltb x x = false.
Proof. apply Qc_ltb_ge, Qcle_refl. Qed.

Lemma of_nat_S (n : nat) : of_nat (S n) = of_nat n + 1.
Proof.
  apply Qc_is_canon. rewrite this_plus, !this_of_nat.
  rewrite Nat2Z.inj_succ, <- Z.add_1_r, inject_Z_plus. reflexivity.
Qed.

Lemma of_nat_nonneg (n : nat) : 0 <= of_nat n.
Proof.
  unfold Qcle. rewrite this_of_nat. simpl.
  change 0%Q with (inject_Z 0). rewrite <- Zle_Qle. lia.
Qed.

Lemma of_nat_pos (n : nat) : (0 < n)%nat -> 0 < of_nat n.
Proof.
  intro H. unfold Qclt. rewrite this_of_nat. simpl.
  change 0%Q with (inject_Z 0). rewrite <- Zlt_Qlt. lia.
Qed.

Lemma of_nat_neq_0 (n : nat) : (0 < n)%nat -> of_nat n <> 0.
Proof.
  intros H E. apply of_nat_pos in H. rewrite E in H.
  revert H. apply Qcle_not_lt, Qcle_refl.
Qed.

Lemma of_nat_succ_neq_0 (n : nat) : of_nat n + 1 <> 0.
Proof.
  rewrite <- of_nat_S. apply of_nat_neq_0. lia.
Qed.

Lemma Qc_plus_nonneg (a b : Qc) : 0 <= a -> 0 <= b -> 0 <= a + b.
Proof. intros Ha Hb. to_Q. lra. Qed.

Lemma Qc_mult_nonneg (a b : Qc) : 0 <= a -> 0 <= b -> 0 <= a * b.
Proof. intros Ha Hb. to_Q. nra. Qed.

Lemma Qc_inv_pos (b : Qc) : 0 < b -> 0 < / b.
Proof.
  intro Hb. unfold Qclt in *. rewrite this_inv. simpl in *.
  now apply Qinv_lt_0_compat.
Qed.

Lemma Qc_div_nonneg (a b : Qc) : 0 <= a -> 0 < b -> 0 <= a / b.
Proof.
  intros Ha Hb. unfold Qcdiv. apply Qc_mult_nonneg; [assumption|].
  apply Qclt_le_weak, Qc_inv_pos, Hb.
Qed.

Lemma Qc_le_plus_nonneg (a b : Qc) : 0 <= b -> a <= a + b.
Proof. intro Hb. to_Q. lra. Qed.

Lemma half_double : half + half = 1.
Proof. apply Qc_is_canon. reflexivity. Qed.

Lemma two_is_1_plus_1 : two = 1 + 1.
Proof. apply Qc_is_canon. reflexivity. Qed.

Lemma half_is_inv_two : half = 1 / (1 + 1).
Proof. apply Qc_is_canon. reflexivity. Qed.

(** ** The share polynomial of the authority update *)

(** Side conditions left by [field] in this section. *)
Ltac share_side H :=
  repeat split;
  first [ apply of_nat_succ_neq_0
        | apply of_nat_neq_0; exact H
        | let E := fresh in intro E; apply (f_equal this) in E; discriminate E ].

Section ShareFacts.
Import OpicHits.

Lemma z_share_no_predecessor (r : Qc) : z_share r 0 = 0.
Proof. reflexivity. Qed.

Lemma z_share_at_0 (N : nat) : z_share 0 N = 0.
Proof.
  unfold z_share. destruct (0 <? N)%nat eqn:E; [|reflexivity].
  apply Nat.ltb_lt in E. rename E into H.
  rewrite two_is_1_plus_1, half_is_inv_two. field.
  share_side H.
Qed.

Lemma z_share_at_1 (N : nat) : (0 < N)%nat -> z_share 1 N = 1 / of_nat N.
Proof.
  intro H. unfold z_share. apply Nat.ltb_lt in H as E. rewrite E.
  rewrite two_is_1_plus_1, half_is_inv_two. field.
  share_side H.
Qed.

Lemma z_share_at_half (N : nat) :
  (0 < N)%nat -> z_share half N = 1 / (of_nat N + 1).
Proof.
  intro H. unfold z_share. apply Nat.ltb_lt in H as E. rewrite E.
  rewrite two_is_1_plus_1, half_is_inv_two. field.
  share_side H.
Qed.

(** The expression of line 232 alone,
    [z = 2r/N * (2N/(N+1) * (1-r) + (r-0.5))], as a function of the [r]
    it is given: for [N > 0] it goes through [z(0) = 0], [z(1) = 1/N] and
    [z(0.5) = 1/(N+1)], and for [N = 0] it is 0 at every [r].  Which [r]
    the authority update gives it is another matter, see
    [page_relevance]. *)
Theorem z_share_anchor_points (N : nat) (r : Qc) :
  ((0 < N)%nat ->
   z_share 0 N = 0
   /\ z_share 1 N = 1 / of_nat N
   /\ z_share half N = 1 / (of_nat N + 1))
  /\ z_share r 0 = 0.
Proof.
  split; [|reflexivity].
  intro H. split; [|split].
  - apply z_share_at_0.
  - now apply z_share_at_1.
  - now apply z_share_at_half.
Qed.

(** What is left for the virtual page, in factored form. *)
Lemma z_share_rest (r : Qc) (N : nat) :
  (0 < N)%nat ->
  1 - z_share r N * of_nat N
  = (1 - r) * (1 - two * (of_nat N - 1) / (of_nat N + 1) * r).
Proof.
  intro H. unfold z_share. apply Nat.ltb_lt in H as E. rewrite E.
  rewrite two_is_1_plus_1, half_is_inv_two. field.
  share_side H.
Qed.

(** [x or 0.5] reads the relevance [0.0] as "no information". *)
Lemma page_relevance_zero (relevance : RelevanceDB) (p : page_id) :
  relevance p = Some 0 -> page_relevance relevance p = half.
Proof. intro H. unfold page_relevance. rewrite H. reflexivity. Qed.

(** The relevance 0.0 never reaches the first anchor point: line 221
    reads it as 0.5, and with [N > 0] predecessors the share computed
    for the page is [1/(N+1)], as for a page of unknown relevance. *)
Theorem relevance_zero_share (relevance : RelevanceDB) (p : page_id) (N : nat) :
  relevance p = Some 0 ->
  (0 < N)%nat ->
  page_relevance relevance p = half
  /\ z_share (page_relevance relevance p) N = 1 / (of_nat N + 1).
Proof.
  intros H HN. rewrite (page_relevance_zero _ _ H).
  split; [reflexivity | now apply z_share_at_half].
Qed.

Lemma page_relevance_unknown (relevance : RelevanceDB) (p : page_id) :
  relevance p = None -> page_relevance relevance p = half.
Proof. intro H. unfold page_relevance. rewrite H. reflexivity. Qed.

Lemma page_relevance_nonzero (relevance : RelevanceDB) (p : page_id) (r : Qc) :
  relevance p = Some r -> r <> 0 -> page_relevance relevance p = r.
Proof.
  intros H Hr. unfold page_relevance, or_default, truthy. rewrite H.
  destruct (Qc_eqb r 0) eqn:E; [|reflexivity].
  apply Qc_eqb_eq in E. contradiction.
Qed.

Lemma one_le_of_nat (N : nat) : (0 < N)%nat -> 1 <= of_nat N.
Proof.
  intro H. destruct N as [|n]; [lia|].
  rewrite of_nat_S. pose proof (of_nat_nonneg n). to_Q. lra.
Qed.

Lemma zero_le_one : 0 <= 1.
Proof. unfold Qcle. simpl. lra. Qed.

Lemma zero_le_half : 0 <= half.
Proof. unfold Qcle. simpl. lra. Qed.

Lemma zero_le_two : 0 <= two.
Proof. unfold Qcle. simpl. lra. Qed.

(** Under [share_cond] the share is non-negative and the [N] shares
    together do not exceed the cash being distributed. *)
Lemma share_cond_sound (r : Qc) (N : nat) :
  share_cond r N -> 0 <= z_share r N /\ z_share r N * of_nat N <= 1.
Proof.
  intros [Hr0 [Hr1 Hc]]. destruct N as [|n].
  - simpl. split; [apply Qcle_refl|].
    replace (0 * of_nat 0) with 0 by ring. apply zero_le_one.
  - set (N := S n) in *. assert (HN : (0 < N)%nat) by (unfold N; lia).
    pose proof (one_le_of_nat HN) as Hq.
    assert (Hq0 : 0 < of_nat N) by now apply of_nat_pos.
    assert (Hq1 : 0 < of_nat N + 1) by (rewrite <- of_nat_S; apply of_nat_pos; lia).
    assert (H1r : 0 <= 1 - r) by (to_Q; lra).
    split.
    + replace (z_share r N)
        with (two * r / of_nat N
              * (half + (of_nat N - 1) / (of_nat N + 1) * (1 - r))).
      * apply Qc_mult_nonneg.
        -- apply Qc_div_nonneg; [|assumption].
           apply Qc_mult_nonneg; [apply zero_le_two | assumption].
        -- apply Qc_plus_nonneg; [apply zero_le_half|].
           apply Qc_mult_nonneg; [|assumption].
           apply Qc_div_nonneg; [|assumption]. to_Q. lra.
      * unfold z_share. apply Nat.ltb_lt in HN as E. rewrite E.
        rewrite two_is_1_plus_1, half_is_inv_two. field. share_side HN.
    + assert (Hrest : 0 <= 1 - z_share r N * of_nat N).
      { rewrite z_share_rest by assumption.
        destruct Hc as [->|Hc].
        - replace (1 - 1) with 0 by ring.
          match goal with |- 0 <= 0 * ?x => replace (0 * x) with 0 by ring end.
          apply Qcle_refl.
        - apply Qc_mult_nonneg; [assumption|].
          replace (1 - two * (of_nat N - 1) / (of_nat N + 1) * r)
            with ((of_nat N + 1 - two * (of_nat N - 1) * r) / (of_nat N + 1))
            by (field; apply of_nat_succ_neq_0).
          apply Qc_div_nonneg; [|assumption]. to_Q. lra. }
      to_Q. lra.
Qed.

(** With at most three predecessors every relevance in [0, 1] will do. *)
Lemma share_cond_few_predecessors (r : Qc) (N : nat) :
  (N <= 3)%nat -> 0 <= r -> r <= 1 -> share_cond r N.
Proof.
  intros HN Hr0 Hr1. split; [assumption|]. split; [assumption|]. right.
  assert (Hq : of_nat N <= of_nat 3).
  { unfold Qcle. rewrite !this_of_nat. rewrite <- Zle_Qle. lia. }
  pose proof (of_nat_nonneg N) as Hq0.
  assert (E3 : of_nat 3 = 1 + 1 + 1) by (apply Qc_is_canon; reflexivity).
  rewrite E3 in Hq. rewrite two_is_1_plus_1.
  to_Q. nra.
Qed.

(** An unknown relevance, read as 0.5, meets the condition at every
    number of predecessors. *)
Lemma share_cond_half (N : nat) : share_cond half N.
Proof.
  split; [apply zero_le_half|]. split; [unfold Qcle; simpl; lra|]. right.
  replace (two * (of_nat N - 1) * half) with (of_nat N - 1)
    by (rewrite two_is_1_plus_1, half_is_inv_two; field; share_side I).
  to_Q. lra.
Qed.

End ShareFacts.

(** ** SQL helpers *)

Section SqlFacts.
Variables A B : Type.

Lemma fetchone_map (key : A -> page_id) (key' : B -> page_id) (f : A -> B)
      (p : page_id) (l : list A) :
  (forall x, key' (f x) = key x) ->
  fetchone key' p (map f l) = option_map f (fetchone key p l).
Proof.
  intro Hk. induction l as [|x t IH]; simpl; [reflexivity|].
  rewrite Hk. destruct (String.eqb (key x) p); [reflexivity | exact IH].
Qed.

Lemma insert_sorted_map (before : A -> A -> bool) (before' : B -> B -> bool)
      (f : A -> B) (x : A) (l : list A) :
  (forall a b, before' (f a) (f b) = before a b) ->
  insert_sorted before' (f x) (map f l) = map f (insert_sorted before x l).
Proof.
  intro Hb. induction l as [|y t IH]; simpl; [reflexivity|].
  rewrite Hb. destruct (before y x); simpl; [now rewrite IH | reflexivity].
Qed.

Lemma order_by_map (before : A -> A -> bool) (before' : B -> B -> bool)
      (f : A -> B) (l : list A) :
  (forall a b, before' (f a) (f b) = before a b) ->
  order_by before' (map f l) = map f (order_by before l).
Proof.
  intro Hb. induction l as [|x t IH]; simpl; [reflexivity|].
  rewrite IH. now apply insert_sorted_map.
Qed.

Lemma limit_map (f : A -> B) (n : nat) (l : list A) :
  limit n (map f l) = map f (limit n l).
Proof. unfold limit. apply firstn_map. Qed.

Lemma fetchone_app (key : A -> page_id) (p : page_id) (l1 l2 : list A) :
  fetchone key p (l1 ++ l2)
  = match fetchone key p l1 with
    | Some x => Some x
    | None => fetchone key p l2
    end.
Proof.
  induction l1 as [|x t IH]; simpl; [reflexivity|].
  destruct (String.eqb (key x) p); [reflexivity | exact IH].
Qed.

Lemma fetchone_some (key : A -> page_id) (p : page_id) (l : list A) (x : A) :
  fetchone key p l = Some x -> In x l /\ key x = p.
Proof.
  induction l as [|y t IH]; simpl; [discriminate|].
  destruct (String.eqb (key y) p) eqn:E.
  - intro H. injection H as <-. apply String.eqb_eq in E. auto.
  - intro H. destruct (IH H). auto.
Qed.

Lemma fetchone_none (key : A -> page_id) (p : page_id) (l : list A) :
  fetchone key p l = None <-> ~ In p (map key l).
Proof.
  induction l as [|y t IH]; simpl; [tauto|].
  destruct (String.eqb (key y) p) eqn:E.
  - apply String.eqb_eq in E. split; [discriminate | tauto].
  - apply String.eqb_neq in E. rewrite IH. tauto.
Qed.

End SqlFacts.

Lemma id_in_In (p : page_id) (ids : list page_id) :
  id_in p ids = true <-> In p ids.
Proof.
  unfold id_in. rewrite existsb_exists. split.
  - intros [x [Hx E]]. apply String.eqb_eq in E. now subst.
  - intro H. exists p. split; [assumption | apply String.eqb_refl].
Qed.

(** ** The score store against its reference *)

Section HitsRefinement.
Import HitsDB.

Lemma shown_stored (c : SQLite) (s : HitsScore) : shown c (stored c s) = s.
Proof.
  destruct s. unfold shown, stored. simpl. f_equal; ring.
Qed.

Lemma visible_with_rows (c : SQLite) (l : list row) :
  visible (with_rows c l) = map (fun r : row => (fst r, shown c (snd r))) l.
Proof. reflexivity. Qed.

Lemma contains_visible (c : SQLite) (p : page_id) :
  contains c p = NaiveHits.contains (visible c) p.
Proof.
  unfold contains, NaiveHits.contains, visible. 
  rewrite fetchone_map with (key := fst) by reflexivity.
  destruct (fetchone fst p (rows c)); reflexivity.
Qed.

Lemma get_visible (c : SQLite) (p : page_id) :
  get c p = NaiveHits.get (visible c) p.
Proof.
  unfold get, NaiveHits.get, visible.
  rewrite fetchone_map with (key := fst) by reflexivity.
  destruct (fetchone fst p (rows c)) as [[q s]|]; reflexivity.
Qed.

Lemma visible_add (c : SQLite) (p : page_id) (s : HitsScore) :
  visible (add c p s) = NaiveHits.add (visible c) p s.
Proof.
  unfold add, NaiveHits.add. rewrite <- contains_visible.
  destruct (contains c p); [reflexivity|].
  rewrite visible_with_rows, map_app. simpl.
  now rewrite shown_stored.
Qed.

Lemma visible_set (c : SQLite) (p : page_id) (s : HitsScore) :
  visible (set c p s) = NaiveHits.set (visible c) p s.
Proof.
  unfold set, NaiveHits.set. rewrite visible_with_rows.
  unfold visible, update_where. rewrite !map_map. apply map_ext.
  intros [q t]. simpl. destruct (String.eqb q p); simpl; [|reflexivity].
  now rewrite shown_stored.
Qed.

Lemma visible_increase_h_cash (c : SQLite) (ids : list page_id) (d : Qc) :
  visible (increase_h_cash c ids d) = NaiveHits.increase_h_cash (visible c) ids d.
Proof.
  unfold increase_h_cash, NaiveHits.increase_h_cash. rewrite visible_with_rows.
  unfold visible, update_where. rewrite !map_map. apply map_ext.
  intros [q t]. simpl. destruct (id_in q ids); [|reflexivity].
  unfold add_h_cash, more_h_cash, shown. simpl. f_equal. f_equal. ring.
Qed.

Lemma visible_increase_a_cash (c : SQLite) (ids : list page_id) (d : Qc) :
  visible (increase_a_cash c ids d) = NaiveHits.increase_a_cash (visible c) ids d.
Proof.
  unfold increase_a_cash, NaiveHits.increase_a_cash. rewrite visible_with_rows.
  unfold visible, update_where. rewrite !map_map. apply map_ext.
  intros [q t]. simpl. destruct (id_in q ids); [|reflexivity].
  unfold add_a_cash, more_a_cash, shown. simpl. f_equal. f_equal. ring.
Qed.

Lemma visible_increase_all_cash (c : SQLite) (h a : Qc) :
  visible (increase_all_cash c h a) = NaiveHits.increase_all_cash (visible c) h a.
Proof.
  unfold increase_all_cash, NaiveHits.increase_all_cash, visible.
  unfold rows. simpl. rewrite map_map. apply map_ext.
  intros [q t]. unfold add_a_cash, add_h_cash, more_a_cash, more_h_cash, shown. simpl.
  f_equal. f_equal; ring.
Qed.

Lemma visible_run_call (c : SQLite) (x : hits_call) :
  visible (run_call c x) = run_naive (visible c) x.
Proof.
  destruct x; simpl.
  - apply visible_add.
  - apply visible_set.
  - apply visible_increase_h_cash.
  - apply visible_increase_a_cash.
  - apply visible_increase_all_cash.
Qed.

Lemma visible_calls (calls : list hits_call) (c : SQLite) :
  visible (fold_left run_call calls c) = fold_left run_naive calls (visible c).
Proof.
  revert c. induction calls as [|x t IH]; intro c; simpl; [reflexivity|].
  now rewrite IH, visible_run_call.
Qed.

Lemma by_desc_shown (c : SQLite) (col : HitsScore -> Qc) (d : Qc) :
  (forall s, col (shown c s) = col s + d) ->
  forall a b : row,
    by_desc col (fst a, shown c (snd a)) (fst b, shown c (snd b)) = by_desc col a b.
Proof.
  intros Hcol a b. unfold by_desc. simpl. rewrite !Hcol.
  destruct (Qc_ltb (col (snd b)) (col (snd a))) eqn:E.
  - apply Qc_ltb_lt. apply Qc_ltb_lt in E. to_Q. lra.
  - apply Qc_ltb_ge. apply Qc_ltb_ge in E. to_Q. lra.
Qed.

Lemma get_highest_h_cash_visible (c : SQLite) (n : nat) :
  get_highest_h_cash c n = NaiveHits.get_highest_h_cash (visible c) n.
Proof.
  unfold get_highest_h_cash, NaiveHits.get_highest_h_cash, visible, order_by_desc.
  rewrite <- map_rev.
  rewrite order_by_map with (before := by_desc h_cash)
    by (apply by_desc_shown with (d := _h_cash_increase c); reflexivity).
  rewrite limit_map, map_map. reflexivity.
Qed.

Lemma get_highest_a_cash_visible (c : SQLite) (n : nat) :
  get_highest_a_cash c n = NaiveHits.get_highest_a_cash (visible c) n.
Proof.
  unfold get_highest_a_cash, NaiveHits.get_highest_a_cash, visible, order_by_desc.
  rewrite <- map_rev.
  rewrite order_by_map with (before := by_desc a_cash)
    by (apply by_desc_shown with (d := _a_cash_increase c); reflexivity).
  rewrite limit_map, map_map. reflexivity.
Qed.

(** After any sequence of mutating calls, [get] and both top-n reads
    return what the reference returns. *)
Theorem delta_reads_agree_with_reference
        (calls : list hits_call) (c : SQLite) (p : page_id) (n : nat) :
  let c' := fold_left run_call calls c in
  let t' := fold_left run_naive calls (visible c) in
  get c' p = NaiveHits.get t' p
  /\ get_highest_h_cash c' n = NaiveHits.get_highest_h_cash t' n
  /\ get_highest_a_cash c' n = NaiveHits.get_highest_a_cash t' n.
Proof.
  simpl. rewrite <- visible_calls. repeat split.
  - apply get_visible.
  - apply get_highest_h_cash_visible.
  - apply get_highest_a_cash_visible.
Qed.

End HitsRefinement.

Section IterItems.
Import HitsDB.

(** [iteritems] against the reference: the hub column agrees, the
    authority column is off by the difference of the two deltas. *)
Lemma iteritems_visible (c : SQLite) :
  iteritems c
  = map (fun r : row => add_a_cash (_h_cash_increase c - _a_cash_increase c) r)
        (NaiveHits.iteritems (visible c)).
Proof.
  unfold iteritems, NaiveHits.iteritems, visible. rewrite map_map.
  apply map_ext. intros [q s]. unfold add_a_cash, more_a_cash, shown. simpl.
  f_equal. f_equal. ring.
Qed.

(** C2, at the failing input: one page added with cash (1, 1), then
    [increase_all_cash(1.0, 2.0)].  [get] and the reference show
    [a_cash = 3]; [iteritems] shows [a_cash = 2], the hub delta having
    been added in the authority column. *)
Theorem iteritems_mixes_channels :
  let c := increase_all_cash
             (add (connect new_tables) "a" (mkHitsScore 0 1 0 0 1 0)) 1 two in
  (exists s, get c "a" = Some s /\ h_cash s = two /\ a_cash s = 1 + two)
  /\ (exists s, NaiveHits.iteritems (visible c) = [("a"%string, s)]
                /\ h_cash s = two /\ a_cash s = 1 + two)
  /\ (exists s, iteritems c = [("a"%string, s)]
                /\ h_cash s = two /\ a_cash s = two).
Proof.
  cbv zeta. repeat split.
  - eexists. split; [reflexivity|]. split; apply Qc_is_canon; reflexivity.
  - eexists. split; [reflexivity|]. split; apply Qc_is_canon; reflexivity.
  - eexists. split; [reflexivity|]. split; apply Qc_is_canon; reflexivity.
Qed.

End IterItems.

(** ** Sorting *)

Section SortFacts.
Variable A : Type.
Variable before : A -> A -> bool.

Lemma insert_sorted_perm (x : A) (l : list A) :
  Permutation (insert_sorted before x l) (x :: l).
Proof.
  induction l as [|y t IH]; simpl; [apply Permutation_refl|].
  destruct (before y x); [|apply Permutation_refl].
  apply perm_trans with (y :: x :: t); [now apply perm_skip | apply perm_swap].
Qed.

Lemma order_by_perm (l : list A) : Permutation (order_by before l) l.
Proof.
  induction l as [|x t IH]; simpl; [apply perm_nil|].
  apply perm_trans with (x :: order_by before t).
  - apply insert_sorted_perm.
  - now apply perm_skip.
Qed.

Lemma order_by_length (l : list A) : List.length (order_by before l) = List.length l.
Proof. apply Permutation_length, order_by_perm. Qed.

Lemma StronglySorted_weaken (R R' : A -> A -> Prop) (l : list A) :
  (forall a b, In a l -> In b l -> R a b -> R' a b) ->
  StronglySorted R l -> StronglySorted R' l.
Proof.
  intros HR H. induction H as [|a l Hl IH Ha]; constructor.
  - apply IH. intros x y Hx Hy. apply HR; now right.
  - rewrite Forall_forall in *. intros b Hb.
    apply HR; [now left | now right | now apply Ha].
Qed.

(** Inserting [x] keeps a list sorted for [R] when [R] agrees with
    [before] on the elements [x] passes and puts [x] ahead of the rest. *)
Lemma insert_sorted_sorted (R : A -> A -> Prop) (x : A) (l : list A) :
  (forall y, In y l -> before y x = true -> R y x) ->
  (forall y z, In y l -> In z l -> before y x = false ->
               (z = y \/ R y z) -> R x z) ->
  StronglySorted R l ->
  StronglySorted R (insert_sorted before x l).
Proof.
  intros Hpass Hstop H. induction H as [|y t Ht IH Hy]; simpl.
  - constructor; constructor.
  - destruct (before y x) eqn:E.
    + constructor.
      * apply IH.
        -- intros y' Hy'. apply Hpass. now right.
        -- intros y' z Hy' Hz. apply Hstop; now right.
      * rewrite Forall_forall in *. intros z Hz.
        apply (Permutation_in _ (insert_sorted_perm x t)) in Hz.
        destruct Hz as [<-|Hz].
        -- apply Hpass; [now left | assumption].
        -- now apply Hy.
    + constructor; [now constructor|].
      rewrite Forall_forall in *. intros z [<-|Hz].
      * apply (Hstop y); [now left | now left | assumption | now left].
      * apply (Hstop y); [now left | now right | assumption |].
        right. now apply Hy.
Qed.

Lemma StronglySorted_app_cross (R : A -> A -> Prop) (l1 l2 : list A) :
  StronglySorted R (l1 ++ l2) ->
  forall a b, In a l1 -> In b l2 -> R a b.
Proof.
  induction l1 as [|x t IH]; simpl; intros H a b Ha Hb; [contradiction|].
  inversion H as [|? ? Ht Hx]; subst.
  destruct Ha as [<-|Ha].
  - rewrite Forall_forall in Hx. apply Hx, in_or_app. now right.
  - now apply IH.
Qed.

End SortFacts.

Lemma precedes_cons (A : Type) (x : A) (c : list A) (a b : A) :
  precedes c a b -> precedes (x :: c) a b.
Proof.
  intros [l1 [l2 [l3 E]]]. exists (x :: l1), l2, l3. now rewrite E.
Qed.

Lemma precedes_head (A : Type) (x : A) (c : list A) (b : A) :
  In b c -> precedes (x :: c) x b.
Proof.
  intro H. apply in_split in H as [l2 [l3 E]].
  exists [], l2, l3. now rewrite E.
Qed.

Lemma NoDup_map_inj (A B : Type) (f : A -> B) (l : list A) (a b : A) :
  NoDup (map f l) -> In a l -> In b l -> f a = f b -> a = b.
Proof.
  induction l as [|x t IH]; simpl; intros Hn Ha Hb E; [contradiction|].
  inversion Hn as [|? ? Hx Ht]; subst.
  destruct Ha as [<-|Ha], Hb as [<-|Hb].
  - reflexivity.
  - exfalso. apply Hx. rewrite E. now apply in_map.
  - exfalso. apply Hx. rewrite <- E. now apply in_map.
  - now apply IH.
Qed.

(** ** The refresh store *)

Section FreqFacts.
Import FreqDB.

Lemma earlier_cons (x : entry) (c : list entry) (a b : entry) :
  earlier c a b -> earlier (x :: c) a b.
Proof.
  intros [H|[H1 H2]]; [now left | right].
  split; [assumption | now apply precedes_cons].
Qed.

Lemma earlier_le (c : list entry) (a b : entry) :
  earlier c a b -> score a <= score b.
Proof.
  intros [H|[H _]]; [now apply Qclt_le_weak | rewrite H; apply Qcle_refl].
Qed.

(** [ORDER BY score ASC] lists the rows by score, equal scores by rowid. *)
Lemma order_by_score_sorted (c : list entry) :
  StronglySorted (earlier c) (order_by by_score c).
Proof.
  induction c as [|x t IH]; simpl; [constructor|].
  apply insert_sorted_sorted.
  - intros y _ H. left. now apply Qc_ltb_lt.
  - intros y z Hy Hz H Hyz.
    assert (Hxy : score x <= score y) by now apply Qc_ltb_ge.
    assert (Hxz : score x <= score z).
    { destruct Hyz as [->|Hyz]; [assumption|].
      apply Qcle_trans with (score y); [assumption | now apply earlier_le in Hyz]. }
    apply (Permutation_in _ (order_by_perm by_score t)) in Hz.
    apply Qcle_lt_or_eq in Hxz as [L|E]; [now left | right].
    split; [assumption | now apply precedes_head].
  - eapply StronglySorted_weaken; [|exact IH].
    intros a b _ _. apply earlier_cons.
Qed.

Lemma order_by_score_nonempty (c : list entry) :
  c <> [] ->
  exists e rest,
    order_by by_score c = e :: rest
    /\ In e c
    /\ (forall e', In e' c -> score e <= score e').
Proof.
  intro Hc.
  pose proof (order_by_perm by_score c) as P.
  pose proof (order_by_score_sorted c) as S.
  destruct (order_by by_score c) as [|e rest] eqn:E.
  - apply Permutation_nil in P. contradiction.
  - exists e, rest. split; [reflexivity|]. split.
    + apply (Permutation_in _ P). now left.
    + intros e' He'. apply Permutation_sym in P.
      apply (Permutation_in _ P) in He'. destruct He' as [<-|He'].
      * apply Qcle_refl.
      * inversion S as [|? ? _ F]; subst. rewrite Forall_forall in F.
        eapply earlier_le. now apply F.
Qed.

(** [_get_min_score] is the least score of the table, [0.0] when the
    table is empty. *)
Lemma _get_min_score_is_min (c : list entry) : is_min_score c (_get_min_score c).
Proof.
  destruct c as [|x t]; [reflexivity|].
  destruct (@order_by_score_nonempty (x :: t)) as [e [rest [E [Hin Hmin]]]];
    [discriminate|].
  unfold is_min_score, _get_min_score. rewrite E. simpl. split.
  - exists e. split; [exact Hin | reflexivity].
  - exact Hmin.
Qed.

Lemma contains_false (c : list entry) (p : page_id) :
  contains c p = false <-> ~ In p (map page c).
Proof.
  unfold contains. rewrite <- fetchone_none.
  destruct (fetchone page p c); split; congruence.
Qed.

(** C5.  [add(p, f)] with [f = 0] leaves the table as it is.  With
    [f > 0] and [p] absent it appends the row [(p, f, score)], where
    [score] is the least score of the table (0 for an empty table) plus
    [1/f] for a fresh page, and that least score alone otherwise. *)
Theorem add_admission (c : list entry) (p : page_id) (f : Qc) (fresh : bool) :
  exists score0,
    is_min_score c score0
    /\ (f = 0 -> add c p f fresh = c)
    /\ (0 < f -> ~ In p (map page c) ->
        add c p f fresh
        = c ++ [mkEntry p f (if fresh then score0 + 1 / f else score0)]).
Proof.
  exists (_get_min_score c). split; [apply _get_min_score_is_min|]. split.
  - intros ->. reflexivity.
  - intros Hf Hp. unfold add.
    apply Qc_ltb_lt in Hf. rewrite Hf.
    apply contains_false in Hp. rewrite Hp.
    destruct fresh; reflexivity.
Qed.

(** C10.  [set(p, f)] with [f > 0] for an absent page takes neither the
    delete branch nor the score-adjusting [UPDATE]: it appends [p] as a
    fresh row, scored with the least score of the table (0 for an empty
    table) plus [1/f]. *)
Theorem set_absent_page_adds_fresh (c : list entry) (p : page_id) (f : Qc) :
  0 < f ->
  ~ In p (map page c) ->
  exists score0,
    is_min_score c score0
    /\ set c p f = add c p f true
    /\ set c p f = c ++ [mkEntry p f (score0 + 1 / f)].
Proof.
  intros Hf Hp. exists (_get_min_score c).
  split; [apply _get_min_score_is_min|].
  assert (E : set c p f = add c p f true).
  { unfold set.
    destruct (Qc_eqb f 0) eqn:E0.
    - apply Qc_eqb_eq in E0. subst f. exfalso. revert Hf.
      apply Qcle_not_lt, Qcle_refl.
    - apply contains_false in Hp. now rewrite Hp. }
  split; [exact E|]. rewrite E.
  unfold add. apply Qc_ltb_lt in Hf. rewrite Hf.
  apply contains_false in Hp. now rewrite Hp.
Qed.

Lemma Forall2_map_right (P : entry -> entry -> Prop) (g : entry -> entry)
      (l : list entry) :
  (forall e, In e l -> P e (g e)) -> Forall2 P l (map g l).
Proof.
  induction l as [|x t IH]; simpl; intro H; constructor.
  - apply H. now left.
  - apply IH. intros e He. apply H. now right.
Qed.

(** On a table whose page ids are free of the quote character,
    [get_next_pages(n)] picks the first [n] rows (all of them when there
    are fewer) of the table listed by score, rows of equal score by
    rowid, the table's primary key: every picked row is earlier in that
    order than every row left out.  It returns their page ids in that
    order, adds [1/frequency] to the score of each picked row and leaves
    the other rows as they are. *)
Theorem get_next_pages_selection (c : list entry) (n : nat) :
  NoDup (map page c) ->
  (forall e, In e c -> quote_free (page e) = true) ->
  exists sel rest,
    Permutation (sel ++ rest) c
    /\ List.length sel = Nat.min n (List.length c)
    /\ StronglySorted (earlier c) (sel ++ rest)
    /\ snd (get_next_pages c n) = map page sel
    /\ Forall2 (fun e e' =>
                  (In e sel ->
                   e' = mkEntry (page e) (frequency e) (score e + 1 / frequency e))
                  /\ (~ In e sel -> e' = e))
               c (fst (get_next_pages c n)).
Proof.
  intros Hn _.
  exists (firstn n (order_by by_score c)), (skipn n (order_by by_score c)).
  rewrite firstn_skipn.
  split; [apply order_by_perm|].
  split; [now rewrite length_firstn, order_by_length|].
  split; [apply order_by_score_sorted|].
  split; [reflexivity|].
  unfold get_next_pages, next_rows, limit, update_where. simpl.
  apply Forall2_map_right. intros e He.
  destruct (id_in (page e) (map page (firstn n (order_by by_score c)))) eqn:E.
  - apply id_in_In in E. apply in_map_iff in E as [e0 [Hp H0]].
    assert (H0c : In e0 c).
    { apply (Permutation_in _ (order_by_perm by_score c)).
      rewrite <- (firstn_skipn n). apply in_or_app. now left. }
    assert (e0 = e) by (eapply NoDup_map_inj; eauto). subst e0.
    split; [reflexivity | intro H; contradiction].
  - assert (Hnot : ~ In e (firstn n (order_by by_score c))).
    { intro H. apply (in_map page) in H. apply id_in_In in H. congruence. }
    split; [intro H; contradiction | reflexivity].
Qed.

(** The [UNIQUE] constraint on [page_id] holds of every table the
    operations build. *)
Lemma add_unique (c : list entry) (p : page_id) (f : Qc) (fresh : bool) :
  NoDup (map page c) -> NoDup (map page (add c p f fresh)).
Proof.
  intro H. unfold add. destruct (Qc_ltb 0 f); [|assumption].
  destruct (contains c p) eqn:E; [assumption|].
  apply contains_false in E. rewrite map_app. simpl.
  apply NoDup_app; [assumption | repeat constructor; now simpl |].
  intros x Hx [<-|[]]. contradiction.
Qed.

Lemma update_where_pages (sel : entry -> bool) (g : entry -> entry)
      (c : list entry) :
  (forall e, page (g e) = page e) ->
  map page (update_where sel g c) = map page c.
Proof.
  intro Hg. unfold update_where. rewrite map_map. apply map_ext.
  intro e. destruct (sel e); [apply Hg | reflexivity].
Qed.

Lemma delete_unique (c : list entry) (p : page_id) :
  NoDup (map page c) -> NoDup (map page (delete c p)).
Proof.
  unfold delete, delete_where. induction c as [|x t IH]; simpl; intro H.
  - constructor.
  - inversion H as [|? ? Hx Ht]; subst.
    destruct (negb (String.eqb (page x) p)); simpl; [|now apply IH].
    constructor; [|now apply IH].
    intro Hin. apply Hx. apply in_map_iff in Hin as [e [E He]].
    apply filter_In in He as [He _]. rewrite <- E. now apply in_map.
Qed.

Lemma set_unique (c : list entry) (p : page_id) (f : Qc) :
  NoDup (map page c) -> NoDup (map page (set c p f)).
Proof.
  intro H. unfold set. destruct (Qc_eqb f 0); [now apply delete_unique|].
  destruct (contains c p); [|now apply add_unique].
  now rewrite update_where_pages.
Qed.

Lemma get_next_pages_unique (c : list entry) (n : nat) :
  NoDup (map page c) -> NoDup (map page (fst (get_next_pages c n))).
Proof.
  intro H. unfold get_next_pages. simpl. now rewrite update_where_pages.
Qed.

End FreqFacts.

(** ** Reading the score store after a write *)

Section StoreReads.
Import HitsDB.

Lemma keys_visible (c : SQLite) : map fst (visible c) = map fst (rows c).
Proof. unfold visible. rewrite map_map. reflexivity. Qed.

Lemma naive_get_update_where (sel : page_id -> bool) (f : HitsScore -> HitsScore)
      (t : list row) (q : page_id) :
  NaiveHits.get
    (update_where (fun r : row => sel (fst r)) (fun r => (fst r, f (snd r))) t) q
  = option_map (fun s => if sel q then f s else s) (NaiveHits.get t q).
Proof.
  unfold NaiveHits.get, update_where.
  induction t as [|[k s] t IH]; simpl; [reflexivity|].
  destruct (sel k) eqn:E; simpl; destruct (String.eqb k q) eqn:Ek;
    try exact IH; apply String.eqb_eq in Ek; subst k; simpl; now rewrite E.
Qed.

Lemma get_set (c : SQLite) (p : page_id) (s : HitsScore) (q : page_id) :
  get (set c p s) q
  = option_map (fun s0 => if String.eqb q p then s else s0) (get c q).
Proof.
  rewrite !get_visible, visible_set. unfold NaiveHits.set.
  apply (naive_get_update_where (fun k => String.eqb k p) (fun _ => s)).
Qed.

Lemma get_increase_h_cash (c : SQLite) (ids : list page_id) (d : Qc) (q : page_id) :
  get (increase_h_cash c ids d) q
  = option_map (fun s => if id_in q ids then more_h_cash d s else s) (get c q).
Proof.
  rewrite !get_visible, visible_increase_h_cash.
  apply (naive_get_update_where (fun k => id_in k ids) (more_h_cash d)).
Qed.

Lemma get_increase_a_cash (c : SQLite) (ids : list page_id) (d : Qc) (q : page_id) :
  get (increase_a_cash c ids d) q
  = option_map (fun s => if id_in q ids then more_a_cash d s else s) (get c q).
Proof.
  rewrite !get_visible, visible_increase_a_cash.
  apply (naive_get_update_where (fun k => id_in k ids) (more_a_cash d)).
Qed.

Lemma get_increase_all_cash (c : SQLite) (h a : Qc) (q : page_id) :
  get (increase_all_cash c h a) q
  = option_map (fun s => more_a_cash a (more_h_cash h s)) (get c q).
Proof.
  rewrite !get_visible, visible_increase_all_cash.
  unfold NaiveHits.get, NaiveHits.increase_all_cash.
  rewrite fetchone_map with (key := fst) by reflexivity.
  destruct (fetchone fst q (visible c)) as [[k s]|]; reflexivity.
Qed.

Lemma contains_get (c : SQLite) (p : page_id) :
  contains c p = true -> exists s, get c p = Some s.
Proof.
  unfold contains, get. destruct (fetchone fst p (rows c)) as [[k s]|];
    [eexists; reflexivity | discriminate].
Qed.

Lemma get_contains (c : SQLite) (p : page_id) (s : HitsScore) :
  get c p = Some s -> contains c p = true.
Proof.
  unfold contains, get. destruct (fetchone fst p (rows c)) as [[k s0]|];
    [reflexivity | discriminate].
Qed.

Lemma contains_In (c : SQLite) (p : page_id) :
  contains c p = true <-> In p (map fst (rows c)).
Proof.
  unfold contains.
  pose proof (fetchone_none fst p (rows c)) as H.
  destruct (fetchone fst p (rows c)).
  - split; [|reflexivity]. intros _.
    destruct (in_dec string_dec p (map fst (rows c))) as [Hin|Hout];
      [assumption|]. apply H in Hout. discriminate.
  - split; [discriminate|]. intro Hin. exfalso. now apply H.
Qed.

Lemma get_add (c : SQLite) (p : page_id) (s : HitsScore) (q : page_id) :
  get (add c p s) q
  = if contains c p then get c q
    else if String.eqb q p then Some s else get c q.
Proof.
  rewrite !get_visible, visible_add, contains_visible.
  unfold NaiveHits.add, NaiveHits.get, NaiveHits.contains.
  destruct (fetchone fst p (visible c)) as [r|] eqn:E; [reflexivity|].
  rewrite fetchone_app. simpl.
  destruct (String.eqb q p) eqn:Eq.
  - apply String.eqb_eq in Eq. subst q. rewrite E, String.eqb_refl. reflexivity.
  - rewrite String.eqb_sym, Eq.
    destruct (fetchone fst q (visible c)); reflexivity.
Qed.

Lemma rows_add (c : SQLite) (p : page_id) (s : HitsScore) :
  map fst (rows (add c p s))
  = if contains c p then map fst (rows c) else map fst (rows c) ++ [p].
Proof.
  unfold add. destruct (contains c p); [reflexivity|].
  unfold rows, with_rows. simpl. now rewrite map_app.
Qed.

Lemma rows_set (c : SQLite) (p : page_id) (s : HitsScore) :
  map fst (rows (set c p s)) = map fst (rows c).
Proof.
  unfold set, rows, with_rows, update_where. simpl.
  rewrite map_map. apply map_ext. intros [k t]. simpl.
  destruct (String.eqb k p); reflexivity.
Qed.

Lemma rows_increase_h_cash (c : SQLite) (ids : list page_id) (d : Qc) :
  map fst (rows (increase_h_cash c ids d)) = map fst (rows c).
Proof.
  unfold increase_h_cash, rows, with_rows, update_where. simpl.
  rewrite map_map. apply map_ext. intros [k t]. simpl.
  destruct (id_in k ids); reflexivity.
Qed.

Lemma rows_increase_a_cash (c : SQLite) (ids : list page_id) (d : Qc) :
  map fst (rows (increase_a_cash c ids d)) = map fst (rows c).
Proof.
  unfold increase_a_cash, rows, with_rows, update_where. simpl.
  rewrite map_map. apply map_ext. intros [k t]. simpl.
  destruct (id_in k ids); reflexivity.
Qed.

Lemma rows_increase_all_cash (c : SQLite) (h a : Qc) :
  rows (increase_all_cash c h a) = rows c.
Proof. reflexivity. Qed.

End StoreReads.

(** ** Sums of cash over the table *)

Section CashSums.
Import HitsDB.

Lemma sum_cash_app (t1 t2 : list row) :
  sum_cash (t1 ++ t2) = sum_cash t1 + sum_cash t2.
Proof.
  unfold sum_cash. induction t1 as [|r t IH]; simpl; [ring|].
  rewrite IH. ring.
Qed.

Lemma sum_cash_increase_a (t : list row) (ids : list page_id) (d : Qc) :
  sum_cash (NaiveHits.increase_a_cash t ids d)
  = sum_cash t
    + d * of_nat (List.length (filter (fun r : row => id_in (fst r) ids) t)).
Proof.
  unfold sum_cash, NaiveHits.increase_a_cash, update_where.
  induction t as [|[k s] t IH]; simpl.
  - change (of_nat 0) with 0. ring.
  - rewrite IH. destruct (id_in k ids); simpl.
    + rewrite of_nat_S. unfold cash. simpl. ring.
    + ring.
Qed.

Lemma sum_cash_increase_h (t : list row) (ids : list page_id) (d : Qc) :
  sum_cash (NaiveHits.increase_h_cash t ids d)
  = sum_cash t
    + d * of_nat (List.length (filter (fun r : row => id_in (fst r) ids) t)).
Proof.
  unfold sum_cash, NaiveHits.increase_h_cash, update_where.
  induction t as [|[k s] t IH]; simpl.
  - change (of_nat 0) with 0. ring.
  - rewrite IH. destruct (id_in k ids); simpl.
    + rewrite of_nat_S. unfold cash. simpl. ring.
    + ring.
Qed.

Lemma sum_cash_increase_all (t : list row) (h a : Qc) :
  sum_cash (NaiveHits.increase_all_cash t h a)
  = sum_cash t + (h + a) * of_nat (List.length t).
Proof.
  unfold sum_cash, NaiveHits.increase_all_cash.
  induction t as [|[k s] t IH]; simpl.
  - change (of_nat 0) with 0. ring.
  - rewrite IH, of_nat_S. unfold cash. simpl. ring.
Qed.

Lemma NoDup_map_filter (sel : row -> bool) (t : list row) :
  NoDup (map fst t) -> NoDup (map fst (filter sel t)).
Proof.
  induction t as [|r t IH]; simpl; intro H; [constructor|].
  inversion H as [|? ? Hr Ht]; subst.
  destruct (sel r); simpl; [|now apply IH].
  constructor; [|now apply IH].
  intro Hin. apply Hr. apply in_map_iff in Hin as [r' [E Hr']].
  apply filter_In in Hr' as [Hr' _]. rewrite <- E. now apply in_map.
Qed.

(** Each listed page that has a row is updated once, and only such
    pages are. *)
Lemma updated_rows_count (t : list row) (ids : list page_id) :
  NoDup (map fst t) ->
  NoDup ids ->
  (forall q, In q ids -> In q (map fst t)) ->
  List.length (filter (fun r : row => id_in (fst r) ids) t) = List.length ids.
Proof.
  intros Ht Hids Hsub.
  rewrite <- (length_map fst).
  apply Permutation_length, NoDup_Permutation.
  - now apply NoDup_map_filter.
  - assumption.
  - intro q. split.
    + intro H. apply in_map_iff in H as [r [E Hr]].
      apply filter_In in Hr as [_ Hr]. apply id_in_In in Hr. now subst q.
    + intro H. pose proof (Hsub q H) as Hq.
      apply in_map_iff in Hq as [r [E Hr]].
      apply in_map_iff. exists r. split; [assumption|].
      apply filter_In. split; [assumption|]. apply id_in_In. now rewrite E.
Qed.

Lemma naive_set_absent (t : list row) (p : page_id) (s : HitsScore) :
  ~ In p (map fst t) -> NaiveHits.set t p s = t.
Proof.
  unfold NaiveHits.set, update_where.
  induction t as [|[k s0] t IH]; simpl; intro H; [reflexivity|].
  destruct (String.eqb k p) eqn:E.
  - apply String.eqb_eq in E. exfalso. apply H. now left.
  - f_equal. apply IH. intro Hin. apply H. now right.
Qed.

Lemma sum_cash_set (t : list row) (p : page_id) (s old : HitsScore) :
  NoDup (map fst t) ->
  NaiveHits.get t p = Some old ->
  sum_cash (NaiveHits.set t p s) = sum_cash t - cash old + cash s.
Proof.
  unfold NaiveHits.get.
  induction t as [|[k s0] t IH]; simpl; intros Hn Hg; [discriminate|].
  inversion Hn as [|? ? Hk Ht]; subst.
  destruct (String.eqb k p) eqn:E.
  - apply String.eqb_eq in E. subst k. simpl in Hg. injection Hg as ->.
    fold (NaiveHits.set t p s). rewrite naive_set_absent by assumption.
    unfold sum_cash. simpl. ring.
  - fold (NaiveHits.set t p s). unfold sum_cash in *. simpl.
    unfold sum_cash in IH. rewrite (IH Ht Hg). ring.
Qed.

End CashSums.

(** ** Single steps of the engine *)

Section EngineSteps.
Import HitsDB OpicHits.
Variable graph : GraphDB.
Variable relevance : page_id -> option Qc.

Lemma add_page_scored (e : OpicHits) (p : page_id) :
  contains (_scores e) p = true -> add_page e p = (e, None).
Proof. intro H. unfold add_page. now rewrite H. Qed.

Lemma _get_page_score_scored (e : OpicHits) (p : page_id) (s : HitsScore) :
  get (_scores e) p = Some s -> _get_page_score e p = (e, Some s).
Proof.
  intro H. unfold _get_page_score.
  rewrite add_page_scored by (eapply get_contains; eassumption).
  now rewrite H.
Qed.

Lemma _get_page_score_new (e : OpicHits) (p : page_id) :
  contains (_scores e) p = false ->
  _get_page_score e p = (fst (add_page e p), Some (new_score e)).
Proof.
  intro H. unfold _get_page_score, add_page. rewrite H. reflexivity.
Qed.

(** A score is always found: the page is created when it is missing. *)
Lemma _get_page_score_total (e : OpicHits) (p : page_id) :
  exists e1 s,
    _get_page_score e p = (e1, Some s)
    /\ get (_scores e1) p = Some s
    /\ (e1 = e \/ (contains (_scores e) p = false /\ e1 = fst (add_page e p))).
Proof.
  destruct (contains (_scores e) p) eqn:E.
  - destruct (contains_get _ _ E) as [s Hs].
    exists e, s. rewrite (_get_page_score_scored _ _ Hs). auto.
  - exists (fst (add_page e p)), (new_score e).
    rewrite (_get_page_score_new _ _ E). split; [reflexivity|]. split; [|auto].
    unfold add_page. rewrite E. simpl.
    rewrite get_add, E, String.eqb_refl. reflexivity.
Qed.

Lemma scored_get (e : OpicHits) (p : page_id) :
  scored e p -> exists s, get (_scores e) p = Some s.
Proof. intro H. apply contains_get, contains_In, H. Qed.

Lemma pages_cash_set (c : SQLite) (p : page_id) (s old : HitsScore) :
  NoDup (map fst (rows c)) ->
  get c p = Some old ->
  pages_cash (set c p s) = pages_cash c - cash old + cash s.
Proof.
  intros Hn Hg. unfold pages_cash. rewrite visible_set.
  apply sum_cash_set.
  - now rewrite keys_visible.
  - now rewrite <- get_visible.
Qed.

Lemma pages_cash_increase_a_cash (c : SQLite) (ids : list page_id) (d : Qc) :
  NoDup (map fst (rows c)) ->
  NoDup ids ->
  (forall q, In q ids -> In q (map fst (rows c))) ->
  pages_cash (increase_a_cash c ids d)
  = pages_cash c + d * of_nat (List.length ids).
Proof.
  intros Hn Hids Hsub. unfold pages_cash.
  rewrite visible_increase_a_cash, sum_cash_increase_a, updated_rows_count;
    rewrite ?keys_visible; auto.
Qed.

Lemma pages_cash_increase_h_cash (c : SQLite) (ids : list page_id) (d : Qc) :
  NoDup (map fst (rows c)) ->
  NoDup ids ->
  (forall q, In q ids -> In q (map fst (rows c))) ->
  pages_cash (increase_h_cash c ids d)
  = pages_cash c + d * of_nat (List.length ids).
Proof.
  intros Hn Hids Hsub. unfold pages_cash.
  rewrite visible_increase_h_cash, sum_cash_increase_h, updated_rows_count;
    rewrite ?keys_visible; auto.
Qed.

Lemma pages_cash_increase_all_cash (c : SQLite) (h a : Qc) :
  pages_cash (increase_all_cash c h a)
  = pages_cash c + (h + a) * of_nat (List.length (rows c)).
Proof.
  unfold pages_cash.
  rewrite visible_increase_all_cash, sum_cash_increase_all.
  unfold visible. now rewrite length_map.
Qed.

Lemma id_in_false (p : page_id) (ids : list page_id) :
  ~ In p ids -> id_in p ids = false.
Proof.
  intro H. destruct (id_in p ids) eqn:E; [|reflexivity].
  apply id_in_In in E. contradiction.
Qed.

(** Hub update of a scored page without a link to itself. *)
Lemma hub_update_conserves (e : OpicHits) (p : page_id) :
  NoDup (map fst (rows (_scores e))) ->
  scored e p ->
  NoDup (successors graph p) ->
  ~ In p (successors graph p) ->
  (forall q, In q (successors graph p) -> scored e q) ->
  exists e',
    _update_page_h graph e p = Some e' /\ total_cash e' = total_cash e.
Proof.
  intros Hn Hp Hs Hself Hsub.
  destruct (scored_get _ _ Hp) as [score Hg].
  unfold _update_page_h. rewrite (_get_page_score_scored _ _ Hg).
  eexists. split; [reflexivity|].
  unfold total_cash. simpl.
  rewrite pages_cash_set with (old := score).
  - rewrite pages_cash_increase_a_cash by assumption.
    unfold _updated_page_h, cash. simpl. field.
    apply of_nat_succ_neq_0.
  - now rewrite rows_increase_a_cash.
  - rewrite get_increase_a_cash, Hg. simpl.
    now rewrite id_in_false.
Qed.

(** Authority update of a scored page without a link from itself. *)
Lemma authority_update_conserves (e : OpicHits) (p : page_id) :
  NoDup (map fst (rows (_scores e))) ->
  scored e p ->
  NoDup (predecessors graph p) ->
  ~ In p (predecessors graph p) ->
  (forall q, In q (predecessors graph p) -> scored e q) ->
  exists e',
    _update_page_a graph relevance e p = Some e' /\ total_cash e' = total_cash e.
Proof.
  intros Hn Hp Hs Hself Hsub.
  destruct (scored_get _ _ Hp) as [score Hg].
  unfold _update_page_a. rewrite (_get_page_score_scored _ _ Hg).
  eexists. split; [reflexivity|].
  unfold total_cash. simpl.
  rewrite pages_cash_set with (old := score).
  - rewrite pages_cash_increase_h_cash by assumption.
    unfold _updated_page_a, cash. simpl. ring.
  - now rewrite rows_increase_h_cash.
  - rewrite get_increase_h_cash, Hg. simpl.
    now rewrite id_in_false.
Qed.

(** The virtual-page step, when [_n_pages] counts the rows. *)
Lemma virtual_page_step_conserves (e : OpicHits) :
  _n_pages e = List.length (rows (_scores e)) ->
  total_cash (_update_virtual_page e) = total_cash e.
Proof.
  intro Hc. unfold _update_virtual_page.
  destruct (0 <? _n_pages e)%nat eqn:E; [|reflexivity].
  apply Nat.ltb_lt in E.
  unfold total_cash. simpl.
  rewrite pages_cash_increase_all_cash, <- Hc.
  unfold _updated_page_h, _updated_page_a, cash. simpl. field.
  now apply of_nat_neq_0.
Qed.

(** The authority update of [p] adds to the hub cash of a predecessor
    [q] the authority cash of [p] times the share [z_share r N], [r]
    being the relevance read on line 221 and [N] the number of
    predecessors. *)
Lemma authority_update_pays_share (e : OpicHits) (p q : page_id)
      (score s : HitsScore) :
  get (_scores e) p = Some score ->
  get (_scores e) q = Some s ->
  In q (predecessors graph p) ->
  q <> p ->
  exists e' s',
    _update_page_a graph relevance e p = Some e'
    /\ get (_scores e') q = Some s'
    /\ h_cash s'
       = h_cash s
         + a_cash score
           * z_share (page_relevance relevance p)
                     (List.length (predecessors graph p)).
Proof.
  intros Hp Hq Hin Hne.
  unfold _update_page_a. rewrite (_get_page_score_scored _ _ Hp).
  eexists. eexists. split; [reflexivity|]. simpl.
  rewrite get_set, get_increase_h_cash, Hq. simpl.
  apply String.eqb_neq in Hne. rewrite Hne.
  apply id_in_In in Hin. rewrite Hin. split; reflexivity.
Qed.

Lemma total_cash_add_page (e : OpicHits) (p : page_id) :
  total_cash (fst (add_page e p)) = total_cash e + created_cash e p.
Proof.
  unfold add_page, created_cash.
  destruct (contains (_scores e) p) eqn:E; simpl; [ring|].
  unfold total_cash, pages_cash. simpl.
  rewrite visible_add. unfold NaiveHits.add.
  rewrite <- contains_visible, E, sum_cash_app.
  unfold sum_cash, cash. simpl. rewrite two_is_1_plus_1. ring.
Qed.

Lemma _update_page_h_after_add (e : OpicHits) (p : page_id) :
  _update_page_h graph e p = _update_page_h graph (fst (add_page e p)) p.
Proof.
  destruct (contains (_scores e) p) eqn:E.
  - now rewrite add_page_scored.
  - unfold _update_page_h. rewrite (_get_page_score_new _ _ E).
    rewrite (@_get_page_score_scored (fst (add_page e p)) p (new_score e));
      [reflexivity|].
    unfold add_page. rewrite E. simpl.
    now rewrite get_add, E, String.eqb_refl.
Qed.

Lemma _update_page_a_after_add (e : OpicHits) (p : page_id) :
  _update_page_a graph relevance e p
  = _update_page_a graph relevance (fst (add_page e p)) p.
Proof.
  destruct (contains (_scores e) p) eqn:E.
  - now rewrite add_page_scored.
  - unfold _update_page_a. rewrite (_get_page_score_new _ _ E).
    rewrite (@_get_page_score_scored (fst (add_page e p)) p (new_score e));
      [reflexivity|].
    unfold add_page. rewrite E. simpl.
    now rewrite get_add, E, String.eqb_refl.
Qed.

End EngineSteps.

(** ** Non-negative cash and growing histories *)

Section EngineInvariants.
Import HitsDB OpicHits.
Variable graph : GraphDB.
Variable relevance : page_id -> option Qc.
Hypothesis Hshares : shares_ok graph relevance.

Lemma histories_grow_refl (e : OpicHits) : histories_grow e e.
Proof.
  intros p s H. exists s. repeat split; [assumption | apply Qcle_refl ..].
Qed.

Lemma histories_grow_trans (e1 e2 e3 : OpicHits) :
  histories_grow e1 e2 -> histories_grow e2 e3 -> histories_grow e1 e3.
Proof.
  intros H12 H23 p s H.
  destruct (H12 p s H) as [s2 [H2 [Hh2 Ha2]]].
  destruct (H23 p s2 H2) as [s3 [H3 [Hh3 Ha3]]].
  exists s3. repeat split; [assumption | eapply Qcle_trans; eassumption ..].
Qed.

Lemma keeps_refl (e : OpicHits) :
  no_window e = true -> cash_nonneg e -> keeps e e.
Proof.
  intros H1 H2.
  split; [exact H1 | split; [exact H2 | apply histories_grow_refl]].
Qed.

Lemma keeps_trans (e1 e2 e3 : OpicHits) :
  keeps e1 e2 -> keeps e2 e3 -> keeps e1 e3.
Proof.
  intros [_ [_ H12]] [Hw [Hc H23]].
  split; [assumption | split; [assumption|]].
  eapply histories_grow_trans; eassumption.
Qed.

Lemma add_page_keeps (e : OpicHits) (p : page_id) :
  no_window e = true -> cash_nonneg e -> keeps e (fst (add_page e p)).
Proof.
  intros Hw Hc. unfold add_page.
  destruct (contains (_scores e) p) eqn:E; simpl; [now apply keeps_refl|].
  assert (Hnone : get (_scores e) p = None).
  { destruct (get (_scores e) p) eqn:G; [|reflexivity].
    apply get_contains in G. congruence. }
  split; [exact Hw|]. split.
  - destruct Hc as [Hrows [Hvh Hva]]. split; [|split; assumption].
    simpl. intros q s. rewrite get_add, E.
    destruct (String.eqb q p).
    + intro H. injection H as <-. simpl. split; apply zero_le_one.
    + apply Hrows.
  - intros q s H. simpl. rewrite get_add, E.
    destruct (String.eqb q p) eqn:Eq.
    + apply String.eqb_eq in Eq. subst q. congruence.
    + exists s. repeat split; [assumption | apply Qcle_refl ..].
Qed.

Lemma _get_page_score_keeps (e : OpicHits) (p : page_id) :
  no_window e = true ->
  cash_nonneg e ->
  exists e1 s,
    _get_page_score e p = (e1, Some s)
    /\ get (_scores e1) p = Some s
    /\ keeps e e1.
Proof.
  intros Hw Hc.
  destruct (_get_page_score_total e p) as [e1 [s [E [G Hcase]]]].
  exists e1, s. split; [exact E|]. split; [exact G|].
  destruct Hcase as [->|[_ ->]]; [now apply keeps_refl | now apply add_page_keeps].
Qed.

Lemma hub_update_keeps (e : OpicHits) (p : page_id) :
  no_window e = true ->
  cash_nonneg e ->
  exists e', _update_page_h graph e p = Some e' /\ keeps e e'.
Proof.
  intros Hw Hc.
  destruct (_get_page_score_keeps p Hw Hc) as [e1 [score [E [G K1]]]].
  unfold _update_page_h. rewrite E.
  eexists. split; [reflexivity|].
  apply keeps_trans with e1; [exact K1|].
  destruct K1 as [Hw1 [[Hrows [Hvh Hva]] _]].
  destruct (Hrows p score G) as [Hsh Hsa].
  assert (Hd : 0 <= h_cash score / (of_nat (List.length (successors graph p)) + 1)).
  { apply Qc_div_nonneg; [assumption|]. rewrite <- of_nat_S. apply of_nat_pos. lia. }
  split; [exact Hw1|]. split.
  - split; [|split; simpl; [assumption | now apply Qc_plus_nonneg]].
    simpl. intros q s. rewrite get_set, get_increase_a_cash.
    destruct (get (_scores e1) q) as [s0|] eqn:G0; simpl; [|discriminate].
    intro H. injection H as <-. destruct (Hrows q s0 G0) as [H0h H0a].
    destruct (String.eqb q p).
    + unfold _updated_page_h. simpl. split; [apply Qcle_refl | assumption].
    + destruct (id_in q (successors graph p)); simpl; [|now split].
      split; [assumption | now apply Qc_plus_nonneg].
  - intros q s H. simpl. rewrite get_set, get_increase_a_cash, H. simpl.
    eexists. split; [reflexivity|].
    destruct (String.eqb q p) eqn:Eq.
    + apply String.eqb_eq in Eq. subst q.
      assert (s = score) by congruence. subst s.
      unfold _updated_page_h. rewrite Hw1. simpl.
      split; [now apply Qc_le_plus_nonneg | apply Qcle_refl].
    + destruct (id_in q (successors graph p)); simpl; split; apply Qcle_refl.
Qed.

Lemma rest_nonneg (a z n : Qc) : 0 <= a -> z * n <= 1 -> 0 <= a * (1 - z * n).
Proof.
  intros Ha Hz. apply Qc_mult_nonneg; [assumption|]. to_Q. lra.
Qed.

Lemma authority_update_keeps (e : OpicHits) (p : page_id) :
  no_window e = true ->
  cash_nonneg e ->
  exists e', _update_page_a graph relevance e p = Some e' /\ keeps e e'.
Proof.
  intros Hw Hc.
  destruct (_get_page_score_keeps p Hw Hc) as [e1 [score [E [G K1]]]].
  unfold _update_page_a. rewrite E.
  eexists. split; [reflexivity|].
  apply keeps_trans with e1; [exact K1|].
  destruct K1 as [Hw1 [[Hrows [Hvh Hva]] _]].
  destruct (Hrows p score G) as [Hsh Hsa].
  destruct (share_cond_sound (Hshares p)) as [Hz HzN].
  set (z := z_share (page_relevance relevance p)
                    (List.length (predecessors graph p))) in *.
  assert (Hd : 0 <= a_cash score * z) by now apply Qc_mult_nonneg.
  split; [exact Hw1|]. split.
  - split; [|split; simpl; [|assumption]].
    + simpl. intros q s. rewrite get_set, get_increase_h_cash.
      destruct (get (_scores e1) q) as [s0|] eqn:G0; simpl; [|discriminate].
      intro H. injection H as <-. destruct (Hrows q s0 G0) as [H0h H0a].
      destruct (String.eqb q p).
      * unfold _updated_page_a. simpl. split; [assumption | apply Qcle_refl].
      * destruct (id_in q (predecessors graph p)); simpl; [|now split].
        split; [now apply Qc_plus_nonneg | assumption].
    + apply Qc_plus_nonneg; [assumption | now apply rest_nonneg].
  - intros q s H. simpl. rewrite get_set, get_increase_h_cash, H. simpl.
    eexists. split; [reflexivity|].
    destruct (String.eqb q p) eqn:Eq.
    + apply String.eqb_eq in Eq. subst q.
      assert (s = score) by congruence. subst s.
      unfold _updated_page_a. rewrite Hw1. simpl.
      split; [apply Qcle_refl | now apply Qc_le_plus_nonneg].
    + destruct (id_in q (predecessors graph p)); simpl; split; apply Qcle_refl.
Qed.

Lemma virtual_page_step_keeps (e : OpicHits) :
  no_window e = true -> cash_nonneg e -> keeps e (_update_virtual_page e).
Proof.
  intros Hw Hc. unfold _update_virtual_page.
  destruct (0 <? _n_pages e)%nat eqn:E; [|now apply keeps_refl].
  apply Nat.ltb_lt, of_nat_pos in E.
  destruct Hc as [Hrows [Hvh Hva]].
  split; [exact Hw|]. split.
  - split; [|split; simpl; apply Qcle_refl].
    simpl. intros q s. rewrite get_increase_all_cash.
    destruct (get (_scores e) q) as [s0|] eqn:G0; simpl; [|discriminate].
    intro H. injection H as <-. destruct (Hrows q s0 G0) as [H0h H0a].
    simpl. split; apply Qc_plus_nonneg; try assumption;
      now apply Qc_div_nonneg.
  - intros q s H. simpl. rewrite get_increase_all_cash, H. simpl.
    eexists. split; [reflexivity|]. simpl. split; apply Qcle_refl.
Qed.

Lemma update_entry_keeps (e : OpicHits) (x : Qc * page_id * bool) :
  no_window e = true ->
  cash_nonneg e ->
  exists e', update_entry graph relevance e x = Some e' /\ keeps e e'.
Proof.
  intros Hw Hc. unfold update_entry. destruct (entry_is_hub x).
  - now apply hub_update_keeps.
  - now apply authority_update_keeps.
Qed.

Lemma apply_batch_keeps (l : list (Qc * page_id * bool)) (e : OpicHits) :
  no_window e = true ->
  cash_nonneg e ->
  exists e', apply_batch graph relevance e l = Some e' /\ keeps e e'.
Proof.
  revert e. induction l as [|x t IH]; intros e Hw Hc; simpl.
  - exists e. split; [reflexivity | now apply keeps_refl].
  - destruct (update_entry_keeps x Hw Hc) as [e1 [E K1]]. rewrite E.
    destruct (IH e1) as [e2 [E2 K2]]; try apply K1.
    exists e2. split; [assumption | eapply keeps_trans; eassumption].
Qed.

Lemma iteration_keeps (k : nat) (e : OpicHits) :
  no_window e = true ->
  cash_nonneg e ->
  exists e' m, iteration graph relevance k e = Some (e', m) /\ keeps e e'.
Proof.
  intros Hw Hc. unfold iteration.
  destruct (apply_batch_keeps (select_batch e k) Hw Hc) as [e1 [E K1]].
  rewrite E. eexists. eexists. split; [reflexivity|].
  eapply keeps_trans; [exact K1|].
  apply virtual_page_step_keeps; apply K1.
Qed.

Lemma iterations_keeps (k n : nat) (e : OpicHits)
      (m : option (list (Qc * page_id * bool))) :
  no_window e = true ->
  cash_nonneg e ->
  exists e' m', iterations graph relevance k n e m = Some (e', m') /\ keeps e e'.
Proof.
  revert e m. induction n as [|n IH]; intros e m Hw Hc; simpl.
  - exists e, m. split; [reflexivity | now apply keeps_refl].
  - destruct (iteration_keeps k Hw Hc) as [e1 [m1 [E K1]]]. rewrite E.
    destruct (IH e1 (Some m1)) as [e2 [m2 [E2 K2]]]; try apply K1.
    exists e2, m2. split; [assumption | eapply keeps_trans; eassumption].
Qed.

Lemma update_keeps (e : OpicHits) (n : nat) (e' : OpicHits)
      (r : list page_id * list page_id) :
  no_window e = true ->
  cash_nonneg e ->
  update graph relevance e n = Some (e', r) ->
  keeps e e'.
Proof.
  intros Hw Hc. unfold update.
  destruct (iterations_keeps (n_updates e) n None Hw Hc) as [e1 [m1 [E K1]]].
  rewrite E. destruct m1 as [mixed|]; [|discriminate].
  intro H. injection H as <- _. exact K1.
Qed.

Lemma run_engine_call_keeps (e : OpicHits) (x : engine_call) (e' : OpicHits) :
  no_window e = true ->
  cash_nonneg e ->
  run_engine_call graph relevance e x = Some e' ->
  keeps e e'.
Proof.
  intros Hw Hc. destruct x as [p|p|n|p]; simpl.
  - intro H. injection H as <-. now apply add_page_keeps.
  - intro H. injection H as <-. exact (keeps_refl Hw Hc).
  - destruct (update graph relevance e n) as [[e1 r]|] eqn:E; [|discriminate].
    intro H. injection H as <-. eapply update_keeps; eassumption.
  - unfold get_scores.
    destruct (_get_page_score_keeps p Hw Hc) as [e1 [s [E [_ K1]]]].
    rewrite E. intro H. injection H as <-. exact K1.
Qed.

Lemma run_engine_keeps (calls : list engine_call) (e e' : OpicHits) :
  no_window e = true ->
  cash_nonneg e ->
  run_engine graph relevance e calls = Some e' ->
  keeps e e'.
Proof.
  revert e. induction calls as [|x t IH]; intros e Hw Hc; simpl.
  - intro H. injection H as <-. now apply keeps_refl.
  - destruct (run_engine_call graph relevance e x) as [e1|] eqn:E; [|discriminate].
    intro H. pose proof (run_engine_call_keeps _ Hw Hc E) as K1.
    eapply keeps_trans; [exact K1|]. apply IH; [apply K1 .. | assumption].
Qed.

End EngineInvariants.

(** ** The loop of [update] *)

Section UpdateLoop.
Import HitsDB OpicHits.
Variable graph : GraphDB.
Variable relevance : page_id -> option Qc.

Lemma _update_page_h_total (e : OpicHits) (p : page_id) :
  exists e', _update_page_h graph e p = Some e'.
Proof.
  destruct (_get_page_score_total e p) as [e1 [s [E _]]].
  unfold _update_page_h. rewrite E. eexists. reflexivity.
Qed.

Lemma _update_page_a_total (e : OpicHits) (p : page_id) :
  exists e', _update_page_a graph relevance e p = Some e'.
Proof.
  destruct (_get_page_score_total e p) as [e1 [s [E _]]].
  unfold _update_page_a. rewrite E. eexists. reflexivity.
Qed.

Lemma apply_batch_total (l : list (Qc * page_id * bool)) (e : OpicHits) :
  exists e', apply_batch graph relevance e l = Some e'.
Proof.
  revert e. induction l as [|x t IH]; intro e; simpl; [now exists e|].
  unfold update_entry. destruct (entry_is_hub x).
  - destruct (_update_page_h_total e (entry_page x)) as [e1 ->]. apply IH.
  - destruct (_update_page_a_total e (entry_page x)) as [e1 ->]. apply IH.
Qed.

(** One pass never fails, and its batch is the one selected in the
    state it starts from. *)
Lemma iteration_total (k : nat) (e : OpicHits) :
  exists e', iteration graph relevance k e = Some (e', select_batch e k).
Proof.
  unfold iteration.
  destruct (apply_batch_total (select_batch e k) e) as [e1 ->].
  eexists. reflexivity.
Qed.

Lemma state_after_total (k n : nat) (e : OpicHits) :
  exists e', state_after graph relevance k n e = Some e'.
Proof.
  revert e. induction n as [|n IH]; intro e; simpl; [now exists e|].
  destruct (iteration_total k e) as [e1 ->]. apply IH.
Qed.

(** The loop keeps only the batch of its last pass. *)
Lemma iterations_last (k n : nat) (e : OpicHits)
      (m : option (list (Qc * page_id * bool))) :
  iterations graph relevance k (S n) e m
  = match state_after graph relevance k n e with
    | Some e_n =>
        match iteration graph relevance k e_n with
        | Some (e', b) => Some (e', Some b)
        | None => None
        end
    | None => None
    end.
Proof.
  revert e m. induction n as [|n IH]; intros e m.
  - simpl. destruct (iteration graph relevance k e) as [[e1 b]|]; reflexivity.
  - change (iterations graph relevance k (S (S n)) e m)
      with (match iteration graph relevance k e with
            | Some (e1, b) => iterations graph relevance k (S n) e1 (Some b)
            | None => None
            end).
    simpl state_after.
    destruct (iteration graph relevance k e) as [[e1 b]|]; [|reflexivity].
    apply IH.
Qed.

Lemma hubs_of_subset (m : list (Qc * page_id * bool)) (p : page_id) :
  In p (hubs_of m) -> In p (map entry_page m).
Proof.
  unfold hubs_of. intro H. apply in_map_iff in H as [x [E Hx]].
  apply filter_In in Hx as [Hx _]. apply in_map_iff. now exists x.
Qed.

Lemma auths_of_subset (m : list (Qc * page_id * bool)) (p : page_id) :
  In p (auths_of m) -> In p (map entry_page m).
Proof.
  unfold auths_of. intro H. apply in_map_iff in H as [x [E Hx]].
  apply filter_In in Hx as [Hx _]. apply in_map_iff. now exists x.
Qed.


(** [update] leaves the must-update list empty. *)
Lemma update_clears_to_update (e : OpicHits) (n : nat) (e' : OpicHits)
      (r : list page_id * list page_id) :
  update graph relevance e n = Some (e', r) -> _to_update e' = [].
Proof.
  unfold update.
  destruct (iterations graph relevance (n_updates e) n e None) as [[e1 [m|]]|];
    try discriminate.
  intro H. injection H as <- _. reflexivity.
Qed.

(** [update(0)] raises: [mixed] was never assigned. *)
Lemma update_zero_raises (e : OpicHits) : update graph relevance e 0 = None.
Proof. reflexivity. Qed.

(** [update(n)] returns for every [n >= 1]. *)
Lemma update_total (e : OpicHits) (n : nat) :
  exists e' r, update graph relevance e (S n) = Some (e', r).
Proof.
  destruct (state_after_total (n_updates e) n e) as [e_last E].
  destruct (iteration_total (n_updates e) e_last) as [e1 E1].
  unfold update. rewrite iterations_last, E, E1. eexists. eexists. reflexivity.
Qed.

(** Over a graph whose successor and predecessor ids are free of the
    quote character, [update(n_iter)] returns for every [n_iter >= 1],
    whatever the store holds, and leaves the must-update list empty;
    [update(0)] raises. *)
Theorem update_returns_from_one_pass (e : OpicHits) (n : nat) :
  graph_quote_free graph ->
  (exists e' r,
      update graph relevance e (S n) = Some (e', r) /\ _to_update e' = [])
  /\ update graph relevance e 0 = None.
Proof.
  intros _. split; [|reflexivity].
  destruct (update_total e n) as [e' [r E]].
  exists e', r. split; [exact E|]. eapply update_clears_to_update. exact E.
Qed.

End UpdateLoop.

(** ** The table and the page counter stay in step *)

Section InStep.
Import HitsDB OpicHits.
Variable graph : GraphDB.
Variable relevance : page_id -> option Qc.

Lemma add_page_in_step (e : OpicHits) (p : page_id) :
  in_step e -> in_step (fst (add_page e p)).
Proof.
  intros [Hn Hc]. unfold add_page.
  destruct (contains (_scores e) p) eqn:E; simpl; [now split|].
  unfold in_step. simpl. unfold add. rewrite E.
  unfold rows, with_rows. simpl. fold (rows (_scores e)).
  rewrite map_app, length_app. simpl. split.
  - apply NoDup_app; [assumption | repeat constructor; now simpl |].
    intros x Hx [<-|[]].
    apply contains_In in Hx. congruence.
  - rewrite Hc. lia.
Qed.

Lemma in_step_scores (e e' : OpicHits) :
  map fst (rows (_scores e')) = map fst (rows (_scores e)) ->
  _n_pages e' = _n_pages e ->
  in_step e -> in_step e'.
Proof.
  intros Hr Hp [Hn Hc]. unfold in_step. rewrite Hr, Hp. split; [assumption|].
  rewrite Hc, <- !(length_map fst). now rewrite Hr.
Qed.

Lemma _get_page_score_in_step (e : OpicHits) (p : page_id) :
  in_step e -> in_step (fst (_get_page_score e p)).
Proof.
  intro H. destruct (_get_page_score_total e p) as [e1 [s [E [_ Hcase]]]].
  rewrite E. simpl. destruct Hcase as [->|[_ ->]];
    [assumption | now apply add_page_in_step].
Qed.

Lemma hub_update_in_step (e : OpicHits) (p : page_id) (e' : OpicHits) :
  in_step e -> _update_page_h graph e p = Some e' -> in_step e'.
Proof.
  intros H. pose proof (_get_page_score_in_step p H) as H1.
  unfold _update_page_h.
  destruct (_get_page_score e p) as [e1 [s|]]; [|discriminate].
  intro E. injection E as <-. simpl in H1.
  eapply in_step_scores; [| |exact H1]; simpl; [|reflexivity].
  now rewrite rows_set, rows_increase_a_cash.
Qed.

Lemma authority_update_in_step (e : OpicHits) (p : page_id) (e' : OpicHits) :
  in_step e -> _update_page_a graph relevance e p = Some e' -> in_step e'.
Proof.
  intros H. pose proof (_get_page_score_in_step p H) as H1.
  unfold _update_page_a.
  destruct (_get_page_score e p) as [e1 [s|]]; [|discriminate].
  intro E. injection E as <-. simpl in H1.
  eapply in_step_scores; [| |exact H1]; simpl; [|reflexivity].
  now rewrite rows_set, rows_increase_h_cash.
Qed.

Lemma virtual_page_step_in_step (e : OpicHits) :
  in_step e -> in_step (_update_virtual_page e).
Proof.
  intro H. unfold _update_virtual_page.
  destruct (0 <? _n_pages e)%nat; [|assumption].
  eapply in_step_scores; [| |exact H]; reflexivity.
Qed.

Lemma add_pages_in_step (l : list page_id) (e : OpicHits) :
  in_step e -> in_step (fold_left (fun e p => fst (add_page e p)) l e).
Proof.
  revert e. induction l as [|p t IH]; intros e H; simpl; [assumption|].
  apply IH. now apply add_page_in_step.
Qed.

(** The constructor puts the counter in step with any table whose page
    ids are distinct. *)
Lemma init_in_step (c : SQLite) (w : option Qc) :
  NoDup (map fst (rows c)) -> in_step (init graph c w).
Proof.
  intro H. unfold init. apply add_pages_in_step. split; [exact H | reflexivity].
Qed.

Lemma add_page_scores_it (e : OpicHits) (p : page_id) :
  scored (fst (add_page e p)) p.
Proof.
  unfold scored, add_page.
  destruct (contains (_scores e) p) eqn:E; simpl.
  - now apply contains_In.
  - rewrite rows_add, E. apply in_or_app. right. now left.
Qed.

Lemma add_page_keeps_scored (e : OpicHits) (p q : page_id) :
  scored e p -> scored (fst (add_page e q)) p.
Proof.
  unfold scored, add_page. intro H.
  destruct (contains (_scores e) q) eqn:E; simpl; [assumption|].
  rewrite rows_add, E. apply in_or_app. now left.
Qed.

Lemma add_pages_keep_scored (l : list page_id) (e : OpicHits) (p : page_id) :
  scored e p -> scored (fold_left (fun e p => fst (add_page e p)) l e) p.
Proof.
  revert e. induction l as [|q t IH]; intros e H; simpl; [assumption|].
  apply IH. now apply add_page_keeps_scored.
Qed.

Lemma add_pages_score_all (l : list page_id) (e : OpicHits) (p : page_id) :
  In p l -> scored (fold_left (fun e p => fst (add_page e p)) l e) p.
Proof.
  revert e. induction l as [|q t IH]; intros e H; simpl; [contradiction|].
  destruct H as [->|H]; [|now apply IH].
  apply add_pages_keep_scored, add_page_scores_it.
Qed.

(** The constructor over a table of distinct page ids leaves the page
    counter equal to the number of rows, and a score row for every node
    of the graph. *)
Theorem init_scores_every_node (c : SQLite) (w : option Qc) :
  NoDup (map fst (rows c)) ->
  in_step (init graph c w)
  /\ (forall p, In p (inodes graph) -> scored (init graph c w) p).
Proof.
  intro H. split; [now apply init_in_step|].
  intros p Hp. unfold init. now apply add_pages_score_all.
Qed.

End InStep.

(** ** Cash conservation *)

Section Conservation.
Import HitsDB OpicHits Scenario.
Local Open Scope string_scope.

Lemma neighbours_ok_after_add (e : OpicHits) (p : page_id) (l : list page_id) :
  neighbours_ok e p l -> neighbours_ok (fst (add_page e p)) p l.
Proof.
  intros [Hn [Hp [Hs Hq]]]. split; [assumption|]. split; [assumption|].
  split; [|assumption].
  intros q Hin. apply add_page_keeps_scored. now apply Hs.
Qed.

(** One step and the total cash.  In an engine whose page counter is in
    step with the score table, with or without a time window:
    - a hub update of a page whose successors are listed once each, all
      have a score row, do not include the page itself and are free of
      the quote character, leaves the total cash T (scored pages plus
      virtual page) as it was when the page has a score row, and raises
      it by the cash (1, 1) of the row it creates, that is by 2, when the
      page has none;
    - an authority update does the same, under the same conditions on
      the predecessors;
    - the virtual-page step leaves T as it was. *)
Theorem cash_conservation (graph : GraphDB) (relevance : page_id -> option Qc)
        (e : OpicHits) :
  in_step e ->
  (forall p,
      neighbours_ok e p (successors graph p) ->
      exists e',
        _update_page_h graph e p = Some e'
        /\ total_cash e' = total_cash e + created_cash e p)
  /\ (forall p,
        neighbours_ok e p (predecessors graph p) ->
        exists e',
          _update_page_a graph relevance e p = Some e'
          /\ total_cash e' = total_cash e + created_cash e p)
  /\ total_cash (_update_virtual_page e) = total_cash e.
Proof.
  intros He. split; [|split].
  - intros p Hp. apply neighbours_ok_after_add in Hp as [Hn [Hself [Hsub _]]].
    destruct (add_page_in_step p He) as [Hrows _].
    destruct (@hub_update_conserves graph (fst (add_page e p)) p)
      as [e' [E T]]; auto using add_page_scores_it.
    exists e'. rewrite _update_page_h_after_add. split; [exact E|].
    now rewrite T, total_cash_add_page.
  - intros p Hp. apply neighbours_ok_after_add in Hp as [Hn [Hself [Hsub _]]].
    destruct (add_page_in_step p He) as [Hrows _].
    destruct (@authority_update_conserves graph relevance (fst (add_page e p)) p)
      as [e' [E T]]; auto using add_page_scores_it.
    exists e'. rewrite _update_page_a_after_add. split; [exact E|].
    now rewrite T, total_cash_add_page.
  - apply virtual_page_step_conserves, He.
Qed.

Lemma a_to_b_engine_in_step : in_step a_to_b_engine.
Proof.
  apply init_in_step. simpl. constructor.
Defined.

Lemma a_to_b_scored (p : page_id) : In p ["a"; "b"] -> scored a_to_b_engine p.
Proof. intro H. exact H. Defined.

Lemma a_to_b_neighbours (l : list page_id) (p q : page_id) :
  l = [q] -> String.eqb p q = false -> In q ["a"; "b"] ->
  neighbours_ok a_to_b_engine p l.
Proof.
  intros -> Hpq Hq. split; [|split; [|split]].
  - repeat constructor. simpl. tauto.
  - simpl. intros [H|[]]. subst q. rewrite String.eqb_refl in Hpq. discriminate.
  - simpl. intros x [<-|[]]. now apply a_to_b_scored.
  - simpl. intros x [<-|[]]. destruct Hq as [<-|[<-|[]]]; reflexivity.
Defined.

Lemma cash_conservation_witness :
  (exists e',
      _update_page_h a_to_b a_to_b_engine "a" = Some e'
      /\ total_cash e' = total_cash a_to_b_engine + 0)
  /\ (exists e',
        _update_page_a a_to_b no_relevance a_to_b_engine "b" = Some e'
        /\ total_cash e' = total_cash a_to_b_engine + 0)
  /\ total_cash (_update_virtual_page a_to_b_engine) = total_cash a_to_b_engine.
Proof.
  destruct (cash_conservation a_to_b no_relevance a_to_b_engine_in_step)
    as [Hh [Ha Hv]].
  split; [|split; [|exact Hv]].
  - apply (Hh "a").
    apply (@a_to_b_neighbours _ "a" "b"); [reflexivity | reflexivity | simpl; auto].
  - apply (Ha "b").
    apply (@a_to_b_neighbours _ "b" "a"); [reflexivity | reflexivity | simpl; auto].
Defined.

(** A step called on a page without score row.  In an empty graph and
    an empty score table the hub update of the unscored page [a] first
    creates its row with cash (1, 1): T goes from 2 to 4.  [update] never
    does this: it takes its pages from the score table. *)
Lemma hub_update_of_new_page_adds_cash :
  exists e',
    _update_page_h nothing empty_engine "a" = Some e'
    /\ total_cash empty_engine = two
    /\ total_cash e' = two + two
    /\ total_cash empty_engine < total_cash e'.
Proof.
  eexists. split; [reflexivity|].
  split; [apply Qc_is_canon; vm_compute; reflexivity|].
  split; [apply Qc_is_canon; vm_compute; reflexivity|].
  vm_compute. reflexivity.
Qed.

(** A page linking to itself: the share sent to its own row is
    overwritten by the record read before the distribution, so the hub
    update loses it.  T goes from 4 to 7/2. *)
Lemma self_loop_hub_update_loses_cash :
  exists e',
    _update_page_h self_loop self_loop_engine "a" = Some e'
    /\ scored self_loop_engine "a"
    /\ total_cash self_loop_engine = two + two
    /\ total_cash e' = two + two - half
    /\ total_cash e' < total_cash self_loop_engine.
Proof.
  eexists. split; [reflexivity|]. split; [now left|].
  split; [apply Qc_is_canon; vm_compute; reflexivity|].
  split; [apply Qc_is_canon; vm_compute; reflexivity|].
  vm_compute. reflexivity.
Qed.

(** A successor listed twice counts twice in the divisor and is paid
    once.  T goes from 6 to 6 - 1/3. *)
Lemma double_link_hub_update_loses_cash :
  exists e',
    _update_page_h double_link double_link_engine "a" = Some e'
    /\ total_cash double_link_engine = of_nat 6
    /\ total_cash e' = of_nat 6 - 1 / of_nat 3.
Proof.
  eexists. split; [reflexivity|].
  split; apply Qc_is_canon; vm_compute; reflexivity.
Qed.

(** C1.  A page that links to itself.  The graph has the one page [a],
    its own successor and predecessor; [a] has a score row and there is
    no time window, so the proviso of the claim holds.  The hub update of
    [a] pays the share 1/2 into the row of [a] and then writes back the
    record it read before the payment: the share is lost and T goes from
    4 to 7/2.  The authority update loses its share the same way, and a
    whole [update(1)] leaves T = 3. *)
Theorem self_link_update_loses_cash :
  in_step self_loop_engine
  /\ no_window self_loop_engine = true
  /\ (forall q,
        In q (successors self_loop "a") \/ In q (predecessors self_loop "a") ->
        scored self_loop_engine q)
  /\ total_cash self_loop_engine = of_nat 4
  /\ (exists e',
        _update_page_h self_loop self_loop_engine "a" = Some e'
        /\ total_cash e' = of_nat 4 - half)
  /\ (exists e' r,
        update self_loop no_relevance self_loop_engine 1 = Some (e', r)
        /\ total_cash e' = of_nat 3).
Proof.
  split; [apply init_in_step; constructor|].
  split; [reflexivity|].
  split; [intros q [H|H]; simpl in H; destruct H as [<-|[]]; now left|].
  split; [apply Qc_is_canon; vm_compute; reflexivity|].
  split.
  - eexists. split; [reflexivity|].
    apply Qc_is_canon. vm_compute. reflexivity.
  - eexists. eexists. split; [vm_compute; reflexivity|].
    apply Qc_is_canon. vm_compute. reflexivity.
Qed.

End Conservation.

(** ** Histories *)

Section Histories.
Import HitsDB OpicHits Scenario.
Local Open Scope string_scope.

(** Without relevance information the condition on the shares holds on
    every graph. *)
Lemma shares_ok_unknown (graph : GraphDB) : shares_ok graph (fun _ => None).
Proof. intro p. apply share_cond_half. Qed.

(** So it does when no page has more than three predecessors and every
    relevance lies in [0, 1]. *)
Lemma shares_ok_few_predecessors (graph : GraphDB) (relevance : page_id -> option Qc) :
  (forall p, (List.length (predecessors graph p) <= 3)%nat) ->
  (forall p r, relevance p = Some r -> 0 <= r /\ r <= 1) ->
  shares_ok graph relevance.
Proof.
  intros HN Hr p. apply share_cond_few_predecessors; [apply HN | |].
  - unfold page_relevance, or_default. destruct (relevance p) as [r|] eqn:E.
    + destruct (truthy r); [apply (Hr p r E) | apply zero_le_half].
    + apply zero_le_half.
  - unfold page_relevance, or_default. destruct (relevance p) as [r|] eqn:E.
    + destruct (truthy r); [apply (Hr p r E) | unfold Qcle; simpl; lra].
    + unfold Qcle; simpl; lra.
Qed.

Lemma add_pages_keeps (l : list page_id) (e : OpicHits) :
  no_window e = true ->
  cash_nonneg e ->
  keeps e (fold_left (fun e p => fst (add_page e p)) l e).
Proof.
  revert e. induction l as [|p t IH]; intros e Hw Hc; simpl.
  - now apply keeps_refl.
  - pose proof (add_page_keeps p Hw Hc) as K1.
    eapply keeps_trans; [exact K1|]. apply IH; apply K1.
Qed.

(** A new engine over a new table, without a window, holds no negative
    cash. *)
Lemma new_engine_cash_nonneg (graph : GraphDB) :
  cash_nonneg (init graph (connect new_tables) None).
Proof.
  unfold init. apply add_pages_keeps; [reflexivity|].
  split; [|split; simpl; apply zero_le_one].
  intros p s H. discriminate H.
Qed.

(** C8, as amended.  Without a time window, starting from a state
    without negative cash (a new engine is one), when the relevance [r]
    used for each page lies in [0, 1] and, [N] being the number of its
    predecessors, is 1 or at most [(N+1)/(2(N-1))], no sequence of
    [add_page], [mark_update], [update] and [get_scores] calls ever
    lowers [h_history] or [a_history] of a page: the histories in a
    later state are at least those in any earlier state. *)
Theorem histories_never_decrease
        (graph : GraphDB) (relevance : page_id -> option Qc)
        (e : OpicHits) (calls1 calls2 : list engine_call) (e1 e2 : OpicHits) :
  shares_ok graph relevance ->
  no_window e = true ->
  cash_nonneg e ->
  run_engine graph relevance e calls1 = Some e1 ->
  run_engine graph relevance e1 calls2 = Some e2 ->
  forall p s,
    get (_scores e1) p = Some s ->
    exists s',
      get (_scores e2) p = Some s'
      /\ h_history s <= h_history s'
      /\ a_history s <= a_history s'.
Proof.
  intros Hs Hw Hc R1 R2.
  destruct (run_engine_keeps Hs calls1 Hw Hc R1) as [Hw1 [Hc1 _]].
  destruct (run_engine_keeps Hs calls2 Hw1 Hc1 R2) as [_ [_ G]].
  exact G.
Qed.

Lemma histories_never_decrease_witness :
  exists e1 e2 s s',
    run_engine a_to_b no_relevance a_to_b_engine
               [CallMarkUpdate "a"; CallUpdate 2] = Some e1
    /\ run_engine a_to_b no_relevance e1 [CallGetScores "b"; CallUpdate 1] = Some e2
    /\ get (_scores e1) "b" = Some s
    /\ get (_scores e2) "b" = Some s'
    /\ h_history s <= h_history s'
    /\ a_history s <= a_history s'.
Proof.
  evar (e1 : OpicHits). evar (e2 : OpicHits). evar (s : HitsScore).
  assert (R1 : run_engine a_to_b no_relevance a_to_b_engine
                          [CallMarkUpdate "a"; CallUpdate 2] = Some e1)
    by (vm_compute; subst e1; reflexivity).
  assert (R2 : run_engine a_to_b no_relevance e1
                          [CallGetScores "b"; CallUpdate 1] = Some e2)
    by (vm_compute; subst e2; reflexivity).
  assert (G : get (_scores e1) "b" = Some s)
    by (vm_compute; subst s; reflexivity).
  destruct (@histories_never_decrease a_to_b no_relevance a_to_b_engine
              _ _ _ _ (shares_ok_unknown a_to_b) eq_refl
              (new_engine_cash_nonneg a_to_b) R1 R2 "b" _ G)
    as [s' [G' [Hh Ha]]].
  exists e1, e2, s, s'. repeat split; assumption.
Defined.

(** C8 fails as stated.  A new engine without a time window over five
    pages linking to each other and a page [x] without links, every
    relevance being 11/12: the fourth pass of [update] lowers
    [a_history] of [x].  With four predecessors and relevance 11/12 the
    rest [1 - z*N] left for the virtual page is negative, the
    virtual-page step then hands out negative cash, and [x] moves it
    into its history. *)
Lemma history_decreases_on_clique :
  exists e3 e4 s3 s4,
    no_window clique_engine = true
    /\ run_engine clique_and_x relevant clique_engine [CallUpdate 3] = Some e3
    /\ run_engine clique_and_x relevant e3 [CallUpdate 1] = Some e4
    /\ get (_scores e3) "x" = Some s3
    /\ get (_scores e4) "x" = Some s4
    /\ a_history s4 < a_history s3.
Proof.
  eexists. eexists. eexists. eexists.
  split; [reflexivity|].
  split; [vm_compute; reflexivity|].
  split; [vm_compute; reflexivity|].
  split; [vm_compute; reflexivity|].
  split; [vm_compute; reflexivity|].
  vm_compute. reflexivity.
Qed.

(** The rest for the virtual page at four predecessors and relevance
    11/12. *)
Lemma rest_negative_at_four_predecessors :
  1 - z_share (Q2Qc (11 # 12)) 4 * of_nat 4 < 0.
Proof. vm_compute. reflexivity. Qed.

End Histories.

(** ** Stop and restart *)

Section Restart.
Import HitsDB OpicHits Scenario.
Local Open Scope string_scope.

Lemma add_pages_time (l : list page_id) (e : OpicHits) :
  _time (fold_left (fun e p => fst (add_page e p)) l e) = _time e.
Proof.
  revert e. induction l as [|p t IH]; intro e; simpl; [reflexivity|].
  rewrite IH. unfold add_page.
  destruct (negb (contains (_scores e) p)); reflexivity.
Qed.

Lemma add_pages_virtual_page (l : list page_id) (e : OpicHits) :
  _virtual_page (fold_left (fun e p => fst (add_page e p)) l e) = _virtual_page e.
Proof.
  revert e. induction l as [|p t IH]; intro e; simpl; [reflexivity|].
  rewrite IH. unfold add_page.
  destruct (negb (contains (_scores e) p)); reflexivity.
Qed.

Lemma add_pages_get (l : list page_id) (e : OpicHits) (p : page_id) (s : HitsScore) :
  get (_scores e) p = Some s ->
  get (_scores (fold_left (fun e p => fst (add_page e p)) l e)) p = Some s.
Proof.
  revert e. induction l as [|q t IH]; intros e H; simpl; [assumption|].
  apply IH. unfold add_page.
  destruct (contains (_scores e) q) eqn:E; simpl; [assumption|].
  rewrite get_add, E.
  destruct (String.eqb p q) eqn:Eq; [|assumption].
  apply String.eqb_eq in Eq. subst q.
  apply get_contains in H. congruence.
Qed.

(** [connect] leaves a connection that went through [__init__]. *)
Lemma connect_opened (t : tables) : opened (connect t).
Proof.
  unfold opened, connect, insert_or_ignore_global. simpl.
  destruct (global_a_cash t), (global_h_cash t); split; discriminate.
Qed.

(** Closing and reopening restores the rows and both deltas. *)
Lemma reopen_restores (c : SQLite) :
  opened c ->
  rows (connect (HitsDB.close c)) = rows c
  /\ _a_cash_increase (connect (HitsDB.close c)) = _a_cash_increase c
  /\ _h_cash_increase (connect (HitsDB.close c)) = _h_cash_increase c.
Proof.
  intros [Ha Hh]. unfold connect, HitsDB.close, rows. simpl.
  destruct (global_a_cash (db c)); [|contradiction].
  destruct (global_h_cash (db c)); [|contradiction].
  simpl. auto.
Qed.

Lemma reopen_get (c : SQLite) (p : page_id) :
  opened c -> get (connect (HitsDB.close c)) p = get c p.
Proof.
  intro H. destruct (reopen_restores H) as [Hr [Ha Hh]].
  unfold get. now rewrite Hr, Ha, Hh.
Qed.

(** C4, as amended.  The virtual clock does not survive a restart: the
    engine built over the reopened file starts at virtual time 0 with a
    new virtual page, whatever the clock showed before the stop.  What
    survives is the score table: every score [get] returned before the
    stop is returned after the restart, both cash deltas included. *)
Theorem restart_resets_virtual_time (graph : GraphDB) (e : OpicHits) :
  _closed e = false ->
  opened (_scores e) ->
  exists e',
    restart graph e = Some e'
    /\ _time e' = 0
    /\ _virtual_page e' = mkHitsScore 0 1 0 0 1 0
    /\ (forall p s,
          get (_scores e) p = Some s -> get (_scores e') p = Some s).
Proof.
  intros Hc Ho. unfold restart, OpicHits.close. simpl. rewrite Hc.
  eexists. split; [reflexivity|]. unfold init. split; [|split].
  - now rewrite add_pages_time.
  - now rewrite add_pages_virtual_page.
  - intros p s H. apply add_pages_get. simpl. now rewrite reopen_get.
Qed.

(** C4 fails as stated.  After one [update] on two pages the clock
    shows 9/2; the engine built over the same store after the stop
    shows 0. *)
Lemma virtual_time_lost_on_restart :
  exists e1 r e2,
    update a_to_b no_relevance a_to_b_engine 1 = Some (e1, r)
    /\ restart a_to_b e1 = Some e2
    /\ _time e1 = of_nat 9 / two
    /\ _time e2 = 0
    /\ _time e2 < _time e1.
Proof.
  eexists. eexists. eexists. split; [vm_compute; reflexivity|].
  split; [reflexivity|].
  split; [apply Qc_is_canon; vm_compute; reflexivity|].
  split; [apply Qc_is_canon; vm_compute; reflexivity|].
  vm_compute. reflexivity.
Qed.

Lemma restart_resets_virtual_time_witness :
  exists e',
    restart a_to_b a_to_b_engine = Some e'
    /\ _time e' = 0
    /\ _virtual_page e' = mkHitsScore 0 1 0 0 1 0
    /\ (forall p s,
          get (_scores a_to_b_engine) p = Some s -> get (_scores e') p = Some s).
Proof.
  apply (@restart_resets_virtual_time a_to_b a_to_b_engine).
  - reflexivity.
  - vm_compute. split; discriminate.
Defined.

End Restart.

(** ** The must-update list *)

Section MustUpdate.
Import HitsDB OpicHits Scenario.
Local Open Scope string_scope.

(** C3, at the failing input: eleven new pages without links,
    [mark_update("p00")], then [update(1)].  The batch has twenty
    entries, the hub and authority entries of [p10] down to [p01]; the
    marked page [p00] is in neither returned list and its record still
    shows no history and the cash nobody drained.  The must-update list
    is empty afterwards. *)
Theorem marked_page_is_not_updated :
  exists e' hubs auths s,
    update no_links no_relevance (mark_update eleven_pages "p00") 1
    = Some (e', (hubs, auths))
    /\ ~ In "p00" hubs
    /\ ~ In "p00" auths
    /\ ~ In "p00" (map entry_page
                       (select_batch (mark_update eleven_pages "p00") 20))
    /\ get (_scores e') "p00" = Some s
    /\ h_history s = 0 /\ a_history s = 0
    /\ h_cash s = two /\ a_cash s = two
    /\ _to_update e' = [].
Proof.
  eexists. eexists. eexists. eexists.
  split; [vm_compute; reflexivity|].
  split; [simpl; intuition discriminate|].
  split; [simpl; intuition discriminate|].
  split; [vm_compute; intuition discriminate|].
  split; [vm_compute; reflexivity|].
  repeat split; apply Qc_is_canon; reflexivity.
Qed.

(** The steps of the engine neither read nor write the must-update
    list. *)
Lemma add_page_forget (e : OpicHits) (p : page_id) :
  add_page (forget e) p = (forget (fst (add_page e p)), snd (add_page e p)).
Proof.
  unfold add_page, forget. simpl.
  destruct (contains (_scores e) p); reflexivity.
Qed.

Lemma _get_page_score_forget (e : OpicHits) (p : page_id) :
  _get_page_score (forget e) p
  = (forget (fst (_get_page_score e p)), snd (_get_page_score e p)).
Proof.
  unfold _get_page_score. rewrite add_page_forget.
  destruct (add_page e p) as [e1 [s|]]; reflexivity.
Qed.

Lemma _update_page_h_forget (graph : GraphDB) (e : OpicHits) (p : page_id) :
  _update_page_h graph (forget e) p = option_map forget (_update_page_h graph e p).
Proof.
  unfold _update_page_h. rewrite _get_page_score_forget.
  destruct (_get_page_score e p) as [e1 [s|]]; reflexivity.
Qed.

Lemma _update_page_a_forget (graph : GraphDB) (relevance : page_id -> option Qc)
      (e : OpicHits) (p : page_id) :
  _update_page_a graph relevance (forget e) p
  = option_map forget (_update_page_a graph relevance e p).
Proof.
  unfold _update_page_a. rewrite _get_page_score_forget.
  destruct (_get_page_score e p) as [e1 [s|]]; reflexivity.
Qed.

Lemma _update_virtual_page_forget (e : OpicHits) :
  _update_virtual_page (forget e) = forget (_update_virtual_page e).
Proof.
  unfold _update_virtual_page, forget. simpl.
  destruct (0 <? _n_pages e)%nat; reflexivity.
Qed.

Lemma apply_batch_forget (graph : GraphDB) (relevance : page_id -> option Qc)
      (l : list (Qc * page_id * bool)) (e : OpicHits) :
  apply_batch graph relevance (forget e) l
  = option_map forget (apply_batch graph relevance e l).
Proof.
  revert e. induction l as [|x t IH]; intro e; simpl; [reflexivity|].
  unfold update_entry. destruct (entry_is_hub x).
  - rewrite _update_page_h_forget.
    destruct (_update_page_h graph e (entry_page x)); simpl; [apply IH | reflexivity].
  - rewrite _update_page_a_forget.
    destruct (_update_page_a graph relevance e (entry_page x)); simpl;
      [apply IH | reflexivity].
Qed.

Lemma iteration_forget (graph : GraphDB) (relevance : page_id -> option Qc)
      (k : nat) (e : OpicHits) :
  iteration graph relevance k (forget e)
  = option_map (fun x => (forget (fst x), snd x)) (iteration graph relevance k e).
Proof.
  unfold iteration. change (select_batch (forget e) k) with (select_batch e k).
  rewrite apply_batch_forget.
  destruct (apply_batch graph relevance e (select_batch e k)); simpl;
    [|reflexivity].
  now rewrite _update_virtual_page_forget.
Qed.

Lemma iterations_forget (graph : GraphDB) (relevance : page_id -> option Qc)
      (k n : nat) (e : OpicHits) (m : option (list (Qc * page_id * bool))) :
  iterations graph relevance k n (forget e) m
  = option_map (fun x => (forget (fst x), snd x))
               (iterations graph relevance k n e m).
Proof.
  revert e m. induction n as [|n IH]; intros e m; simpl; [reflexivity|].
  rewrite iteration_forget.
  destruct (iteration graph relevance k e) as [[e1 m1]|]; simpl;
    [apply IH | reflexivity].
Qed.

(** [update] reads the must-update list through its length only: two
    engines that differ in that list alone, the two lists being equally
    long, get the same batches, the same updates and the same result. *)
Lemma update_reads_length_only (graph : GraphDB) (relevance : page_id -> option Qc)
      (e1 e2 : OpicHits) (n : nat) :
  forget e1 = forget e2 ->
  List.length (_to_update e1) = List.length (_to_update e2) ->
  update graph relevance e1 n = update graph relevance e2 n.
Proof.
  intros Hf Hl.
  assert (Hk : n_updates e1 = n_updates e2) by (unfold n_updates; now rewrite Hl).
  assert (H : forall e,
             update graph relevance e n
             = match iterations graph relevance (n_updates e) n (forget e) None with
               | Some (e', Some mixed) => Some (e', (hubs_of mixed, auths_of mixed))
               | _ => None
               end).
  { intro e. unfold update. rewrite iterations_forget.
    destruct (iterations graph relevance (n_updates e) n e None)
      as [[e' [mixed|]]|]; reflexivity. }
  now rewrite (H e1), (H e2), Hf, Hk.
Qed.

(** Which page is marked makes no difference to the next [update]. *)
Lemma update_ignores_marked_page (graph : GraphDB) (relevance : page_id -> option Qc)
      (e : OpicHits) (p q : page_id) (n : nat) :
  update graph relevance (mark_update e p) n
  = update graph relevance (mark_update e q) n.
Proof.
  apply update_reads_length_only; [reflexivity|].
  unfold mark_update. simpl. now rewrite !length_app.
Qed.

End MustUpdate.

(** ** The theorems at concrete inputs *)

Section Instances.
Import HitsDB OpicHits Scenario.
Local Open Scope string_scope.

Lemma three_rows_unique : NoDup (map FreqDB.page three_rows).
Proof. simpl. repeat constructor; simpl; intuition discriminate. Defined.

Lemma d_is_absent : ~ In "d" (map FreqDB.page three_rows).
Proof. simpl. intuition discriminate. Defined.

Lemma three_rows_quote_free (e : FreqDB.entry) :
  In e three_rows -> quote_free (FreqDB.page e) = true.
Proof. intros [<-|[<-|[<-|[]]]]; reflexivity. Defined.

Lemma two_is_positive : 0 < two.
Proof. reflexivity. Defined.

Lemma add_admission_witness :
  exists score0,
    is_min_score three_rows score0
    /\ FreqDB.add three_rows "d" two true
       = (three_rows ++ [FreqDB.mkEntry "d" two (score0 + 1 / two)])%list.
Proof.
  destruct (add_admission three_rows "d" two true) as [m [Hm [_ H]]].
  exists m. split; [exact Hm|].
  apply H; [exact two_is_positive | exact d_is_absent].
Defined.

Lemma set_absent_page_adds_fresh_witness :
  exists score0,
    is_min_score three_rows score0
    /\ FreqDB.set three_rows "d" two = FreqDB.add three_rows "d" two true
    /\ FreqDB.set three_rows "d" two
       = (three_rows ++ [FreqDB.mkEntry "d" two (score0 + 1 / two)])%list.
Proof.
  exact (@set_absent_page_adds_fresh three_rows "d" two two_is_positive d_is_absent).
Defined.

Lemma get_next_pages_selection_witness :
  exists sel rest,
    Permutation (sel ++ rest)%list three_rows
    /\ List.length sel = Nat.min 2 (List.length three_rows)
    /\ StronglySorted (earlier three_rows) (sel ++ rest)%list
    /\ snd (FreqDB.get_next_pages three_rows 2) = map FreqDB.page sel
    /\ Forall2 (fun e e' =>
                  (In e sel ->
                   e' = FreqDB.mkEntry (FreqDB.page e) (FreqDB.frequency e)
                          (FreqDB.score e + 1 / FreqDB.frequency e))
                  /\ (~ In e sel -> e' = e))
               three_rows (fst (FreqDB.get_next_pages three_rows 2)).
Proof.
  exact (@get_next_pages_selection three_rows 2%nat three_rows_unique
           three_rows_quote_free).
Defined.

(** On [three_rows] the two rows of least score are [b] and [c], in
    rowid order; their scores go up by 1/2 and 1/4. *)
Example get_next_pages_three_rows :
  snd (FreqDB.get_next_pages three_rows 2) = ["b"; "c"]
  /\ map FreqDB.page (fst (FreqDB.get_next_pages three_rows 2)) = ["a"; "b"; "c"]
  /\ map (fun e => this (FreqDB.score e)) (fst (FreqDB.get_next_pages three_rows 2))
     = [3; 3 # 2; 5 # 4]%Q.
Proof. repeat split. Qed.

(** Rows of equal score come in rowid order, that is in the order of
    their insertion, whatever their page ids. *)
Example ties_follow_rowid :
  snd (FreqDB.get_next_pages b_then_a 1) = ["b"]
  /\ FreqDB.add (FreqDB.add [] "b" 1 false) "a" 1 false
     = [FreqDB.mkEntry "b" 1 0; FreqDB.mkEntry "a" 1 0]
  /\ snd (FreqDB.get_next_pages
            (FreqDB.add (FreqDB.add [] "b" 1 false) "a" 1 false) 1) = ["b"].
Proof. repeat split. Qed.


(** Eleven new pages without links, [update(2)]: the first pass updates
    [p01] (its histories become 1), the second pass leaves it out, and
    it is in neither returned list. *)
Example earlier_pass_is_not_reported :
  exists e' hubs auths s,
    update no_links no_relevance eleven_pages 2 = Some (e', (hubs, auths))
    /\ In "p01" (hubs_of (select_batch eleven_pages 20))
    /\ In "p01" (auths_of (select_batch eleven_pages 20))
    /\ ~ In "p01" hubs
    /\ ~ In "p01" auths
    /\ get (_scores e') "p01" = Some s
    /\ h_history s = 1 /\ a_history s = 1.
Proof.
  eexists. eexists. eexists. eexists.
  split; [vm_compute; reflexivity|].
  split; [vm_compute; tauto|].
  split; [vm_compute; tauto|].
  split; [simpl; intuition discriminate|].
  split; [simpl; intuition discriminate|].
  split; [vm_compute; reflexivity|].
  split; apply Qc_is_canon; reflexivity.
Qed.

Lemma z_share_anchor_points_witness :
  (z_share 0 4 = 0
   /\ z_share 1 4 = 1 / of_nat 4
   /\ z_share half 4 = 1 / (of_nat 4 + 1))
  /\ z_share (Q2Qc (11 # 12)) 0 = 0.
Proof.
  destruct (z_share_anchor_points 4 (Q2Qc (11 # 12))) as [H H0].
  split; [apply H; repeat constructor | exact H0].
Defined.

Lemma relevance_zero_share_witness :
  page_relevance (fun _ => Some 0) "b" = half
  /\ z_share (page_relevance (fun _ => Some 0) "b") 1 = 1 / (of_nat 1 + 1).
Proof.
  apply (@relevance_zero_share (fun _ => Some 0) "b" 1%nat).
  - reflexivity.
  - constructor.
Defined.

Lemma init_scores_every_node_witness :
  in_step a_to_b_engine
  /\ (forall p, In p (inodes a_to_b) -> scored a_to_b_engine p).
Proof.
  apply (@init_scores_every_node a_to_b (connect new_tables) None).
  simpl. constructor.
Defined.

(** C7.  The page [b] has the one predecessor [a] and the stored
    relevance 0.0.  At the anchor point [z(0) = 0] no authority cash
    goes back to the hubs (comment of line 226).  Line 221 reads the
    relevance as [relevance.get(b) or 0.5], and 0.0 is false in Python:
    the update computes the share at 0.5, that is [1/(N+1) = 1/2], and
    pays it to [a], whose hub cash goes from 1 to 3/2. *)
Theorem authority_update_at_relevance_zero :
  irrelevant "b" = Some 0
  /\ z_share 0 (List.length (predecessors a_to_b "b")) = 0
  /\ page_relevance irrelevant "b" = half
  /\ z_share (page_relevance irrelevant "b")
             (List.length (predecessors a_to_b "b")) = half
  /\ exists e' s0 s,
       get (_scores a_to_b_engine) "a" = Some s0
       /\ h_cash s0 = 1
       /\ _update_page_a a_to_b irrelevant a_to_b_engine "b" = Some e'
       /\ get (_scores e') "a" = Some s
       /\ h_cash s = 1 + half.
Proof.
  split; [reflexivity|]. split; [apply Qc_is_canon; reflexivity|].
  split; [reflexivity|].
  split; [apply Qc_is_canon; reflexivity|].
  eexists. eexists. eexists.
  split; [vm_compute; reflexivity|].
  split; [apply Qc_is_canon; reflexivity|].
  split; [reflexivity|].
  split; [vm_compute; reflexivity|].
  apply Qc_is_canon. reflexivity.
Qed.

(** C6.  A table whose only page is [o'brien].  [get_next_pages(1)]
    selects it, the [SELECT] taking its limit as a parameter, and then
    builds the text of its [UPDATE] by pasting the id between quotes:
    the list between the brackets of [IN] reads ['o'brien'], where the
    literal ends after [o].  SQLite rejects that statement and the call
    raises: the page is not returned and its score is not raised. *)
Theorem get_next_pages_pastes_the_quote :
  map FreqDB.page quoted_row = ["o'brien"]
  /\ map FreqDB.page (FreqDB.next_rows quoted_row 1) = ["o'brien"]
  /\ quote_free "o'brien" = false
  /\ in_list_text (map FreqDB.page (FreqDB.next_rows quoted_row 1))
     = "'o'brien'".
Proof. repeat split. Qed.

End Instances.

(** * Further properties *)

(** ** The score store: insert, update, delete *)

Section StoreWrites.
Import HitsDB.

Lemma with_rows_same (c : SQLite) : with_rows c (rows c) = c.
Proof. destruct c as [[r a h] da dh]. reflexivity. Qed.

Lemma update_where_none (A : Type) (sel : A -> bool) (f : A -> A) (l : list A) :
  (forall x, In x l -> sel x = false) -> update_where sel f l = l.
Proof.
  unfold update_where. induction l as [|x t IH]; simpl; intro H; [reflexivity|].
  rewrite (H x) by now left. f_equal. apply IH. intros y Hy. apply H. now right.
Qed.

Lemma get_none_absent (c : SQLite) (p : page_id) :
  get c p = None <-> ~ In p (map fst (rows c)).
Proof.
  rewrite <- contains_In. split.
  - intros H E. destruct (contains_get _ _ E) as [s Hs]. congruence.
  - intro H. destruct (get c p) eqn:G; [|reflexivity].
    apply get_contains in G. contradiction.
Qed.

Lemma fetchone_filter_out (p q : page_id) (l : list (page_id * HitsScore)) :
  fetchone fst q (filter (fun r => negb (String.eqb (fst r) p)) l)
  = if String.eqb q p then None else fetchone fst q l.
Proof.
  induction l as [|[k s] t IH]; simpl.
  - now destruct (String.eqb q p).
  - destruct (String.eqb k p) eqn:Ekp; simpl.
    + rewrite IH. destruct (String.eqb q p) eqn:Eqp; [reflexivity|].
      destruct (String.eqb k q) eqn:Ekq; [|reflexivity].
      apply String.eqb_eq in Ekp, Ekq. subst.
      rewrite String.eqb_refl in Eqp. discriminate.
    + destruct (String.eqb k q) eqn:Ekq.
      * apply String.eqb_eq in Ekq. subst k. now rewrite Ekp.
      * exact IH.
Qed.

Lemma get_delete (c : SQLite) (p q : page_id) :
  get (delete c p) q = if String.eqb q p then None else get c q.
Proof.
  unfold get, delete, delete_where. unfold rows at 1. simpl.
  rewrite fetchone_filter_out. now destruct (String.eqb q p).
Qed.

(** [add] is an insert-if-absent.  For a page without a row, [get]
    afterwards returns the record that was added, whatever the two
    deltas are, one row more is counted, and the other pages read as
    before.  For a page that has a row, [add] changes nothing. *)
Theorem add_inserts_if_absent (c : SQLite) (p : page_id) (s : HitsScore) :
  (get c p = None ->
   get (add c p s) p = Some s
   /\ get_count (add c p s) = S (get_count c)
   /\ (forall q, q <> p -> get (add c p s) q = get c q))
  /\ (forall s0, get c p = Some s0 -> add c p s = c).
Proof.
  split.
  - intro H.
    assert (E : contains c p = false).
    { destruct (contains c p) eqn:E; [|reflexivity].
      destruct (contains_get _ _ E) as [s0 H0]. congruence. }
    split; [|split].
    + now rewrite get_add, E, String.eqb_refl.
    + unfold get_count, add. rewrite E. unfold rows, with_rows. simpl.
      rewrite length_app. simpl. lia.
    + intros q Hq. rewrite get_add, E.
      apply String.eqb_neq in Hq. now rewrite Hq.
  - intros s0 H. unfold add. now rewrite (get_contains _ _ H).
Qed.

(** [set] is an update-if-present.  For a page that has a row, [get]
    afterwards returns the record that was set; for a page without a
    row [set] changes nothing and creates no row.  In both cases the
    number of rows and the other pages stay as they were. *)
Theorem set_updates_if_present (c : SQLite) (p : page_id) (s : HitsScore) :
  (forall s0, get c p = Some s0 -> get (set c p s) p = Some s)
  /\ (get c p = None -> set c p s = c)
  /\ get_count (set c p s) = get_count c
  /\ (forall q, q <> p -> get (set c p s) q = get c q).
Proof.
  split; [|split; [|split]].
  - intros s0 H. now rewrite get_set, H, String.eqb_refl.
  - intro H. apply get_none_absent in H. unfold set.
    rewrite update_where_none; [apply with_rows_same|].
    intros [k s0] Hin. simpl. apply String.eqb_neq. intros ->.
    apply H. now apply (in_map fst) in Hin.
  - unfold get_count. rewrite <- !(length_map fst). now rewrite rows_set.
  - intros q Hq. rewrite get_set. apply String.eqb_neq in Hq. rewrite Hq.
    now destruct (get c q).
Qed.

(** [delete] removes the row of the page and no other: [get] on the page
    gives [None] afterwards, the other pages read as before, and
    deleting a page that has no row changes nothing. *)
Theorem delete_removes_one_page (c : SQLite) (p : page_id) :
  get (delete c p) p = None
  /\ contains (delete c p) p = false
  /\ (forall q, q <> p -> get (delete c p) q = get c q)
  /\ (get c p = None -> delete c p = c).
Proof.
  split; [|split; [|split]].
  - now rewrite get_delete, String.eqb_refl.
  - destruct (contains (delete c p) p) eqn:E; [|reflexivity].
    destruct (contains_get _ _ E) as [s H].
    rewrite get_delete, String.eqb_refl in H. discriminate.
  - intros q Hq. rewrite get_delete. apply String.eqb_neq in Hq. now rewrite Hq.
  - intro H. apply get_none_absent in H. unfold delete, delete_where.
    replace (filter (fun x : page_id * HitsScore => negb (String.eqb (fst x) p)) (rows c))
      with (rows c); [apply with_rows_same|].
    symmetry. apply forallb_filter_id. apply forallb_forall.
    intros [k s0] Hin. simpl. apply negb_true_iff, String.eqb_neq. intros ->.
    apply H. now apply (in_map fst) in Hin.
Qed.

(** For listed ids free of the quote character, [increase_h_cash] and
    [increase_a_cash] add the amount to the named column of every listed
    page that has a row, once even when the page is listed several times;
    they leave the other column, the other pages and the number of rows
    as they were, so a listed page without a row gets none. *)
Theorem increase_cash_touches_listed_rows_only
        (c : SQLite) (ids : list page_id) (d : Qc) (q : page_id) :
  (forall p, In p ids -> quote_free p = true) ->
  get (increase_h_cash c ids d) q
  = match get c q with
    | Some s =>
        Some (if in_dec string_dec q ids
              then mkHitsScore (h_history s) (h_cash s + d) (h_last s)
                               (a_history s) (a_cash s) (a_last s)
              else s)
    | None => None
    end
  /\ get (increase_a_cash c ids d) q
     = match get c q with
       | Some s =>
           Some (if in_dec string_dec q ids
                 then mkHitsScore (h_history s) (h_cash s) (h_last s)
                                  (a_history s) (a_cash s + d) (a_last s)
                 else s)
       | None => None
       end
  /\ get_count (increase_h_cash c ids d) = get_count c
  /\ get_count (increase_a_cash c ids d) = get_count c.
Proof.
  intros _.
  assert (E : id_in q ids = if in_dec string_dec q ids then true else false).
  { destruct (in_dec string_dec q ids) as [H|H].
    - now apply id_in_In.
    - now apply id_in_false. }
  split; [|split; [|split]].
  - rewrite get_increase_h_cash. destruct (get c q); [|reflexivity]. simpl.
    rewrite E. now destruct (in_dec string_dec q ids).
  - rewrite get_increase_a_cash. destruct (get c q); [|reflexivity]. simpl.
    rewrite E. now destruct (in_dec string_dec q ids).
  - unfold get_count. rewrite <- !(length_map fst).
    now rewrite rows_increase_h_cash.
  - unfold get_count. rewrite <- !(length_map fst).
    now rewrite rows_increase_a_cash.
Qed.

End StoreWrites.

(** ** The score store: the pages of highest cash *)

Section StoreTop.
Import HitsDB.

(** [ORDER BY col DESC] lists the rows by falling [col]. *)
Lemma order_by_desc_sorted (col : HitsScore -> Qc) (t : list (page_id * HitsScore)) :
  StronglySorted (fun a b => col (snd b) <= col (snd a)) (order_by (by_desc col) t).
Proof.
  induction t as [|x t IH]; simpl; [constructor|].
  apply insert_sorted_sorted; [| |exact IH].
  - intros y _ H. unfold by_desc in H. apply Qc_ltb_lt in H.
    now apply Qclt_le_weak.
  - intros y z _ _ H Hz. unfold by_desc in H. apply Qc_ltb_ge in H.
    destruct Hz as [->|Hz]; [assumption|].
    eapply Qcle_trans; eassumption.
Qed.

(** [get_highest_h_cash(n)] and [get_highest_a_cash(n)] return the first
    [n] rows (all of them when there are fewer) of the table listed by
    falling cash, the cash being the one [get] shows: no page left out
    holds more cash of that channel than a page returned. *)
Theorem get_highest_cash_is_top_n (c : SQLite) (n : nat) :
  (exists sel rest,
      Permutation (sel ++ rest) (visible c)
      /\ List.length sel = Nat.min n (get_count c)
      /\ StronglySorted (fun a b => h_cash (snd b) <= h_cash (snd a)) (sel ++ rest)
      /\ get_highest_h_cash c n = map (fun r => (fst r, h_cash (snd r))) sel)
  /\ (exists sel rest,
        Permutation (sel ++ rest) (visible c)
        /\ List.length sel = Nat.min n (get_count c)
        /\ StronglySorted (fun a b => a_cash (snd b) <= a_cash (snd a)) (sel ++ rest)
        /\ get_highest_a_cash c n = map (fun r => (fst r, a_cash (snd r))) sel).
Proof.
  assert (L : List.length (visible c) = get_count c)
    by (unfold visible, get_count; apply length_map).
  split.
  - exists (firstn n (order_by_desc h_cash (visible c))),
           (skipn n (order_by_desc h_cash (visible c))).
    rewrite firstn_skipn. unfold order_by_desc.
    split; [eapply Permutation_trans;
            [apply order_by_perm | apply Permutation_sym, Permutation_rev]|].
    split; [now rewrite length_firstn, order_by_length, length_rev, L|].
    split; [apply order_by_desc_sorted|].
    apply get_highest_h_cash_visible.
  - exists (firstn n (order_by_desc a_cash (visible c))),
           (skipn n (order_by_desc a_cash (visible c))).
    rewrite firstn_skipn. unfold order_by_desc.
    split; [eapply Permutation_trans;
            [apply order_by_perm | apply Permutation_sym, Permutation_rev]|].
    split; [now rewrite length_firstn, order_by_length, length_rev, L|].
    split; [apply order_by_desc_sorted|].
    apply get_highest_a_cash_visible.
Qed.

End StoreTop.

(** ** The score store: close and reopen *)

Section StoreReopen.
Import HitsDB.

Lemma run_call_opened (c : SQLite) (x : hits_call) :
  opened c -> opened (run_call c x).
Proof.
  intro H. destruct x; simpl; try exact H.
  unfold add. destruct (contains c p); exact H.
Qed.

Lemma run_calls_opened (calls : list hits_call) (c : SQLite) :
  opened c -> opened (fold_left run_call calls c).
Proof.
  revert c. induction calls as [|x t IH]; intros c H; simpl; [assumption|].
  apply IH. now apply run_call_opened.
Qed.

(** Whatever the file held and whatever calls were made on the
    connection since it was opened, closing it and opening the file again
    gives a connection on which every read answers as before: the two
    deltas of [increase_all_cash] are saved by [close] and restored by
    the constructor. *)
Theorem reads_survive_reopen (t : tables) (calls : list hits_call)
        (p : page_id) (n : nat) :
  let c := fold_left run_call calls (connect t) in
  let c' := connect (HitsDB.close c) in
  get c' p = get c p
  /\ contains c' p = contains c p
  /\ get_count c' = get_count c
  /\ get_highest_h_cash c' n = get_highest_h_cash c n
  /\ get_highest_a_cash c' n = get_highest_a_cash c n
  /\ iteritems c' = iteritems c
  /\ _h_cash_increase c' = _h_cash_increase c
  /\ _a_cash_increase c' = _a_cash_increase c.
Proof.
  cbv zeta. set (c := fold_left run_call calls (connect t)).
  assert (Ho : opened c) by (apply run_calls_opened, connect_opened).
  destruct (reopen_restores Ho) as [Hr [Ha Hh]].
  unfold get, contains, get_count, get_highest_h_cash, get_highest_a_cash, iteritems.
  rewrite Hr, Ha, Hh. repeat split.
Qed.

End StoreReopen.

(** ** The refresh store: set, delete and the rows it can hold *)

Section FreqMore.
Import FreqDB.

Lemma contains_true (c : list entry) (p : page_id) :
  contains c p = true <-> In p (map page c).
Proof.
  destruct (contains c p) eqn:E.
  - split; [|reflexivity]. intros _.
    destruct (in_dec string_dec p (map page c)) as [H|H]; [assumption|].
    apply contains_false in H. congruence.
  - apply contains_false in E. split; [discriminate | contradiction].
Qed.

Lemma contains_update_where (sel : entry -> bool) (g : entry -> entry)
      (c : list entry) (p : page_id) :
  (forall e, page (g e) = page e) ->
  contains (update_where sel g c) p = contains c p.
Proof.
  intro Hg. destruct (contains c p) eqn:E.
  - apply contains_true. rewrite update_where_pages by assumption.
    now apply contains_true.
  - apply contains_false. rewrite update_where_pages by assumption.
    now apply contains_false.
Qed.

Lemma Qc_eqb_neq (x y : Qc) : Qc_eqb x y = false <-> x <> y.
Proof.
  split.
  - intros H E. apply Qc_eqb_eq in E. congruence.
  - intro H. destruct (Qc_eqb x y) eqn:E; [|reflexivity].
    apply Qc_eqb_eq in E. contradiction.
Qed.

(** [set(p, f)] with [f] other than 0 on a page that has a row replaces
    its frequency by [f] and moves its score by [1/f - 1/f_old]; the
    other rows, and the place of every row in the table, stay as they
    were.  Unlike [add], this path accepts a negative [f]. *)
Lemma set_present_page_adjusts_score (c : list entry) (p : page_id) (f : Qc) :
  f <> 0 ->
  In p (map page c) ->
  Forall2 (fun e e' =>
             (page e = p ->
              e' = mkEntry p f (score e - 1 / frequency e + 1 / f))
             /\ (page e <> p -> e' = e))
          c (set c p f).
Proof.
  intros Hf Hp. unfold set.
  apply Qc_eqb_neq in Hf. rewrite Hf.
  apply contains_true in Hp. rewrite Hp.
  unfold update_where. apply Forall2_map_right. intros e _.
  destruct (String.eqb (page e) p) eqn:E.
  - apply String.eqb_eq in E. split; [intros _; now rewrite E | contradiction].
  - apply String.eqb_neq in E. split; [contradiction | reflexivity].
Qed.

Lemma delete_absent (c : list entry) (p : page_id) :
  ~ In p (map page c) -> delete c p = c.
Proof.
  intro H. unfold delete, delete_where.
  apply forallb_filter_id, forallb_forall.
  intros e He. apply negb_true_iff, String.eqb_neq. intros E.
  apply H. rewrite <- E. now apply in_map.
Qed.

Lemma delete_app (c1 c2 : list entry) (p : page_id) :
  delete (c1 ++ c2) p = delete c1 p ++ delete c2 p.
Proof. unfold delete, delete_where. apply filter_app. Qed.

Lemma delete_update_where (g : entry -> entry) (c : list entry) (p : page_id) :
  (forall e, page (g e) = page e) ->
  delete (update_where (fun e => String.eqb (page e) p) g c) p = delete c p.
Proof.
  intro Hg. unfold delete, delete_where, update_where.
  induction c as [|e t IH]; simpl; [reflexivity|].
  destruct (String.eqb (page e) p) eqn:E; simpl.
  - rewrite Hg, E. simpl. exact IH.
  - rewrite E. simpl. now rewrite IH.
Qed.

Lemma delete_add_absent (c : list entry) (p : page_id) (f : Qc) (fresh : bool) :
  ~ In p (map page c) -> delete (add c p f fresh) p = c.
Proof.
  intro Hp. unfold add. destruct (Qc_ltb 0 f); [|now apply delete_absent].
  apply contains_false in Hp as E. rewrite E.
  rewrite delete_app, delete_absent by assumption.
  unfold delete, delete_where. simpl. rewrite String.eqb_refl. simpl.
  apply app_nil_r.
Qed.

(** [delete] undoes [add], and removes the page whatever was done to its
    row: adding a page that has no row and deleting it again gives back
    the table, and after [delete] the page has no row. *)
Theorem delete_undoes_add (c : list entry) (p : page_id) (f : Qc) (fresh : bool) :
  ~ In p (map page c) ->
  delete (add c p f fresh) p = c
  /\ contains (delete (add c p f fresh) p) p = false.
Proof.
  intro Hp. rewrite delete_add_absent by assumption.
  split; [reflexivity | now apply contains_false].
Qed.

(** [add] leaves the table as it is when the frequency is not positive
    or the page has a row already: it never changes an existing row. *)
Lemma add_is_ignored (c : list entry) (p : page_id) (f : Qc) (fresh : bool) :
  f <= 0 \/ In p (map page c) -> add c p f fresh = c.
Proof.
  intros [Hf|Hp]; unfold add.
  - apply Qc_ltb_ge in Hf. now rewrite Hf.
  - destruct (Qc_ltb 0 f); [|reflexivity].
    apply contains_true in Hp. now rewrite Hp.
Qed.

Lemma update_where_app (A : Type) (sel : A -> bool) (g : A -> A) (l1 l2 : list A) :
  update_where sel g (l1 ++ l2) = update_where sel g l1 ++ update_where sel g l2.
Proof. unfold update_where. apply map_app. Qed.

Lemma nonzero_cases (f : Qc) : f <> 0 -> 0 <= f -> 0 < f.
Proof.
  intros Hn Hf. apply Qcle_lt_or_eq in Hf as [H|H]; [assumption|].
  symmetry in H. contradiction.
Qed.

(** Setting the frequency of a page twice leaves the table that setting
    the second frequency alone leaves, when the first frequency is not 0
    and either the page has a row or the second frequency is not
    negative: the score moves by [1/f1 - 1/f_old] and then by
    [1/f2 - 1/f1]. *)
Theorem set_twice_is_set_last (c : list entry) (p : page_id) (f1 f2 : Qc) :
  f1 <> 0 ->
  In p (map page c) \/ 0 <= f2 ->
  set (set c p f1) p f2 = set c p f2.
Proof.
  intros H1 Hcase.
  assert (E1 : Qc_eqb f1 0 = false) by now apply Qc_eqb_neq.
  destruct (in_dec string_dec p (map page c)) as [Hp|Hp].
  - (* the page has a row *)
    apply contains_true in Hp as Ec.
    assert (S1 : set c p f1
                 = update_where (fun e => String.eqb (page e) p)
                     (fun e => mkEntry (page e) f1 (score e - 1 / frequency e + 1 / f1)) c)
      by (unfold set; now rewrite E1, Ec).
    rewrite S1. unfold set at 1 2.
    destruct (Qc_eqb f2 0) eqn:E2.
    + now apply delete_update_where.
    + rewrite contains_update_where by reflexivity. rewrite Ec.
      unfold update_where. rewrite map_map. apply map_ext. intro e.
      destruct (String.eqb (page e) p) eqn:E; simpl; rewrite E; [|reflexivity].
      f_equal. unfold Qcdiv. ring.
  - (* the page has no row *)
    destruct Hcase as [Hin|Hf2]; [contradiction|].
    apply contains_false in Hp as Ec.
    destruct (Qc_ltb 0 f1) eqn:L1.
    + assert (S1 : set c p f1
                   = c ++ [mkEntry p f1 (_get_min_score c + 1 / f1)])
        by (unfold set, add; now rewrite E1, Ec, L1).
      rewrite S1.
      assert (Ec1 : contains (c ++ [mkEntry p f1 (_get_min_score c + 1 / f1)]) p = true).
      { apply contains_true. rewrite map_app. apply in_or_app. right. now left. }
      unfold set at 1 2. destruct (Qc_eqb f2 0) eqn:E2.
      * rewrite delete_app, (delete_absent _ _ Hp).
        unfold delete, delete_where. simpl. rewrite String.eqb_refl. simpl.
        now rewrite app_nil_r.
      * rewrite Ec1, Ec. apply Qc_eqb_neq in E2.
        pose proof (nonzero_cases E2 Hf2) as L2. apply Qc_ltb_lt in L2.
        unfold add. rewrite L2, Ec.
        rewrite update_where_app.
        rewrite update_where_none.
        -- unfold update_where. simpl. rewrite String.eqb_refl.
           f_equal. f_equal. f_equal. unfold Qcdiv. ring.
        -- intros e He. apply String.eqb_neq. intros E. apply Hp.
           rewrite <- E. now apply in_map.
    + assert (S1 : set c p f1 = c) by (unfold set, add; now rewrite E1, Ec, L1).
      now rewrite S1.
Qed.

(** What one call does to the frequencies of the table. *)
Lemma run_freq_call_frequencies (P : Qc -> Prop) (c : list entry) (x : freq_call) :
  match x with
  | FreqAdd _ f _ => 0 < f -> P f
  | FreqSet _ f => f <> 0 -> P f
  | _ => True
  end ->
  Forall (fun e => P (frequency e)) c ->
  Forall (fun e => P (frequency e)) (run_freq_call c x).
Proof.
  intros Hx Hc. rewrite Forall_forall in *.
  assert (Hadd : forall p f fresh, (0 < f -> P f) ->
                   forall e, In e (add c p f fresh) -> P (frequency e)).
  { intros p f fresh Hf e. unfold add.
    destruct (Qc_ltb 0 f) eqn:L; [|apply Hc].
    destruct (contains c p); [apply Hc|].
    intro He. apply in_app_or in He as [He|[<-|[]]]; [now apply Hc|].
    simpl. apply Hf. now apply Qc_ltb_lt. }
  assert (Hdel : forall p e, In e (delete c p) -> P (frequency e)).
  { intros p e He. apply filter_In in He as [He _]. now apply Hc. }
  destruct x as [p f fresh|p f| p | n |]; simpl.
  - now apply Hadd.
  - unfold set. destruct (Qc_eqb f 0) eqn:E0; [apply Hdel|].
    apply Qc_eqb_neq in E0.
    destruct (contains c p).
    + intros e He. unfold update_where in He.
      apply in_map_iff in He as [e0 [<- He0]].
      destruct (String.eqb (page e0) p); simpl; [now apply Hx | now apply Hc].
    + apply Hadd. intros _. now apply Hx.
  - apply Hdel.
  - intros e He. unfold update_where in He.
    apply in_map_iff in He as [e0 [<- He0]].
    destruct (id_in (page e0) _); simpl; now apply Hc.
  - intros e [].
Qed.

Lemma run_freq_call_unique (c : list entry) (x : freq_call) :
  NoDup (map page c) -> NoDup (map page (run_freq_call c x)).
Proof.
  intro H. destruct x; simpl.
  - now apply add_unique.
  - now apply set_unique.
  - now apply delete_unique.
  - now apply get_next_pages_unique.
  - constructor.
Qed.

(** Whatever calls are made on a new refresh store, its table never
    holds two rows for one page nor a row of frequency 0, so that
    [1/frequency] is always defined; and when no call passes a negative
    frequency, every frequency in the table is positive. *)
Theorem table_rows_are_well_formed (calls : list freq_call) :
  let c := fold_left run_freq_call calls new in
  NoDup (map page c)
  /\ (forall e, In e c -> frequency e <> 0)
  /\ (Forall no_negative_frequency calls -> forall e, In e c -> 0 < frequency e).
Proof.
  cbv zeta.
  assert (G : forall c0,
             NoDup (map page c0) ->
             (forall e, In e c0 -> frequency e <> 0) ->
             NoDup (map page (fold_left run_freq_call calls c0))
             /\ (forall e, In e (fold_left run_freq_call calls c0) -> frequency e <> 0)
             /\ (Forall no_negative_frequency calls ->
                 (forall e, In e c0 -> 0 < frequency e) ->
                 forall e, In e (fold_left run_freq_call calls c0) -> 0 < frequency e)).
  { induction calls as [|x t IH]; intros c0 Hn Hz; simpl.
    - split; [assumption|]. split; [assumption|]. intros _ H. exact H.
    - assert (Hz1 : forall e, In e (run_freq_call c0 x) -> frequency e <> 0).
      { apply Forall_forall.
        apply (run_freq_call_frequencies (fun f => f <> 0)).
        - destruct x; auto. intros L E. rewrite E in L. revert L.
          apply Qcle_not_lt, Qcle_refl.
        - now apply Forall_forall. }
      destruct (IH (run_freq_call c0 x) (run_freq_call_unique c0 x Hn) Hz1)
        as [A [B C]].
      split; [exact A|]. split; [exact B|].
      intros Hcalls Hpos. inversion Hcalls as [|? ? Hx Ht]; subst.
      apply C; [assumption|].
      apply Forall_forall.
      apply (run_freq_call_frequencies (fun f => 0 < f)).
      + destruct x; auto. simpl in Hx. intro E. now apply nonzero_cases.
      + now apply Forall_forall. }
  destruct (G new) as [A [B C]]; [constructor | intros e [] |].
  split; [exact A|]. split; [exact B|].
  intros Hcalls. apply C; [assumption | intros e []].
Qed.


Lemma update_where_no_id (g : entry -> entry) (c : list entry) :
  update_where (fun e => id_in (page e) []) g c = c.
Proof. apply update_where_none. reflexivity. Qed.

(** When every frequency is positive, [get_next_pages] moves no row
    earlier: every row keeps its page, its frequency and its place, and
    its score does not fall, nor does the least score of the table.
    With [n = 0] it returns no page and changes nothing. *)
Theorem get_next_pages_moves_no_row_earlier (c : list entry) (n : nat) :
  (forall e, In e c -> 0 < frequency e) ->
  Forall2 (fun e e' =>
             page e' = page e
             /\ frequency e' = frequency e
             /\ score e <= score e')
          c (fst (get_next_pages c n))
  /\ _get_min_score c <= _get_min_score (fst (get_next_pages c n))
  /\ get_next_pages c 0 = (c, []).
Proof.
  intro Hpos.
  assert (F : Forall2 (fun e e' =>
                         page e' = page e
                         /\ frequency e' = frequency e
                         /\ score e <= score e')
                      c (fst (get_next_pages c n))).
  { unfold get_next_pages, update_where. simpl. apply Forall2_map_right.
    intros e He. destruct (id_in (page e) _); simpl.
    - split; [reflexivity|]. split; [reflexivity|].
      apply Qc_le_plus_nonneg. apply Qc_div_nonneg; [apply zero_le_one|].
      now apply Hpos.
    - split; [reflexivity|]. split; [reflexivity|]. apply Qcle_refl. }
  split; [exact F|]. split.
  - remember (fst (get_next_pages c n)) as c' eqn:Ec'. clear Ec'.
    pose proof (_get_min_score_is_min c) as M.
    pose proof (_get_min_score_is_min c') as M'.
    destruct F as [|x y t t' Hxy F].
    + apply Qcle_refl.
    + simpl in M, M'.
      destruct M as [_ Mlow]. destruct M' as [[e' [He' Ee']] _].
      rewrite <- Ee'.
      assert (Hex : exists e, In e (x :: t) /\ score e <= score e').
      { destruct He' as [<-|He'].
        - exists x. split; [now left | apply Hxy].
        - clear - F He'. induction F as [|a b l l' Hab F IH].
          + contradiction.
          + destruct He' as [<-|He'].
            * exists a. split; [right; now left | apply Hab].
            * destruct (IH He') as [e [[->|He] Hle]].
              -- exists e. split; [now left | assumption].
              -- exists e. split; [right; now right | assumption]. }
      destruct Hex as [e [He Hle]].
      eapply Qcle_trans; [apply Mlow; exact He | exact Hle].
  - unfold get_next_pages, next_rows, limit. simpl.
    now rewrite update_where_no_id.
Qed.

End FreqMore.

(** ** The running totals of the engine *)

Section HistorySums.
Import HitsDB OpicHits.

Lemma sum_app (l1 l2 : list Qc) : sum (l1 ++ l2) = sum l1 + sum l2.
Proof.
  induction l1 as [|x t IH]; simpl; [ring | rewrite IH; ring].
Qed.

Lemma fetchone_in_unique (A : Type) (key : A -> page_id) (l : list A) (x : A) :
  NoDup (map key l) -> In x l -> fetchone key (key x) l = Some x.
Proof.
  induction l as [|y t IH]; intros Hn Hin; simpl in *; [contradiction|].
  inversion Hn as [|? ? Hy Ht]; subst.
  destruct Hin as [->|Hin].
  - now rewrite String.eqb_refl.
  - destruct (String.eqb (key y) (key x)) eqn:E.
    + apply String.eqb_eq in E. exfalso. apply Hy. rewrite E. now apply in_map.
    + now apply IH.
Qed.

Lemma sum_update_key (col : page_id * HitsScore -> Qc) (p : page_id)
      (g : page_id * HitsScore -> page_id * HitsScore)
      (t : list (page_id * HitsScore)) (r : page_id * HitsScore) :
  NoDup (map fst t) ->
  fetchone fst p t = Some r ->
  sum (map col (update_where (fun x => String.eqb (fst x) p) g t))
  = sum (map col t) - col r + col (g r).
Proof.
  induction t as [|x t IH]; intros Hn Hf; simpl in *; [discriminate|].
  inversion Hn as [|? ? Hx Ht]; subst.
  destruct (String.eqb (fst x) p) eqn:E.
  - injection Hf as <-.
    change (map (fun x0 => if String.eqb (fst x0) p then g x0 else x0) t)
      with (update_where (fun x0 => String.eqb (fst x0) p) g t).
    rewrite update_where_none; [ring|].
    intros y Hy. apply String.eqb_neq. intro Ey. apply String.eqb_eq in E.
    apply Hx. rewrite E, <- Ey. now apply in_map.
  - change (map (fun x0 => if String.eqb (fst x0) p then g x0 else x0) t)
      with (update_where (fun x0 => String.eqb (fst x0) p) g t).
    rewrite (IH Ht Hf). ring.
Qed.

(** A column that the cash columns do not enter. *)
Section Column.
Variable col : HitsScore -> Qc.
Hypothesis col_cash :
  forall s hc ac,
    col (mkHitsScore (h_history s) hc (h_last s) (a_history s) ac (a_last s))
    = col s.

Lemma column_sum_add (c : SQLite) (p : page_id) (s : HitsScore) :
  column_sum col (add c p s)
  = if contains c p then column_sum col c else column_sum col c + col s.
Proof.
  unfold add. destruct (contains c p); [reflexivity|].
  unfold column_sum, rows, with_rows. simpl. rewrite map_app, sum_app. simpl.
  unfold stored. rewrite col_cash. ring.
Qed.

Lemma column_sum_increase_h_cash (c : SQLite) (ids : list page_id) (d : Qc) :
  column_sum col (increase_h_cash c ids d) = column_sum col c.
Proof.
  unfold column_sum, increase_h_cash, rows, with_rows. simpl. unfold update_where.
  rewrite map_map. f_equal. apply map_ext. intro r.
  destruct (id_in (fst r) ids); [|reflexivity].
  simpl. unfold more_h_cash. apply col_cash.
Qed.

Lemma column_sum_increase_a_cash (c : SQLite) (ids : list page_id) (d : Qc) :
  column_sum col (increase_a_cash c ids d) = column_sum col c.
Proof.
  unfold column_sum, increase_a_cash, rows, with_rows. simpl. unfold update_where.
  rewrite map_map. f_equal. apply map_ext. intro r.
  destruct (id_in (fst r) ids); [|reflexivity].
  simpl. unfold more_a_cash. apply col_cash.
Qed.

Lemma column_sum_set (c : SQLite) (p : page_id) (s old : HitsScore) :
  NoDup (map fst (rows c)) ->
  get c p = Some old ->
  column_sum col (set c p s) = column_sum col c - col old + col s.
Proof.
  intros Hn Hg. unfold get in Hg.
  destruct (fetchone fst p (rows c)) as [[q s0]|] eqn:E; [|discriminate].
  injection Hg as <-.
  unfold column_sum, set, rows, with_rows in *. simpl.
  rewrite (@sum_update_key (fun r => col (snd r)) p _ _ _ Hn E). simpl.
  unfold stored. now rewrite !col_cash.
Qed.

Lemma column_sum_set_after_a (c : SQLite) (ids : list page_id) (d : Qc)
      (p : page_id) (s old : HitsScore) :
  NoDup (map fst (rows c)) ->
  get c p = Some old ->
  column_sum col (set (increase_a_cash c ids d) p s) = column_sum col c - col old + col s.
Proof.
  intros Hn Hg.
  rewrite (@column_sum_set (increase_a_cash c ids d) p s (if id_in p ids then more_a_cash d old else old)).
  - rewrite column_sum_increase_a_cash. f_equal. f_equal.
    destruct (id_in p ids); [apply col_cash | reflexivity].
  - now rewrite rows_increase_a_cash.
  - rewrite get_increase_a_cash, Hg. reflexivity.
Qed.

Lemma column_sum_set_after_h (c : SQLite) (ids : list page_id) (d : Qc)
      (p : page_id) (s old : HitsScore) :
  NoDup (map fst (rows c)) ->
  get c p = Some old ->
  column_sum col (set (increase_h_cash c ids d) p s) = column_sum col c - col old + col s.
Proof.
  intros Hn Hg.
  rewrite (@column_sum_set (increase_h_cash c ids d) p s (if id_in p ids then more_h_cash d old else old)).
  - rewrite column_sum_increase_h_cash. f_equal. f_equal.
    destruct (id_in p ids); [apply col_cash | reflexivity].
  - now rewrite rows_increase_h_cash.
  - rewrite get_increase_h_cash, Hg. reflexivity.
Qed.

End Column.

Lemma get_h_total_column (c : SQLite) : get_h_total c = column_sum h_history c.
Proof. reflexivity. Qed.

Lemma get_a_total_column (c : SQLite) : get_a_total c = column_sum a_history c.
Proof. reflexivity. Qed.

End HistorySums.

Section Totals.
Import HitsDB OpicHits.
Variable graph : GraphDB.
Variable relevance : page_id -> option Qc.

Lemma add_page_totals (e : OpicHits) (p : page_id) :
  totals_in_step e -> totals_in_step (fst (add_page e p)).
Proof.
  intros [Hh Ha]. unfold add_page.
  destruct (contains (_scores e) p) eqn:E; simpl; [now split|].
  unfold totals_in_step. simpl.
  rewrite get_h_total_column, get_a_total_column.
  rewrite !column_sum_add by reflexivity. rewrite E. simpl.
  rewrite <- get_h_total_column, <- get_a_total_column, <- Hh, <- Ha.
  split; ring.
Qed.

Lemma add_pages_totals (l : list page_id) (e : OpicHits) :
  totals_in_step e ->
  totals_in_step (fold_left (fun e p => fst (add_page e p)) l e).
Proof.
  revert e. induction l as [|p t IH]; intros e He; simpl; [assumption|].
  apply IH. now apply add_page_totals.
Qed.

Lemma _get_page_score_ready (e : OpicHits) (p : page_id) :
  in_step e ->
  totals_in_step e ->
  exists e1 s,
    _get_page_score e p = (e1, Some s)
    /\ get (_scores e1) p = Some s
    /\ in_step e1
    /\ totals_in_step e1.
Proof.
  intros Hi Ht. destruct (_get_page_score_total e p) as (e1 & s & E & G & Hc).
  exists e1, s. split; [exact E|]. split; [exact G|].
  destruct Hc as [->|[_ ->]]; [now split|].
  split; [now apply add_page_in_step | now apply add_page_totals].
Qed.

Lemma hub_update_totals (e : OpicHits) (p : page_id) (e' : OpicHits) :
  in_step e ->
  totals_in_step e ->
  _update_page_h graph e p = Some e' ->
  totals_in_step e'.
Proof.
  intros Hi Ht.
  destruct (_get_page_score_ready p Hi Ht) as (e1 & s & E & G & [Hn _] & [Hh Ha]).
  unfold _update_page_h. rewrite E. intros [= <-].
  unfold totals_in_step. simpl.
  rewrite get_h_total_column, get_a_total_column.
  rewrite (column_sum_set_after_a h_history) with (old := s);
    [|reflexivity|assumption|assumption].
  rewrite (column_sum_set_after_a a_history) with (old := s);
    [|reflexivity|assumption|assumption].
  rewrite <- get_h_total_column, <- get_a_total_column, <- Hh, <- Ha.
  simpl. split; ring.
Qed.

Lemma authority_update_totals (e : OpicHits) (p : page_id) (e' : OpicHits) :
  in_step e ->
  totals_in_step e ->
  _update_page_a graph relevance e p = Some e' ->
  totals_in_step e'.
Proof.
  intros Hi Ht.
  destruct (_get_page_score_ready p Hi Ht) as (e1 & s & E & G & [Hn _] & [Hh Ha]).
  unfold _update_page_a. rewrite E. intros [= <-].
  unfold totals_in_step. simpl.
  rewrite get_h_total_column, get_a_total_column.
  rewrite (column_sum_set_after_h h_history) with (old := s);
    [|reflexivity|assumption|assumption].
  rewrite (column_sum_set_after_h a_history) with (old := s);
    [|reflexivity|assumption|assumption].
  rewrite <- get_h_total_column, <- get_a_total_column, <- Hh, <- Ha.
  simpl. split; ring.
Qed.

Lemma virtual_page_step_totals (e : OpicHits) :
  totals_in_step e -> totals_in_step (_update_virtual_page e).
Proof.
  intros Ht. unfold _update_virtual_page.
  destruct (0 <? _n_pages e)%nat; [|assumption]. exact Ht.
Qed.

End Totals.

(** ** From one step to every sequence of calls *)

Section Lifting.
Import HitsDB OpicHits.
Variable graph : GraphDB.
Variable relevance : page_id -> option Qc.
Variable I : OpicHits -> Prop.
Hypothesis I_add : forall e p, I e -> I (fst (add_page e p)).
Hypothesis I_hub :
  forall e p e', I e -> _update_page_h graph e p = Some e' -> I e'.
Hypothesis I_auth :
  forall e p e', I e -> _update_page_a graph relevance e p = Some e' -> I e'.
Hypothesis I_virtual : forall e, I e -> I (_update_virtual_page e).
Hypothesis I_list : forall e l, I e -> I (set_to_update e l).

Lemma apply_batch_lifts (l : list (Qc * page_id * bool)) (e e' : OpicHits) :
  I e -> apply_batch graph relevance e l = Some e' -> I e'.
Proof.
  revert e. induction l as [|x t IH]; intros e He; simpl.
  - now intros [= <-].
  - destruct (update_entry graph relevance e x) as [e1|] eqn:E; [|discriminate].
    apply IH. unfold update_entry in E. destruct (entry_is_hub x); eauto.
Qed.

Lemma iteration_lifts (k : nat) (e e' : OpicHits) (m : list (Qc * page_id * bool)) :
  I e -> iteration graph relevance k e = Some (e', m) -> I e'.
Proof.
  intro He. unfold iteration.
  destruct (apply_batch graph relevance e (select_batch e k)) as [e1|] eqn:E;
    [|discriminate].
  intros [= <- _]. apply I_virtual. eapply apply_batch_lifts; eauto.
Qed.

Lemma iterations_lifts (k n : nat) (e : OpicHits)
      (m : option (list (Qc * page_id * bool))) (e' : OpicHits)
      (m' : option (list (Qc * page_id * bool))) :
  I e -> iterations graph relevance k n e m = Some (e', m') -> I e'.
Proof.
  revert e m. induction n as [|n IH]; intros e m He; simpl.
  - now intros [= <- _].
  - destruct (iteration graph relevance k e) as [[e1 b]|] eqn:E; [|discriminate].
    apply IH. eapply iteration_lifts; eauto.
Qed.

Lemma state_after_lifts (k n : nat) (e e' : OpicHits) :
  I e -> state_after graph relevance k n e = Some e' -> I e'.
Proof.
  revert e. induction n as [|n IH]; intros e He; simpl.
  - now intros [= <-].
  - destruct (iteration graph relevance k e) as [[e1 b]|] eqn:E; [|discriminate].
    apply IH. eapply iteration_lifts; eauto.
Qed.

Lemma update_lifts (e : OpicHits) (n : nat) (e' : OpicHits)
      (r : list page_id * list page_id) :
  I e -> update graph relevance e n = Some (e', r) -> I e'.
Proof.
  intro He. unfold update.
  destruct (iterations graph relevance (n_updates e) n e None)
    as [[e1 [m|]]|] eqn:E; try discriminate.
  intros [= <- _]. apply I_list. eapply iterations_lifts; eauto.
Qed.

Lemma run_engine_call_lifts (e : OpicHits) (x : engine_call) (e' : OpicHits) :
  I e -> run_engine_call graph relevance e x = Some e' -> I e'.
Proof.
  intro He. destruct x as [p|p|n|p]; simpl.
  - intros [= <-]. now apply I_add.
  - intros [= <-]. now apply I_list.
  - destruct (update graph relevance e n) as [[e1 r]|] eqn:E; [|discriminate].
    simpl. intros [= <-]. eapply update_lifts; eauto.
  - unfold get_scores.
    destruct (_get_page_score_total e p) as (e1 & s & E & _ & Hc).
    rewrite E. simpl. intros [= <-].
    destruct Hc as [->|[_ ->]]; [assumption | now apply I_add].
Qed.

Lemma run_engine_lifts (calls : list engine_call) (e e' : OpicHits) :
  I e -> run_engine graph relevance e calls = Some e' -> I e'.
Proof.
  revert e. induction calls as [|x t IH]; intros e He; simpl.
  - now intros [= <-].
  - destruct (run_engine_call graph relevance e x) as [e1|] eqn:E; [|discriminate].
    apply IH. eapply run_engine_call_lifts; eauto.
Qed.

End Lifting.

(** ** What every sequence of calls keeps *)

Section TotalsAlongRuns.
Import HitsDB OpicHits.
Variable graph : GraphDB.
Variable relevance : page_id -> option Qc.

Lemma run_engine_totals (calls : list engine_call) (e e' : OpicHits) :
  in_step e /\ totals_in_step e ->
  run_engine graph relevance e calls = Some e' ->
  in_step e' /\ totals_in_step e'.
Proof.
  apply (@run_engine_lifts graph relevance
           (fun e => in_step e /\ totals_in_step e)).
  - intros e0 p [A B]. split; [now apply add_page_in_step | now apply add_page_totals].
  - intros e0 p e1 [A B] E. split.
    + eapply hub_update_in_step; eauto.
    + eapply hub_update_totals; eauto.
  - intros e0 p e1 [A B] E. split.
    + eapply authority_update_in_step; eauto.
    + eapply authority_update_totals; eauto.
  - intros e0 [A B]. split.
    + now apply virtual_page_step_in_step.
    + now apply virtual_page_step_totals.
  - intros e0 l [A B]. split; assumption.
Qed.

Lemma init_totals (c : SQLite) (w : option Qc) : totals_in_step (init graph c w).
Proof. unfold init. apply add_pages_totals. split; reflexivity. Qed.

(** Whatever calls are made on an engine built over a score store, the
    engine's counters stay those of the store: no page has two rows,
    [_n_pages] is the number of rows, [_h_total] and [_a_total] are the
    sums of the stored hub and authority histories, and [h_mean] and
    [a_mean] are these sums over the number of rows. *)
Theorem counters_follow_the_store
        (c : SQLite) (w : option Qc) (calls : list engine_call) (e' : OpicHits) :
  NoDup (map fst (rows c)) ->
  run_engine graph relevance (init graph c w) calls = Some e' ->
  NoDup (map fst (rows (_scores e')))
  /\ _n_pages e' = get_count (_scores e')
  /\ _h_total e' = get_h_total (_scores e')
  /\ _a_total e' = get_a_total (_scores e')
  /\ ((0 < get_count (_scores e'))%nat ->
      h_mean e' * of_nat (get_count (_scores e')) = get_h_total (_scores e')
      /\ a_mean e' * of_nat (get_count (_scores e')) = get_a_total (_scores e')).
Proof.
  intros Hn Hrun.
  destruct (@run_engine_totals calls (init graph c w) e') as [[A B] [Hh Ha]];
    [split; [now apply init_in_step | apply init_totals] | assumption |].
  split; [exact A|]. split; [exact B|]. split; [exact Hh|]. split; [exact Ha|].
  intro Hpos. unfold h_mean, a_mean. unfold get_count in *. rewrite B.
  apply Nat.ltb_lt in Hpos as E. rewrite E. rewrite <- Hh, <- Ha.
  split; field; now apply of_nat_neq_0.
Qed.

End TotalsAlongRuns.

Section VirtualTime.
Import HitsDB OpicHits.
Variable graph : GraphDB.
Variable relevance : page_id -> option Qc.

(** Time minus the history handed out so far. *)
Lemma _get_page_score_fields (e : OpicHits) (p : page_id) :
  exists e1 s,
    _get_page_score e p = (e1, Some s)
    /\ _time_window e1 = _time_window e
    /\ _time e1 = _time e
    /\ _h_total e1 = _h_total e
    /\ _a_total e1 = _a_total e.
Proof.
  destruct (_get_page_score_total e p) as (e1 & s & E & _ & Hc).
  exists e1, s. split; [exact E|].
  destruct Hc as [->|[Hc ->]]; [auto|].
  unfold add_page. rewrite Hc. simpl. auto.
Qed.

Lemma no_window_fields (e e1 : OpicHits) :
  _time_window e1 = _time_window e -> no_window e1 = no_window e.
Proof. unfold no_window. now intros ->. Qed.

Lemma hub_update_time (e : OpicHits) (p : page_id) (e' : OpicHits) :
  no_window e = true ->
  _update_page_h graph e p = Some e' ->
  no_window e' = true
  /\ _time e' - (_h_total e' + _a_total e') = _time e - (_h_total e + _a_total e).
Proof.
  intros Hw.
  destruct (_get_page_score_fields e p) as (e1 & s & E & Ew & Et & Eh & Ea).
  pose proof (no_window_fields e e1 Ew) as Hw1. rewrite Hw in Hw1.
  unfold _update_page_h. rewrite E. intros [= <-]. split.
  - unfold no_window in *. simpl. exact Hw1.
  - simpl. rewrite Hw1. rewrite Et, Eh, Ea. ring.
Qed.

Lemma authority_update_time (e : OpicHits) (p : page_id) (e' : OpicHits) :
  no_window e = true ->
  _update_page_a graph relevance e p = Some e' ->
  no_window e' = true
  /\ _time e' - (_h_total e' + _a_total e') = _time e - (_h_total e + _a_total e).
Proof.
  intros Hw.
  destruct (_get_page_score_fields e p) as (e1 & s & E & Ew & Et & Eh & Ea).
  pose proof (no_window_fields e e1 Ew) as Hw1. rewrite Hw in Hw1.
  unfold _update_page_a. rewrite E. intros [= <-]. split.
  - unfold no_window in *. simpl. exact Hw1.
  - simpl. rewrite Hw1. rewrite Et, Eh, Ea. ring.
Qed.

(** Without a time window the virtual time is the history handed out:
    over any sequence of calls [_time] advances by what [_h_total] and
    [_a_total] gain together. *)
Theorem time_advances_with_total_history
        (e : OpicHits) (calls : list engine_call) (e' : OpicHits) :
  no_window e = true ->
  run_engine graph relevance e calls = Some e' ->
  _time e' - _time e = (_h_total e' - _h_total e) + (_a_total e' - _a_total e).
Proof.
  intros Hw Hrun.
  assert (G : no_window e' = true
              /\ _time e' - (_h_total e' + _a_total e')
                 = _time e - (_h_total e + _a_total e)).
  { revert Hrun.
    apply (@run_engine_lifts graph relevance
             (fun x => no_window x = true
                       /\ _time x - (_h_total x + _a_total x)
                          = _time e - (_h_total e + _a_total e))).
    - intros e0 p [A B]. unfold add_page.
      destruct (contains (_scores e0) p); simpl; [now split|].
      split; [exact A | exact B].
    - intros e0 p e1 [A B] E.
      destruct (hub_update_time e0 p A E) as [A1 B1]. split; [exact A1|].
      now rewrite B1.
    - intros e0 p e1 [A B] E.
      destruct (authority_update_time e0 p A E) as [A1 B1]. split; [exact A1|].
      now rewrite B1.
    - intros e0 [A B]. unfold _update_virtual_page.
      destruct (0 <? _n_pages e0)%nat; [|now split].
      split; [exact A | exact B].
    - intros e0 l [A B]. split; [exact A | exact B].
    - split; [exact Hw | reflexivity]. }
  destruct G as [_ G].
  replace (_time e' - _time e)
    with (_time e' - (_h_total e' + _a_total e') + (_h_total e' + _a_total e')
          - _time e) by ring.
  rewrite G. ring.
Qed.

End VirtualTime.

Section RestartScores.
Import HitsDB OpicHits.

Lemma add_pages_h_total (l : list page_id) (e : OpicHits) :
  _h_total (fold_left (fun e p => fst (add_page e p)) l e) = _h_total e
  /\ _a_total (fold_left (fun e p => fst (add_page e p)) l e) = _a_total e.
Proof.
  revert e. induction l as [|p t IH]; intros e; simpl; [now split|].
  destruct (IH (fst (add_page e p))) as [A B]. rewrite A, B.
  unfold add_page. destruct (contains (_scores e) p); simpl; now split.
Qed.

(** Stopping and restarting keeps the relative scores: the new engine
    starts with the totals the old one had, and [get_scores] gives for
    every scored page the pair the old engine computes from its record. *)
Theorem restart_keeps_relative_scores (graph : GraphDB) (e : OpicHits) :
  _closed e = false ->
  opened (_scores e) ->
  totals_in_step e ->
  exists e',
    restart graph e = Some e'
    /\ _h_total e' = _h_total e
    /\ _a_total e' = _a_total e
    /\ (forall p s,
          get (_scores e) p = Some s ->
          get_scores e' p = Some (e', _relative_score e s)).
Proof.
  intros Hc Ho [Hh Ha]. unfold restart, OpicHits.close. simpl. rewrite Hc.
  eexists. split; [reflexivity|].
  destruct (reopen_restores Ho) as [Er _].
  assert (Th : _h_total (init graph (connect (HitsDB.close (_scores e)))
                              (_time_window e)) = _h_total e).
  { unfold init. destruct (add_pages_h_total (inodes graph)
      (mkOpicHits (connect (HitsDB.close (_scores e)))
         (get_count (connect (HitsDB.close (_scores e))))
         (get_h_total (connect (HitsDB.close (_scores e))))
         (get_a_total (connect (HitsDB.close (_scores e))))
         [] false (_time_window e) 0 (mkHitsScore 0 1 0 0 1 0))) as [A _].
    rewrite A. simpl. unfold get_h_total. rewrite Er. now rewrite Hh. }
  assert (Ta : _a_total (init graph (connect (HitsDB.close (_scores e)))
                              (_time_window e)) = _a_total e).
  { unfold init. destruct (add_pages_h_total (inodes graph)
      (mkOpicHits (connect (HitsDB.close (_scores e)))
         (get_count (connect (HitsDB.close (_scores e))))
         (get_h_total (connect (HitsDB.close (_scores e))))
         (get_a_total (connect (HitsDB.close (_scores e))))
         [] false (_time_window e) 0 (mkHitsScore 0 1 0 0 1 0))) as [_ A].
    rewrite A. simpl. unfold get_a_total. rewrite Er. now rewrite Ha. }
  split; [exact Th|]. split; [exact Ta|].
  intros p s Hg. unfold get_scores.
  rewrite (@_get_page_score_scored _ p s).
  - unfold _relative_score. now rewrite Th, Ta.
  - unfold init. apply add_pages_get. simpl. now rewrite reopen_get.
Qed.

End RestartScores.

(** ** The batch of one pass and the cash it moves *)

Section ListFacts.
Variable A : Type.

Lemma In_limit (n : nat) (l : list A) (x : A) : In x (limit n l) -> In x l.
Proof.
  intro H. rewrite <- (firstn_skipn n l). apply in_or_app. now left.
Qed.

Lemma Permutation_filter (f : A -> bool) (l l' : list A) :
  Permutation l l' -> Permutation (filter f l) (filter f l').
Proof.
  induction 1 as [|x l l' H IH|x y l|l l' l'' H1 IH1 H2 IH2]; simpl.
  - constructor.
  - destruct (f x); [now constructor | assumption].
  - destruct (f x), (f y); try apply Permutation_refl. apply perm_swap.
  - eapply Permutation_trans; eauto.
Qed.

Lemma NoDup_limit (B : Type) (g : A -> B) (n : nat) (l : list A) :
  NoDup (map g l) -> NoDup (map g (limit n l)).
Proof.
  intro H. rewrite <- (firstn_skipn n l), map_app in H.
  now apply NoDup_app_remove_r in H.
Qed.

Lemma NoDup_filter_limit (B : Type) (g : A -> B) (f : A -> bool) (n : nat)
      (l : list A) :
  NoDup (map g (filter f l)) -> NoDup (map g (filter f (limit n l))).
Proof.
  intro H. rewrite <- (firstn_skipn n l), filter_app, map_app in H.
  now apply NoDup_app_remove_r in H.
Qed.

Lemma filter_all (f : A -> bool) (l : list A) :
  (forall x, In x l -> f x = true) -> filter f l = l.
Proof.
  induction l as [|x t IH]; intro H; simpl; [reflexivity|].
  rewrite (H x) by now left. f_equal. apply IH. intros y Hy. apply H. now right.
Qed.

Lemma filter_none (f : A -> bool) (l : list A) :
  (forall x, In x l -> f x = false) -> filter f l = [].
Proof.
  induction l as [|x t IH]; intro H; simpl; [reflexivity|].
  rewrite (H x) by now left. apply IH. intros y Hy. apply H. now right.
Qed.

End ListFacts.

Section Batches.
Import HitsDB OpicHits.

Lemma get_highest_h_cash_pages (c : SQLite) (k : nat) :
  map fst (get_highest_h_cash c k)
  = map fst (limit k (order_by_desc h_cash (rows c))).
Proof. unfold get_highest_h_cash. rewrite map_map. reflexivity. Qed.

Lemma get_highest_a_cash_pages (c : SQLite) (k : nat) :
  map fst (get_highest_a_cash c k)
  = map fst (limit k (order_by_desc a_cash (rows c))).
Proof. unfold get_highest_a_cash. rewrite map_map. reflexivity. Qed.

Lemma top_rows_in (col : HitsScore -> Qc) (c : SQLite) (k : nat) (p : page_id) :
  In p (map fst (limit k (order_by_desc col (rows c)))) ->
  In p (map fst (rows c)).
Proof.
  intro H. apply in_map_iff in H as [r [<- Hr]]. apply in_map.
  apply In_limit in Hr. unfold order_by_desc in Hr.
  apply in_rev.
  eapply Permutation_in; [apply order_by_perm | exact Hr].
Qed.

Lemma top_rows_unique (col : HitsScore -> Qc) (c : SQLite) (k : nat) :
  NoDup (map fst (rows c)) ->
  NoDup (map fst (limit k (order_by_desc col (rows c)))).
Proof.
  intro H. apply NoDup_limit. unfold order_by_desc.
  eapply Permutation_NoDup; [|exact H].
  apply Permutation_map.
  eapply Permutation_trans; [apply Permutation_rev|].
  apply Permutation_sym, order_by_perm.
Qed.

Lemma select_batch_scored (e : OpicHits) (k : nat) (x : Qc * page_id * bool) :
  In x (select_batch e k) -> scored e (entry_page x).
Proof.
  unfold select_batch. intro H. apply In_limit in H.
  apply (Permutation_in _ (order_by_perm _ _)) in H.
  apply in_app_or in H as [H|H]; apply in_map_iff in H as [y [<- Hy]];
    unfold entry_page, scored; simpl.
  - apply (@top_rows_in h_cash _ k). rewrite <- get_highest_h_cash_pages.
    now apply in_map.
  - apply (@top_rows_in a_cash _ k). rewrite <- get_highest_a_cash_pages.
    now apply in_map.
Qed.

Lemma select_batch_length (e : OpicHits) (k : nat) :
  (List.length (hubs_of (select_batch e k))
   + List.length (auths_of (select_batch e k)) <= k)%nat.
Proof.
  unfold hubs_of, auths_of. rewrite !length_map, filter_length.
  unfold select_batch, limit. apply firstn_le_length.
Qed.

Lemma select_batch_unique (e : OpicHits) (k : nat) :
  NoDup (map fst (rows (_scores e))) ->
  NoDup (hubs_of (select_batch e k)) /\ NoDup (auths_of (select_batch e k)).
Proof.
  intro Hn. unfold hubs_of, auths_of, select_batch.
  set (hs := map (fun x : page_id * Qc => (snd x, fst x, true))
                 (get_highest_h_cash (_scores e) k)).
  set (au := map (fun x : page_id * Qc => (snd x, fst x, false))
                 (get_highest_a_cash (_scores e) k)).
  assert (Hh : forall x, In x hs -> entry_is_hub x = true).
  { intros x Hx. apply in_map_iff in Hx as [y [<- _]]. reflexivity. }
  assert (Ha : forall x, In x au -> entry_is_hub x = false).
  { intros x Hx. apply in_map_iff in Hx as [y [<- _]]. reflexivity. }
  split; apply NoDup_filter_limit;
    (eapply Permutation_NoDup;
     [apply Permutation_map, Permutation_filter, Permutation_sym, order_by_perm|]);
    rewrite filter_app.
  - rewrite (filter_all _ _ Hh), (filter_none _ _ Ha), app_nil_r.
    unfold hs. rewrite map_map. simpl.
    change (map (fun x : page_id * Qc => entry_page (snd x, fst x, true))
                (get_highest_h_cash (_scores e) k))
      with (map fst (get_highest_h_cash (_scores e) k)).
    rewrite get_highest_h_cash_pages. now apply top_rows_unique.
  - rewrite filter_none, filter_all; simpl.
    + unfold au. rewrite map_map.
      change (map (fun x : page_id * Qc => entry_page (snd x, fst x, false))
                  (get_highest_a_cash (_scores e) k))
        with (map fst (get_highest_a_cash (_scores e) k)).
      rewrite get_highest_a_cash_pages. now apply top_rows_unique.
    + intros x Hx. now rewrite (Ha x Hx).
    + intros x Hx. now rewrite (Hh x Hx).
Qed.

End Batches.

Section Keys.
Import HitsDB OpicHits.
Variable graph : GraphDB.
Variable relevance : page_id -> option Qc.

Lemma hub_update_keys (e : OpicHits) (p : page_id) (e' : OpicHits) :
  scored e p ->
  _update_page_h graph e p = Some e' ->
  map fst (rows (_scores e')) = map fst (rows (_scores e)).
Proof.
  intros Hp. destruct (@scored_get _ _ Hp) as [s Hs].
  unfold _update_page_h. rewrite (@_get_page_score_scored _ _ _ Hs).
  intros [= <-]. simpl. now rewrite rows_set, rows_increase_a_cash.
Qed.

Lemma authority_update_keys (e : OpicHits) (p : page_id) (e' : OpicHits) :
  scored e p ->
  _update_page_a graph relevance e p = Some e' ->
  map fst (rows (_scores e')) = map fst (rows (_scores e)).
Proof.
  intros Hp. destruct (@scored_get _ _ Hp) as [s Hs].
  unfold _update_page_a. rewrite (@_get_page_score_scored _ _ _ Hs).
  intros [= <-]. simpl. now rewrite rows_set, rows_increase_h_cash.
Qed.

Lemma virtual_page_step_keys (e : OpicHits) :
  rows (_scores (_update_virtual_page e)) = rows (_scores e).
Proof.
  unfold _update_virtual_page. destruct (0 <? _n_pages e)%nat; reflexivity.
Qed.

Lemma hub_update_keeps_scored (e : OpicHits) (p q : page_id) (e' : OpicHits) :
  scored e q -> _update_page_h graph e p = Some e' -> scored e' q.
Proof.
  intros Hq. rewrite _update_page_h_after_add. intro E.
  unfold scored. rewrite (@hub_update_keys _ p e' (add_page_scores_it e p) E).
  now apply add_page_keeps_scored.
Qed.

Lemma authority_update_keeps_scored (e : OpicHits) (p q : page_id) (e' : OpicHits) :
  scored e q -> _update_page_a graph relevance e p = Some e' -> scored e' q.
Proof.
  intros Hq. rewrite _update_page_a_after_add. intro E.
  unfold scored. rewrite (@authority_update_keys _ p e' (add_page_scores_it e p) E).
  now apply add_page_keeps_scored.
Qed.

Lemma iteration_keeps_scored (k : nat) (e e' : OpicHits)
      (m : list (Qc * page_id * bool)) (q : page_id) :
  scored e q -> iteration graph relevance k e = Some (e', m) -> scored e' q.
Proof.
  apply (@iteration_lifts graph relevance (fun x => scored x q)).
  - intros e0 p e1 H E. eapply hub_update_keeps_scored; eauto.
  - intros e0 p e1 H E. eapply authority_update_keeps_scored; eauto.
  - intros e0 H. unfold scored. now rewrite virtual_page_step_keys.
Qed.

Lemma state_after_in_step (k n : nat) (e e' : OpicHits) :
  in_step e -> state_after graph relevance k n e = Some e' -> in_step e'.
Proof.
  apply (@state_after_lifts graph relevance in_step).
  - intros e0 p e1 H E. eapply hub_update_in_step; eauto.
  - intros e0 p e1 H E. eapply authority_update_in_step; eauto.
  - apply virtual_page_step_in_step.
Qed.

(** [update] returns pages that have a score row, no page twice in
    either list, and at most [20*max(1, len(_to_update))] pages in
    all. *)
Theorem update_returns_scored_pages_once
        (e : OpicHits) (n : nat) (e' : OpicHits) (hubs auths : list page_id) :
  in_step e ->
  update graph relevance e (S n) = Some (e', (hubs, auths)) ->
  NoDup hubs
  /\ NoDup auths
  /\ (List.length hubs + List.length auths <= n_updates e)%nat
  /\ (forall p, In p hubs \/ In p auths -> scored e' p).
Proof.
  intros Hi. unfold update. rewrite iterations_last.
  destruct (state_after graph relevance (n_updates e) n e) as [e_n|] eqn:En;
    [|discriminate].
  destruct (iteration graph relevance (n_updates e) e_n) as [[e1 b]|] eqn:Ei;
    [|discriminate].
  destruct (iteration_total graph relevance (n_updates e) e_n) as [e2 Ei'].
  rewrite Ei in Ei'. injection Ei' as <- ->.
  intros [= <- <- <-].
  pose proof (@state_after_in_step _ _ _ _ Hi En) as [Hn _].
  destruct (@select_batch_unique e_n (n_updates e) Hn) as [Nh Na].
  split; [exact Nh|]. split; [exact Na|].
  split; [apply select_batch_length|].
  intros p Hp. unfold scored. simpl.
  apply (@iteration_keeps_scored _ _ _ _ p) with (2 := Ei).
  destruct Hp as [Hp|Hp].
  - apply hubs_of_subset in Hp. apply in_map_iff in Hp as [x [<- Hx]].
    now apply select_batch_scored in Hx.
  - apply auths_of_subset in Hp. apply in_map_iff in Hp as [x [<- Hx]].
    now apply select_batch_scored in Hx.
Qed.

(** *** Cash over a whole [update] *)

Lemma links_closed_keys (e e' : OpicHits) :
  map fst (rows (_scores e')) = map fst (rows (_scores e)) ->
  links_closed graph e -> links_closed graph e'.
Proof.
  intros E H p. unfold links_closed, neighbours_ok, scored in *.
  rewrite E. apply H.
Qed.

Lemma update_entry_conserves (e : OpicHits) (x : Qc * page_id * bool) :
  in_step e ->
  links_closed graph e ->
  scored e (entry_page x) ->
  exists e',
    update_entry graph relevance e x = Some e'
    /\ in_step e'
    /\ map fst (rows (_scores e')) = map fst (rows (_scores e))
    /\ total_cash e' = total_cash e.
Proof.
  intros Hi Hl Hx. destruct (Hl _ Hx) as [[Ns [Ps [Ss _]]] [Np [Pp [Sp _]]]].
  unfold update_entry. destruct (entry_is_hub x).
  - destruct (@hub_update_conserves graph e (entry_page x)) as [e' [E T]];
      try assumption; [apply Hi|].
    exists e'. split; [exact E|]. split; [eapply hub_update_in_step; eauto|].
    split; [eapply hub_update_keys; eauto | exact T].
  - destruct (@authority_update_conserves graph relevance e (entry_page x))
      as [e' [E T]]; try assumption; [apply Hi|].
    exists e'. split; [exact E|]. split; [eapply authority_update_in_step; eauto|].
    split; [eapply authority_update_keys; eauto | exact T].
Qed.

Lemma apply_batch_conserves (l : list (Qc * page_id * bool)) (e : OpicHits) :
  in_step e ->
  links_closed graph e ->
  (forall x, In x l -> scored e (entry_page x)) ->
  exists e',
    apply_batch graph relevance e l = Some e'
    /\ in_step e'
    /\ map fst (rows (_scores e')) = map fst (rows (_scores e))
    /\ total_cash e' = total_cash e.
Proof.
  revert e. induction l as [|x t IH]; intros e Hi Hl Hs; simpl.
  - exists e. auto.
  - destruct (@update_entry_conserves e x Hi Hl (Hs x (or_introl eq_refl)))
      as (e1 & E & Hi1 & K1 & T1).
    rewrite E.
    destruct (IH e1 Hi1 (@links_closed_keys e e1 K1 Hl)) as (e' & E' & Hi' & K' & T').
    + intros y Hy. unfold scored. rewrite K1. apply Hs. now right.
    + exists e'. split; [exact E'|]. split; [exact Hi'|].
      split; [now rewrite K', K1 | now rewrite T', T1].
Qed.

Lemma iteration_conserves (k : nat) (e : OpicHits) :
  in_step e ->
  links_closed graph e ->
  exists e',
    iteration graph relevance k e = Some (e', select_batch e k)
    /\ in_step e'
    /\ map fst (rows (_scores e')) = map fst (rows (_scores e))
    /\ total_cash e' = total_cash e.
Proof.
  intros Hi Hl.
  destruct (@apply_batch_conserves (select_batch e k) e Hi Hl)
    as (e1 & E & Hi1 & K1 & T1).
  - intros x. apply select_batch_scored.
  - exists (_update_virtual_page e1). unfold iteration. rewrite E.
    split; [reflexivity|]. split; [now apply virtual_page_step_in_step|].
    split.
    + now rewrite virtual_page_step_keys.
    + rewrite virtual_page_step_conserves; [exact T1 | apply Hi1].
Qed.

Lemma iterations_conserve (k n : nat) (e : OpicHits)
      (m : option (list (Qc * page_id * bool))) (e' : OpicHits)
      (m' : option (list (Qc * page_id * bool))) :
  in_step e ->
  links_closed graph e ->
  iterations graph relevance k n e m = Some (e', m') ->
  map fst (rows (_scores e')) = map fst (rows (_scores e))
  /\ total_cash e' = total_cash e.
Proof.
  revert e m. induction n as [|n IH]; intros e m Hi Hl; simpl.
  - intros [= <- _]. now split.
  - destruct (@iteration_conserves k e Hi Hl) as (e1 & E & Hi1 & K1 & T1).
    rewrite E. intro H.
    destruct (IH e1 _ Hi1 (@links_closed_keys e e1 K1 Hl) H) as [K T].
    split; [now rewrite K, K1 | now rewrite T, T1].
Qed.

(** On a graph whose links stay among the scored pages, with no page
    linking to itself and no link listed twice, a call of [update] leaves
    the total cash of the scored pages and the virtual page as it was,
    and adds no page. *)
Theorem update_conserves_total_cash (e : OpicHits) (n : nat) :
  in_step e ->
  links_closed graph e ->
  exists e' r,
    update graph relevance e (S n) = Some (e', r)
    /\ total_cash e' = total_cash e
    /\ map fst (rows (_scores e')) = map fst (rows (_scores e)).
Proof.
  intros Hi Hl. destruct (update_total graph relevance e n) as (e' & r & E).
  exists e', r. split; [exact E|].
  unfold update in E.
  destruct (iterations graph relevance (n_updates e) (S n) e None)
    as [[e1 [m|]]|] eqn:Ei; try discriminate.
  injection E as <- _.
  destruct (@iterations_conserve _ _ _ _ _ _ Hi Hl Ei) as [K T].
  split; [exact T | exact K].
Qed.

End Keys.

(** ** Reading scores *)

Section ScoreReads.
Import HitsDB OpicHits.

Lemma zero_div (x : Qc) : 0 / x = 0.
Proof. unfold Qcdiv. ring. Qed.

Lemma _relative_score_zero (e : OpicHits) (s : HitsScore) :
  h_history s = 0 -> a_history s = 0 -> _relative_score e s = (0, 0).
Proof.
  intros Hh Ha. unfold _relative_score. rewrite Hh, Ha, !zero_div.
  destruct (Qc_ltb 0 (_h_total e)), (Qc_ltb 0 (_a_total e)); reflexivity.
Qed.

(** Asking for the scores of a page that has no row adds the page: the
    call returns [(0, 0)], the page is counted and holds the record of a
    new page afterwards, and the other pages are left alone. *)
Theorem get_scores_adds_unknown_page (e : OpicHits) (p : page_id) :
  contains (_scores e) p = false ->
  exists e',
    get_scores e p = Some (e', (0, 0))
    /\ _n_pages e' = S (_n_pages e)
    /\ get (_scores e') p = Some (new_score e)
    /\ (forall q, q <> p -> get (_scores e') q = get (_scores e) q)
    /\ get_scores e' p = Some (e', (0, 0)).
Proof.
  intro Hc. exists (fst (add_page e p)).
  assert (G : get (_scores (fst (add_page e p))) p = Some (new_score e)).
  { unfold add_page. rewrite Hc. simpl. rewrite get_add, Hc.
    now rewrite String.eqb_refl. }
  split.
  { unfold get_scores. rewrite (_get_page_score_new _ _ Hc).
    now rewrite _relative_score_zero. }
  split; [unfold add_page; now rewrite Hc|].
  split; [exact G|]. split.
  - intros q Hq. unfold add_page. rewrite Hc. simpl. rewrite get_add, Hc.
    apply String.eqb_neq in Hq. now rewrite Hq.
  - unfold get_scores. rewrite (@_get_page_score_scored _ _ _ G).
    now rewrite _relative_score_zero.
Qed.

Lemma get_of_row (c : SQLite) (r : page_id * HitsScore) :
  NoDup (map fst (rows c)) ->
  In r (rows c) ->
  get c (fst r) = Some (shown c (snd r)).
Proof.
  intros Hn Hr. unfold get.
  rewrite (@fetchone_in_unique _ fst (rows c) r Hn Hr).
  destruct r as [q s]. reflexivity.
Qed.

(** [iscores] walks the pages in the order of their rows and yields for
    each of them the pair [get_scores] returns: the cash column that
    [iteritems] gets wrong does not enter the relative scores. *)
Theorem iscores_agree_with_get_scores (e : OpicHits) :
  NoDup (map fst (rows (_scores e))) ->
  map (fun x : page_id * Qc * Qc => fst (fst x)) (iscores e)
  = map fst (rows (_scores e))
  /\ Forall (fun x : page_id * Qc * Qc =>
               get_scores e (fst (fst x)) = Some (e, (snd (fst x), snd x)))
            (iscores e).
Proof.
  intro Hn. unfold iscores, iteritems. rewrite !map_map. split.
  - reflexivity.
  - apply Forall_forall. intros x Hx.
    apply in_map_iff in Hx as [r [<- Hr]]. simpl.
    unfold get_scores.
    rewrite (@_get_page_score_scored _ _ _ (get_of_row _ _ Hn Hr)).
    reflexivity.
Qed.

Lemma sum_map_div (A : Type) (f : A -> Qc) (t : Qc) (l : list A) :
  sum (map (fun x => f x / t) l) = sum (map f l) / t.
Proof.
  induction l as [|x l IH]; simpl.
  - now rewrite zero_div.
  - rewrite IH. unfold Qcdiv. ring.
Qed.

Lemma div_same (t : Qc) : 0 < t -> t / t = 1.
Proof.
  intro H. unfold Qcdiv. apply Qcmult_inv_r. intro E. rewrite E in H.
  revert H. apply Qcle_not_lt, Qcle_refl.
Qed.

(** The relative scores are normalised: when the running totals are the
    sums of the stored histories, the hub scores that [iscores] yields
    add up to 1 once some hub history exists, and so do the authority
    scores. *)
Theorem relative_scores_sum_to_one (e : OpicHits) :
  totals_in_step e ->
  (0 < _h_total e ->
   sum (map (fun x : page_id * Qc * Qc => snd (fst x)) (iscores e)) = 1)
  /\ (0 < _a_total e ->
      sum (map (fun x : page_id * Qc * Qc => snd x) (iscores e)) = 1).
Proof.
  intros [Hh Ha]. unfold iscores, iteritems, _relative_score.
  rewrite !map_map. simpl. split; intro Hpos.
  - apply Qc_ltb_lt in Hpos as E. rewrite E.
    rewrite (sum_map_div (fun r : page_id * HitsScore => h_history (snd r))).
    fold (get_h_total (_scores e)). rewrite <- Hh. now apply div_same.
  - apply Qc_ltb_lt in Hpos as E. rewrite E.
    rewrite (sum_map_div (fun r : page_id * HitsScore => a_history (snd r))).
    fold (get_a_total (_scores e)). rewrite <- Ha. now apply div_same.
Qed.

End ScoreReads.

(** ** The time window *)

Section TimeWindow.
Import HitsDB OpicHits.

Lemma this_eq (a b : Qc) : a = b -> (this a == this b)%Q.
Proof. now intros ->. Qed.

Lemma one_le_quotient (w delta : Qc) : 0 < w -> w <= delta -> 1 <= delta / w.
Proof.
  intros Hw Hd. unfold Qcdiv.
  rewrite <- (Qcmult_inv_r w).
  - apply Qcmult_le_compat_r; [exact Hd|].
    apply Qclt_le_weak. now apply Qc_inv_pos.
  - intro E. rewrite E in Hw. revert Hw. apply Qcle_not_lt, Qcle_refl.
Qed.

(** With a time window [w > 0], a step that moves [cash] into a history
    [delta >= 0] after the last one leaves a history between 0 and what
    it would be without a window; at [delta = 0] it is [history + cash],
    and from [delta = w] on the old history is dropped and the new one is
    [cash * w / delta]. *)
Theorem _history_interpolator_bounds (e : OpicHits) (w delta history cash : Qc) :
  _time_window e = Some w ->
  0 < w ->
  0 <= delta ->
  0 <= history ->
  0 <= cash ->
  0 <= _history_interpolator e delta history cash
  /\ _history_interpolator e delta history cash <= history + cash
  /\ (delta = 0 -> _history_interpolator e delta history cash = history + cash)
  /\ (w <= delta -> _history_interpolator e delta history cash = cash * w / delta).
Proof.
  intros Ew Hw Hd Hh Hc. unfold _history_interpolator, window. rewrite Ew.
  assert (Hf : 0 <= delta / w) by now apply Qc_div_nonneg.
  assert (Hw0 : w <> 0).
  { intro E. rewrite E in Hw. revert Hw. apply Qcle_not_lt, Qcle_refl. }
  assert (B : 0 <= (if Qc_ltb (delta / w) 1
                    then history * (1 - delta / w) + cash
                    else cash / (delta / w))
              /\ (if Qc_ltb (delta / w) 1
                  then history * (1 - delta / w) + cash
                  else cash / (delta / w)) <= history + cash).
  { remember (delta / w) as f eqn:Ef. clear Ef.
    destruct (Qc_ltb f 1) eqn:L.
    - apply Qc_ltb_lt in L. split; to_Q; nra.
    - apply Qc_ltb_ge in L.
      assert (Hf0 : 0 < f).
      { eapply Qclt_le_trans; [|exact L]. unfold Qclt. simpl. lra. }
      assert (Hj : 0 < / f) by now apply Qc_inv_pos.
      assert (Hfj : f * / f = 1).
      { apply Qcmult_inv_r. intro E. rewrite E in Hf0. revert Hf0.
        apply Qcle_not_lt, Qcle_refl. }
      apply this_eq in Hfj. rewrite this_mult in Hfj.
      unfold Qcdiv. remember (/ f) as j eqn:Ej. clear Ej.
      split; to_Q; nra. }
  destruct B as [B1 B2]. split; [exact B1|]. split; [exact B2|]. split.
  - intros ->. rewrite zero_div.
    assert (E : Qc_ltb 0 1 = true) by (apply Qc_ltb_lt; unfold Qclt; simpl; lra).
    rewrite E. ring.
  - intro Hwd. pose proof (one_le_quotient Hw Hwd) as H1.
    apply Qc_ltb_ge in H1. rewrite H1.
    assert (Hd0 : delta <> 0).
    { intro E. rewrite E in Hwd.
      apply (Qclt_not_le _ _ Hw). exact Hwd. }
    field. split; assumption.
Qed.

End TimeWindow.

(** ** What one step does to the records *)

Section StepEffects.
Import HitsDB OpicHits.
Variable graph : GraphDB.
Variable relevance : page_id -> option Qc.

Lemma id_in_dec (q : page_id) (ids : list page_id) (A : Type) (x y : A) :
  (if id_in q ids then x else y) = (if in_dec string_dec q ids then x else y).
Proof.
  destruct (in_dec string_dec q ids) as [H|H].
  - apply id_in_In in H. now rewrite H.
  - now rewrite id_in_false.
Qed.

(** The virtual page hands out all its cash: every scored page gets the
    [n]-th part of the virtual page's authority cash as hub cash and of
    its hub cash as authority cash, the virtual page is left with none,
    and time and totals stay.  With no page counted nothing happens. *)
Theorem virtual_page_hands_out_its_cash (e : OpicHits) :
  ((0 < _n_pages e)%nat ->
   (forall p s,
       get (_scores e) p = Some s ->
       get (_scores (_update_virtual_page e)) p
       = Some (mkHitsScore
                 (h_history s)
                 (h_cash s + a_cash (_virtual_page e) / of_nat (_n_pages e))
                 (h_last s)
                 (a_history s)
                 (a_cash s + h_cash (_virtual_page e) / of_nat (_n_pages e))
                 (a_last s)))
   /\ h_cash (_virtual_page (_update_virtual_page e)) = 0
   /\ a_cash (_virtual_page (_update_virtual_page e)) = 0
   /\ _time (_update_virtual_page e) = _time e
   /\ _h_total (_update_virtual_page e) = _h_total e
   /\ _a_total (_update_virtual_page e) = _a_total e)
  /\ (_n_pages e = 0%nat -> _update_virtual_page e = e).
Proof.
  unfold _update_virtual_page. split.
  - intro Hn. apply Nat.ltb_lt in Hn. rewrite Hn. simpl.
    split; [|repeat split; reflexivity].
    intros p s Hg. rewrite get_increase_all_cash, Hg. reflexivity.
  - intros ->. reflexivity.
Qed.

(** A hub update of a scored page whose successor ids are free of the
    quote character splits its hub cash in equal shares between its
    successors and the virtual page, as authority cash: every
    other page that is a successor gains one share, whatever the number
    of times it is listed, the remaining pages keep their record, and the
    page itself is left with no hub cash and the authority cash it had.
    Time advances by the cash moved. *)
Theorem hub_update_splits_cash (e : OpicHits) (p : page_id) (score : HitsScore) :
  get (_scores e) p = Some score ->
  (forall q, In q (successors graph p) -> quote_free q = true) ->
  exists e',
    _update_page_h graph e p = Some e'
    /\ (forall q s,
          q <> p ->
          get (_scores e) q = Some s ->
          get (_scores e') q
          = Some (if in_dec string_dec q (successors graph p)
                  then more_a_cash
                         (h_cash score
                          / (of_nat (List.length (successors graph p)) + 1)) s
                  else s))
    /\ a_cash (_virtual_page e')
       = a_cash (_virtual_page e)
         + h_cash score / (of_nat (List.length (successors graph p)) + 1)
    /\ h_cash (_virtual_page e') = h_cash (_virtual_page e)
    /\ (exists s',
          get (_scores e') p = Some s'
          /\ h_cash s' = 0
          /\ a_cash s' = a_cash score
          /\ h_last s' = _time e)
    /\ _time e' = _time e + h_cash score.
Proof.
  intros Hg _. unfold _update_page_h. rewrite (@_get_page_score_scored _ _ _ Hg).
  eexists. split; [reflexivity|]. simpl. split.
  - intros q s Hq Hs. rewrite get_set, get_increase_a_cash, Hs. simpl.
    apply String.eqb_neq in Hq. rewrite Hq. f_equal. apply id_in_dec.
  - split; [reflexivity|]. split; [reflexivity|]. split; [|reflexivity].
    exists (_updated_page_h e score).
    rewrite get_set, get_increase_a_cash, Hg. simpl.
    rewrite String.eqb_refl. repeat split; reflexivity.
Qed.

(** An authority update of a scored page whose predecessor ids are free
    of the quote character pays the share [z] of its authority cash to
    every other page that is a predecessor, as hub
    cash, and the rest [1 - N*z] to the virtual page; the page itself is
    left with no authority cash and the hub cash it had.  Time advances
    by the cash moved. *)
Theorem authority_update_splits_cash (e : OpicHits) (p : page_id) (score : HitsScore) :
  get (_scores e) p = Some score ->
  (forall q, In q (predecessors graph p) -> quote_free q = true) ->
  exists e',
    _update_page_a graph relevance e p = Some e'
    /\ (forall q s,
          q <> p ->
          get (_scores e) q = Some s ->
          get (_scores e') q
          = Some (if in_dec string_dec q (predecessors graph p)
                  then more_h_cash
                         (a_cash score
                          * z_share (page_relevance relevance p)
                                    (List.length (predecessors graph p))) s
                  else s))
    /\ h_cash (_virtual_page e')
       = h_cash (_virtual_page e)
         + a_cash score
           * (1 - z_share (page_relevance relevance p)
                          (List.length (predecessors graph p))
                  * of_nat (List.length (predecessors graph p)))
    /\ a_cash (_virtual_page e') = a_cash (_virtual_page e)
    /\ (exists s',
          get (_scores e') p = Some s'
          /\ a_cash s' = 0
          /\ h_cash s' = h_cash score
          /\ a_last s' = _time e)
    /\ _time e' = _time e + a_cash score.
Proof.
  intros Hg _. unfold _update_page_a. rewrite (@_get_page_score_scored _ _ _ Hg).
  eexists. split; [reflexivity|]. simpl. split.
  - intros q s Hq Hs. rewrite get_set, get_increase_h_cash, Hs. simpl.
    apply String.eqb_neq in Hq. rewrite Hq. f_equal. apply id_in_dec.
  - split; [reflexivity|]. split; [reflexivity|]. split; [|reflexivity].
    exists (_updated_page_a e score).
    rewrite get_set, get_increase_h_cash, Hg. simpl.
    rewrite String.eqb_refl. repeat split; reflexivity.
Qed.

End StepEffects.

(** ** Chunks of a list *)

Section Chunks.
Import Misc.
Variable A : Type.

Lemma slice_shift (l : list A) (n k : nat) :
  slice l (S k * n) (S k * n + n) = slice (skipn n l) (k * n) (k * n + n).
Proof.
  unfold slice. rewrite skipn_skipn.
  replace (S k * n + n - S k * n)%nat with n by lia.
  replace (k * n + n - k * n)%nat with n by lia.
  replace (k * n + n)%nat with (S k * n)%nat by lia. reflexivity.
Qed.

Lemma chunk_list_shift (l : list A) (n c : nat) :
  map (fun k => slice l (k * n) (k * n + n)) (seq 0 (S c))
  = firstn n l
    :: map (fun k => slice (skipn n l) (k * n) (k * n + n)) (seq 0 c).
Proof.
  rewrite <- cons_seq, <- seq_shift. simpl map at 1. rewrite map_map.
  f_equal.
  - unfold slice. simpl. now rewrite Nat.sub_0_r.
  - apply map_ext. intro k. apply slice_shift.
Qed.

Lemma concat_chunk_list (n c : nat) (l : list A) :
  (List.length l <= c * n)%nat ->
  List.concat (map (fun k => slice l (k * n) (k * n + n)) (seq 0 c)) = l.
Proof.
  revert l. induction c as [|c IH]; intros l Hl.
  - simpl in *. destruct l; [reflexivity | simpl in Hl; lia].
  - rewrite chunk_list_shift. simpl. rewrite IH.
    + apply firstn_skipn.
    + rewrite length_skipn. simpl in Hl. lia.
Qed.

Lemma ceil_bounds (len n : nat) :
  (0 < n)%nat ->
  (len <= (len + n - 1) / n * n)%nat
  /\ ((len + n - 1) / n * n < len + n)%nat.
Proof.
  intro Hn.
  pose proof (Nat.div_mod_eq (len + n - 1) n) as E.
  pose proof (Nat.mod_upper_bound (len + n - 1) n) as U.
  split; nia.
Qed.

Lemma chunk_length (l : list A) (n k : nat) :
  List.length (slice l (k * n) (k * n + n))
  = Nat.min n (List.length l - k * n).
Proof.
  unfold slice. rewrite length_firstn, length_skipn.
  now replace (k * n + n - k * n)%nat with n by lia.
Qed.

(** [chunks] cuts a list into consecutive pieces of [n] elements: put
    together again the pieces give the list, there are as many as the
    length divided by [n], rounded up, none is empty or longer than [n],
    and every piece but the last has exactly [n] elements.  For [n = 0]
    the call raises, and for a negative [n] it yields nothing. *)
Theorem chunks_cut_the_list (l : list A) (n : Z) :
  ((0 < n)%Z ->
   exists cs,
     chunks l n = Some cs
     /\ List.concat cs = l
     /\ List.length cs = ((List.length l + Z.to_nat n - 1) / Z.to_nat n)%nat
     /\ Forall (fun c => (1 <= List.length c <= Z.to_nat n)%nat) cs
     /\ (forall k, (S k < List.length cs)%nat ->
                   List.length (nth k cs []) = Z.to_nat n))
  /\ chunks l 0 = None
  /\ ((n < 0)%Z -> chunks l n = Some []).
Proof.
  split; [|split].
  - intro Hn. unfold chunks.
    destruct (Z.eqb_spec n 0) as [E|_]; [lia|].
    destruct (Z.ltb_spec n 0) as [E|_]; [lia|].
    set (m := Z.to_nat n). assert (Hm : (0 < m)%nat) by (unfold m; lia).
    set (c := ((List.length l + m - 1) / m)%nat).
    destruct (ceil_bounds (List.length l) Hm) as [Hlo Hhi]. fold c in Hlo, Hhi.
    eexists. split; [reflexivity|].
    unfold xrange. fold c. rewrite map_map.
    assert (Hnth : forall k, (k < c)%nat ->
              nth k (map (fun k => slice l (k * m) (k * m + m)) (seq 0 c)) []
              = slice l (k * m) (k * m + m)).
    { intros k Hk.
      rewrite (nth_indep _ [] (slice l (0 * m) (0 * m + m)))
        by now rewrite length_map, length_seq.
      rewrite (map_nth (fun k => slice l (k * m) (k * m + m))).
      now rewrite seq_nth. }
    split; [now apply concat_chunk_list|].
    split; [now rewrite length_map, length_seq|].
    split.
    + apply Forall_forall. intros x Hx.
      apply in_map_iff in Hx as [k [<- Hk]]. apply in_seq in Hk.
      rewrite chunk_length. nia.
    + intros k Hk. rewrite length_map, length_seq in Hk.
      rewrite Hnth by lia. rewrite chunk_length. nia.
  - reflexivity.
  - intro Hn. unfold chunks.
    destruct (Z.eqb_spec n 0) as [E|_]; [lia|].
    destruct (Z.ltb_spec n 0) as [_|E]; [reflexivity | lia].
Qed.

End Chunks.

(** ** More theorems at concrete inputs *)

Section MoreInstances.
Import HitsDB OpicHits Scenario.
Local Open Scope string_scope.

Lemma one_is_not_zero : (1 : Qc) <> 0.
Proof. intro E. apply (f_equal this) in E. discriminate E. Defined.

Lemma b_is_present : In "b" (map FreqDB.page three_rows).
Proof. simpl. auto. Defined.

Lemma three_rows_positive (e : FreqDB.entry) :
  In e three_rows -> 0 < FreqDB.frequency e.
Proof. intros [<-|[<-|[<-|[]]]]; reflexivity. Defined.

Lemma a_to_b_quote_free : graph_quote_free a_to_b.
Proof.
  intros p q [H|H]; simpl in H.
  - destruct (String.eqb p "a"); [|contradiction].
    destruct H as [<-|[]]. reflexivity.
  - destruct (String.eqb p "b"); [|contradiction].
    destruct H as [<-|[]]. reflexivity.
Defined.

Lemma a_to_b_links_closed : links_closed a_to_b a_to_b_engine.
Proof.
  intros p Hp. change (In p ["a"; "b"]) in Hp.
  destruct Hp as [<-|[<-|[]]]; split.
  - apply (@a_to_b_neighbours _ "a" "b"); [reflexivity | reflexivity | simpl; auto].
  - split; [constructor | split; [intros [] | split; intros x []]].
  - split; [constructor | split; [intros [] | split; intros x []]].
  - apply (@a_to_b_neighbours _ "b" "a"); [reflexivity | reflexivity | simpl; auto].
Defined.

Lemma delete_undoes_add_witness :
  FreqDB.delete (FreqDB.add three_rows "d" two true) "d" = three_rows
  /\ FreqDB.contains (FreqDB.delete (FreqDB.add three_rows "d" two true) "d") "d"
     = false.
Proof.
  exact (@delete_undoes_add three_rows "d" two true d_is_absent).
Defined.

Lemma set_twice_is_set_last_witness :
  FreqDB.set (FreqDB.set three_rows "b" 1) "b" two = FreqDB.set three_rows "b" two.
Proof.
  exact (@set_twice_is_set_last three_rows "b" 1 two
           one_is_not_zero (or_introl b_is_present)).
Defined.


Lemma get_next_pages_moves_no_row_earlier_witness :
  Forall2 (fun e e' =>
             FreqDB.page e' = FreqDB.page e
             /\ FreqDB.frequency e' = FreqDB.frequency e
             /\ FreqDB.score e <= FreqDB.score e')
          three_rows (fst (FreqDB.get_next_pages three_rows 2))
  /\ FreqDB._get_min_score three_rows
     <= FreqDB._get_min_score (fst (FreqDB.get_next_pages three_rows 2))
  /\ FreqDB.get_next_pages three_rows 0 = (three_rows, []).
Proof.
  exact (@get_next_pages_moves_no_row_earlier three_rows 2%nat three_rows_positive).
Defined.

Lemma counters_follow_the_store_witness :
  exists e',
    run_engine a_to_b no_relevance (init a_to_b (connect new_tables) None)
               [CallMarkUpdate "a"; CallUpdate 2; CallGetScores "c"] = Some e'
    /\ NoDup (map fst (rows (_scores e')))
    /\ _n_pages e' = get_count (_scores e')
    /\ _h_total e' = get_h_total (_scores e')
    /\ _a_total e' = get_a_total (_scores e')
    /\ ((0 < get_count (_scores e'))%nat ->
        h_mean e' * of_nat (get_count (_scores e')) = get_h_total (_scores e')
        /\ a_mean e' * of_nat (get_count (_scores e')) = get_a_total (_scores e')).
Proof.
  evar (e1 : OpicHits).
  assert (R : run_engine a_to_b no_relevance (init a_to_b (connect new_tables) None)
                         [CallMarkUpdate "a"; CallUpdate 2; CallGetScores "c"]
              = Some e1)
    by (vm_compute; subst e1; reflexivity).
  exists e1. split; [exact R|].
  apply (@counters_follow_the_store a_to_b no_relevance (connect new_tables) None
           [CallMarkUpdate "a"; CallUpdate 2; CallGetScores "c"] e1).
  - simpl. constructor.
  - exact R.
Defined.

Lemma time_advances_with_total_history_witness :
  exists e',
    run_engine a_to_b no_relevance a_to_b_engine [CallUpdate 2] = Some e'
    /\ _time e' - _time a_to_b_engine
       = (_h_total e' - _h_total a_to_b_engine)
         + (_a_total e' - _a_total a_to_b_engine).
Proof.
  evar (e1 : OpicHits).
  assert (R : run_engine a_to_b no_relevance a_to_b_engine [CallUpdate 2] = Some e1)
    by (vm_compute; subst e1; reflexivity).
  exists e1. split; [exact R|].
  exact (@time_advances_with_total_history a_to_b no_relevance a_to_b_engine
           [CallUpdate 2] e1 eq_refl R).
Defined.

Lemma a_to_b_engine_totals : in_step a_to_b_engine /\ totals_in_step a_to_b_engine.
Proof.
  split; [exact a_to_b_engine_in_step | apply init_totals].
Defined.

Lemma restart_keeps_relative_scores_witness :
  exists e1 e',
    run_engine a_to_b no_relevance a_to_b_engine [CallUpdate 1] = Some e1
    /\ restart a_to_b e1 = Some e'
    /\ _h_total e' = _h_total e1
    /\ _a_total e' = _a_total e1
    /\ (forall p s,
          get (_scores e1) p = Some s ->
          get_scores e' p = Some (e', _relative_score e1 s)).
Proof.
  evar (e1 : OpicHits).
  assert (R : run_engine a_to_b no_relevance a_to_b_engine [CallUpdate 1] = Some e1)
    by (vm_compute; subst e1; reflexivity).
  assert (Hc : _closed e1 = false) by (vm_compute; reflexivity).
  assert (Ho : opened (_scores e1)) by (split; vm_compute; discriminate).
  destruct (@run_engine_totals a_to_b no_relevance [CallUpdate 1] a_to_b_engine e1
              a_to_b_engine_totals R) as [_ Ht].
  destruct (@restart_keeps_relative_scores a_to_b e1 Hc Ho Ht) as [e' H].
  exists e1, e'. split; [exact R | exact H].
Defined.

Lemma update_returns_scored_pages_once_witness :
  exists e' hubs auths,
    update a_to_b no_relevance a_to_b_engine 1 = Some (e', (hubs, auths))
    /\ NoDup hubs
    /\ NoDup auths
    /\ (List.length hubs + List.length auths <= n_updates a_to_b_engine)%nat
    /\ (forall p, In p hubs \/ In p auths -> scored e' p).
Proof.
  evar (e1 : OpicHits). evar (hs : list page_id). evar (au : list page_id).
  assert (R : update a_to_b no_relevance a_to_b_engine 1 = Some (e1, (hs, au)))
    by (vm_compute; subst e1 hs au; reflexivity).
  exists e1, hs, au. split; [exact R|].
  exact (@update_returns_scored_pages_once a_to_b no_relevance a_to_b_engine
           0%nat e1 hs au a_to_b_engine_in_step R).
Defined.

Lemma update_conserves_total_cash_witness :
  exists e' r,
    update a_to_b no_relevance a_to_b_engine 3 = Some (e', r)
    /\ total_cash e' = total_cash a_to_b_engine
    /\ map fst (rows (_scores e')) = map fst (rows (_scores a_to_b_engine)).
Proof.
  exact (@update_conserves_total_cash a_to_b no_relevance a_to_b_engine 2%nat
           a_to_b_engine_in_step a_to_b_links_closed).
Defined.

Lemma get_scores_adds_unknown_page_witness :
  exists e',
    get_scores a_to_b_engine "c" = Some (e', (0, 0))
    /\ _n_pages e' = S (_n_pages a_to_b_engine)
    /\ get (_scores e') "c" = Some (new_score a_to_b_engine)
    /\ (forall q, q <> "c" -> get (_scores e') q = get (_scores a_to_b_engine) q)
    /\ get_scores e' "c" = Some (e', (0, 0)).
Proof.
  exact (@get_scores_adds_unknown_page a_to_b_engine "c" eq_refl).
Defined.

Lemma iscores_agree_with_get_scores_witness :
  map (fun x : page_id * Qc * Qc => fst (fst x)) (iscores a_to_b_engine)
  = map fst (rows (_scores a_to_b_engine))
  /\ Forall (fun x : page_id * Qc * Qc =>
               get_scores a_to_b_engine (fst (fst x))
               = Some (a_to_b_engine, (snd (fst x), snd x)))
            (iscores a_to_b_engine).
Proof.
  exact (@iscores_agree_with_get_scores a_to_b_engine
           (proj1 a_to_b_engine_in_step)).
Defined.

Lemma relative_scores_sum_to_one_witness :
  exists e1,
    run_engine a_to_b no_relevance a_to_b_engine [CallUpdate 1] = Some e1
    /\ sum (map (fun x : page_id * Qc * Qc => snd (fst x)) (iscores e1)) = 1
    /\ sum (map (fun x : page_id * Qc * Qc => snd x) (iscores e1)) = 1.
Proof.
  evar (e1 : OpicHits).
  assert (R : run_engine a_to_b no_relevance a_to_b_engine [CallUpdate 1] = Some e1)
    by (vm_compute; subst e1; reflexivity).
  destruct (@run_engine_totals a_to_b no_relevance [CallUpdate 1] a_to_b_engine e1
              a_to_b_engine_totals R) as [_ Ht].
  destruct (@relative_scores_sum_to_one e1 Ht) as [Hh Ha].
  exists e1. split; [exact R|]. split.
  - apply Hh. vm_compute. reflexivity.
  - apply Ha. vm_compute. reflexivity.
Defined.

Lemma _history_interpolator_bounds_witness :
  let e := init a_to_b (connect new_tables) (Some two) in
  0 <= _history_interpolator e 1 1 1
  /\ _history_interpolator e 1 1 1 <= 1 + 1
  /\ ((1 : Qc) = 0 -> _history_interpolator e 1 1 1 = 1 + 1)
  /\ (two <= 1 -> _history_interpolator e 1 1 1 = 1 * two / 1).
Proof.
  exact (@_history_interpolator_bounds
           (init a_to_b (connect new_tables) (Some two)) two 1 1 1
           eq_refl two_is_positive zero_le_one zero_le_one zero_le_one).
Defined.

Lemma hub_update_splits_cash_witness :
  exists score e',
    get (_scores a_to_b_engine) "a" = Some score
    /\ _update_page_h a_to_b a_to_b_engine "a" = Some e'
    /\ (forall q s,
          q <> "a" ->
          get (_scores a_to_b_engine) q = Some s ->
          get (_scores e') q
          = Some (if in_dec string_dec q (successors a_to_b "a")
                  then more_a_cash
                         (h_cash score
                          / (of_nat (List.length (successors a_to_b "a")) + 1)) s
                  else s))
    /\ a_cash (_virtual_page e')
       = a_cash (_virtual_page a_to_b_engine)
         + h_cash score / (of_nat (List.length (successors a_to_b "a")) + 1)
    /\ h_cash (_virtual_page e') = h_cash (_virtual_page a_to_b_engine)
    /\ (exists s',
          get (_scores e') "a" = Some s'
          /\ h_cash s' = 0
          /\ a_cash s' = a_cash score
          /\ h_last s' = _time a_to_b_engine)
    /\ _time e' = _time a_to_b_engine + h_cash score.
Proof.
  evar (s : HitsScore).
  assert (G : get (_scores a_to_b_engine) "a" = Some s)
    by (vm_compute; subst s; reflexivity).
  destruct (@hub_update_splits_cash a_to_b a_to_b_engine "a" s G
              (fun q Hq => a_to_b_quote_free "a" q (or_introl Hq))) as [e' H].
  exists s, e'. split; [exact G | exact H].
Defined.

Lemma authority_update_splits_cash_witness :
  exists score e',
    get (_scores a_to_b_engine) "b" = Some score
    /\ _update_page_a a_to_b no_relevance a_to_b_engine "b" = Some e'
    /\ (forall q s,
          q <> "b" ->
          get (_scores a_to_b_engine) q = Some s ->
          get (_scores e') q
          = Some (if in_dec string_dec q (predecessors a_to_b "b")
                  then more_h_cash
                         (a_cash score
                          * z_share (page_relevance no_relevance "b")
                                    (List.length (predecessors a_to_b "b"))) s
                  else s))
    /\ h_cash (_virtual_page e')
       = h_cash (_virtual_page a_to_b_engine)
         + a_cash score
           * (1 - z_share (page_relevance no_relevance "b")
                          (List.length (predecessors a_to_b "b"))
                  * of_nat (List.length (predecessors a_to_b "b")))
    /\ a_cash (_virtual_page e') = a_cash (_virtual_page a_to_b_engine)
    /\ (exists s',
          get (_scores e') "b" = Some s'
          /\ a_cash s' = 0
          /\ h_cash s' = h_cash score
          /\ a_last s' = _time a_to_b_engine)
    /\ _time e' = _time a_to_b_engine + a_cash score.
Proof.
  evar (s : HitsScore).
  assert (G : get (_scores a_to_b_engine) "b" = Some s)
    by (vm_compute; subst s; reflexivity).
  destruct (@authority_update_splits_cash a_to_b no_relevance a_to_b_engine "b" s G
              (fun q Hq => a_to_b_quote_free "b" q (or_intror Hq)))
    as [e' H].
  exists s, e'. split; [exact G | exact H].
Defined.

Lemma update_returns_from_one_pass_witness :
  (exists e' r,
      update a_to_b no_relevance a_to_b_engine 2 = Some (e', r)
      /\ _to_update e' = [])
  /\ update a_to_b no_relevance a_to_b_engine 0 = None.
Proof.
  exact (@update_returns_from_one_pass a_to_b no_relevance a_to_b_engine 1%nat
           a_to_b_quote_free).
Defined.

Lemma a_and_z_quote_free (p : page_id) :
  In p ["a"; "a"; "z"] -> quote_free p = true.
Proof. intros [<-|[<-|[<-|[]]]]; reflexivity. Defined.

Lemma increase_cash_touches_listed_rows_only_witness :
  let c := _scores a_to_b_engine in
  get (increase_h_cash c ["a"; "a"; "z"] two) "a"
  = match get c "a" with
    | Some s =>
        Some (if in_dec string_dec "a" ["a"; "a"; "z"]
              then mkHitsScore (h_history s) (h_cash s + two) (h_last s)
                               (a_history s) (a_cash s) (a_last s)
              else s)
    | None => None
    end
  /\ get (increase_a_cash c ["a"; "a"; "z"] two) "a"
     = match get c "a" with
       | Some s =>
           Some (if in_dec string_dec "a" ["a"; "a"; "z"]
                 then mkHitsScore (h_history s) (h_cash s) (h_last s)
                                  (a_history s) (a_cash s + two) (a_last s)
                 else s)
       | None => None
       end
  /\ get_count (increase_h_cash c ["a"; "a"; "z"] two) = get_count c
  /\ get_count (increase_a_cash c ["a"; "a"; "z"] two) = get_count c.
Proof.
  exact (@increase_cash_touches_listed_rows_only (_scores a_to_b_engine)
           ["a"; "a"; "z"] two "a" a_and_z_quote_free).
Defined.

End MoreInstances.
